(** * A shallow embedding of the heap-file storage layer

    The development follows the C++ sources [db/Tuple.cpp] and
    [db/HeapFile.cpp] function by function.  Values of type [size_t] are
    modelled by [nat]: every [size_t] of the code is an index or a byte
    count bounded by the size of a vector, a page or a file that exists in
    memory, so no operation of the code can wrap around.  An [int] is a [Z]
    in the range of 32-bit two's complement, a [double] is the 64-bit
    pattern of its object representation (the code only ever copies it with
    [memcpy]), a [std::string] is its sequence of bytes, and a raw buffer
    [uint8_t *] is the list of the bytes that are addressable from the
    pointer on. *)

From Stdlib Require Import ZArith List Ascii String Lia.
From Stdlib Require Import Init.Byte.
From coqutil Require Import Byte Word.LittleEndianList.
From stdpp Require Import base list gmap strings sorting.

Open Scope nat_scope.

(** ** Outcomes of a call *)

(** The exceptions the code throws.  [invalid_slot] and [io_error] are the
    error kinds of the two collaborators whose sources are not part of the
    repository (the slotted page and the page store). *)
Inductive exn : Type :=
| logic_error (what : string)
| out_of_range (what : string)
| bad_variant_access
| invalid_slot (what : string)
| io_error (what : string).

(** A call returns a value, throws, or has undefined behaviour (an access
    outside the buffer it was handed, or an unchecked [operator[]] outside a
    vector). *)
Inductive outcome (A : Type) : Type :=
| Ok (a : A)
| Throw (e : exn)
| Undefined.

Arguments Ok {A} a.
Arguments Throw {A} e.
Arguments Undefined {A}.

Definition obind {A B : Type} (c : outcome A) (k : A -> outcome B) : outcome B :=
  match c with
  | Ok a => k a
  | Throw e => Throw e
  | Undefined => Undefined
  end.

Notation "'let?' x := c 'in' k" := (obind c (fun x => k))
  (at level 10, x name, c at level 100, k at level 200, only parsing).
Notation "'let?' ' p := c 'in' k" := (obind c (fun x => let 'p := x in k))
  (at level 10, p pattern, c at level 100, k at level 200, only parsing).

(** Code that mutates an object of type [S] in place: the object is threaded
    through and survives an exception, so that a partial mutation before a
    [throw] stays visible. *)
Definition prog (S A : Type) : Type := S -> outcome A * S.

Definition pret {S A : Type} (a : A) : prog S A := fun s => (Ok a, s).

Definition pbind {S A B : Type} (c : prog S A) (k : A -> prog S B) : prog S B :=
  fun s =>
    match c s with
    | (Ok a, s') => k a s'
    | (Throw e, s') => (Throw e, s')
    | (Undefined, s') => (Undefined, s')
    end.

Definition pthrow {S A : Type} (e : exn) : prog S A := fun s => (Throw e, s).

(** A call of a [const] function inside mutating code. *)
Definition plift {S A : Type} (c : outcome A) : prog S A := fun s => (c, s).

Notation "'let!' x := c 'in' k" := (pbind c (fun x => k))
  (at level 10, x name, c at level 100, k at level 200, only parsing).
Notation "'let!' ' p := c 'in' k" := (pbind c (fun x => let 'p := x in k))
  (at level 10, p pattern, c at level 100, k at level 200, only parsing).

(** ** Vectors and raw memory *)

(** [v.at(i)]: bounds-checked.  Out of range it throws [std::out_of_range];
    the text of that exception is the standard library's own and not fixed
    by the code, so the text below is a placeholder that no statement relies
    on. *)
Definition vec_at {A : Type} (v : list A) (i : nat) : outcome A :=
  match v !! i with
  | Some x => Ok x
  | None => Throw (out_of_range "vector::at")
  end.

(** [v[i]] read: unchecked. *)
Definition vec_idx {A : Type} (v : list A) (i : nat) : outcome A :=
  match v !! i with
  | Some x => Ok x
  | None => Undefined
  end.

(** [v[i] = x]: unchecked. *)
Definition vec_set {A : Type} (v : list A) (i : nat) (x : A) : outcome (list A) :=
  if i <? length v then Ok (<[i := x]> v) else Undefined.

(** [memcpy(dst, data + off, n)]: the [n] bytes read. *)
Definition mem_read (data : list byte) (off n : nat) : outcome (list byte) :=
  if off + n <=? length data then Ok (take n (drop off data)) else Undefined.

(** [memcpy(data + off, src, n)] and [memset(data + off, c, n)]: [bs] are
    the [n] bytes stored. *)
Definition mem_write (off : nat) (bs : list byte) : prog (list byte) unit :=
  fun data =>
    if off + length bs <=? length data
    then (Ok tt, take off data ++ bs ++ drop (off + length bs) data)
    else (Undefined, data).

(** Running code that was handed the pointer [data + off]. *)
Definition at_offset {A : Type} (off : nat) (c : prog (list byte) A) : prog (list byte) A :=
  fun data =>
    if off <=? length data
    then let '(r, suffix) := c (drop off data) in (r, take off data ++ suffix)
    else (Undefined, data).

Definition is_zero (b : byte) : bool := Byte.eqb b x00.

(** ** Field types ([db/types.hpp]) *)

Inductive type_t : Type := INT | DOUBLE | CHAR.

Definition type_eqb (a b : type_t) : bool :=
  match a, b with
  | INT, INT | DOUBLE, DOUBLE | CHAR, CHAR => true
  | _, _ => false
  end.

(** Modelled from the spec: the header [db/types.hpp] that defines the width
    constants is not part of the sources; the spec gives int = 4,
    double = 8, text = 64 (the code's own comment at [CHAR_SIZE] says 64). *)
Definition INT_SIZE : nat := 4.
Definition DOUBLE_SIZE : nat := 8.
Definition CHAR_SIZE : nat := 64.

(** [field_t] is [std::variant<int, double, std::string>]. *)
Inductive field_t : Type :=
| Int (v : Z)
| Double (bits : Z)
| Str (s : list byte).

(** The values an [int] and the bit pattern of a [double] can take. *)
Definition int_range (v : Z) : Prop := (- 2 ^ 31 <= v < 2 ^ 31)%Z.
Definition double_range (bits : Z) : Prop := (0 <= bits < 2 ^ 64)%Z.

Definition field_wf (f : field_t) : Prop :=
  match f with
  | Int v => int_range v
  | Double bits => double_range bits
  | Str _ => True
  end.

(** [std::get<int>], [std::get<double>], [std::get<std::string>]. *)
Definition get_int (f : field_t) : outcome Z :=
  match f with Int v => Ok v | _ => Throw bad_variant_access end.
Definition get_double (f : field_t) : outcome Z :=
  match f with Double b => Ok b | _ => Throw bad_variant_access end.
Definition get_string (f : field_t) : outcome (list byte) :=
  match f with Str s => Ok s | _ => Throw bad_variant_access end.

(** The object representation of an [int] and of a [double] on the
    little-endian hosts the code is built for, and the values read back. *)
Definition bytes_of_int (v : Z) : list byte := le_split INT_SIZE v.
Definition int_of_bytes (bs : list byte) : Z :=
  let u := le_combine bs in
  if (u <? 2 ^ 31)%Z then u else (u - 2 ^ 32)%Z.
Definition bytes_of_double (bits : Z) : list byte := le_split DOUBLE_SIZE bits.
Definition double_of_bytes (bs : list byte) : Z := le_combine bs.

(** ** Tuple *)

Module Tuple.

Record t : Type := Tuple { fields : list field_t }.

(** The final [throw] of the source is unreachable: a variant holds one of
    its three alternatives. *)
Definition field_type (tu : t) (i : nat) : outcome type_t :=
  let? f := vec_at (fields tu) i in
  match f with
  | Int _ => Ok INT
  | Double _ => Ok DOUBLE
  | Str _ => Ok CHAR
  end.

Definition size (tu : t) : nat := length (fields tu).

Definition get_field (tu : t) (i : nat) : outcome field_t := vec_at (fields tu) i.

Definition wf (tu : t) : Prop := Forall field_wf (fields tu).

End Tuple.

(** ** TupleDesc *)

Module TupleDesc.

Record t : Type := Build {
  types_ : list type_t;
  names_ : list string;
  offsets_ : list nat;
  length_ : nat;
  name2idx_ : gmap string nat
}.

(** [TupleDesc() = default]. *)
Definition default : t :=
  {| types_ := []; names_ := []; offsets_ := []; length_ := 0; name2idx_ := ∅ |}.

(** The duplicate check: [seen.insert(n).second] is false when [n] is
    already in [seen]. *)
Fixpoint check_names (seen : gset string) (names : list string) : outcome unit :=
  match names with
  | [] => Ok tt
  | n :: rest =>
      if bool_decide (n ∈ seen)
      then Throw (logic_error ("TupleDesc: duplicate field name: " +:+ n))
      else check_names ({[n]} ∪ seen) rest
  end.

(** The lambda [size_of]; its final [throw] is unreachable. *)
Definition size_of (ty : type_t) : nat :=
  match ty with
  | INT => INT_SIZE
  | DOUBLE => DOUBLE_SIZE
  | CHAR => CHAR_SIZE
  end.

(** [name2idx_.emplace(k, i)] keeps an entry that is already there. *)
Definition emplace (k : string) (i : nat) (m : gmap string nat) : gmap string nat :=
  match m !! k with
  | Some _ => m
  | None => <[k := i]> m
  end.

(** The layout loop [for (i = 0; i < types_.size(); ++i)], with [count]
    iterations left; the state is [(offsets_, off, name2idx_)]. *)
Fixpoint layout (types : list type_t) (names : list string) (i count : nat)
    (st : list nat * nat * gmap string nat) : outcome (list nat * nat * gmap string nat) :=
  match count with
  | 0 => Ok st
  | S count' =>
      let '(offsets, off, n2i) := st in
      let? offsets' := vec_set offsets i off in
      let? ty := vec_idx types i in
      let? nm := vec_idx names i in
      layout types names (S i) count' (offsets', off + size_of ty, emplace nm i n2i)
  end.

Definition TupleDesc (types : list type_t) (names : list string) : outcome t :=
  if negb (length types =? length names)
  then Throw (logic_error "TupleDesc: types and names must have same length")
  else
    let? _ := check_names ∅ names in
    let? '(offsets, off, n2i) :=
      layout types names 0 (length types) (replicate (length types) 0, 0, ∅) in
    Ok {| types_ := types; names_ := names; offsets_ := offsets;
          length_ := off; name2idx_ := n2i |}.

(** The loop of [compatible], with [count] iterations left. *)
Fixpoint compatible_loop (td : t) (tuple : Tuple.t) (i count : nat) : outcome bool :=
  match count with
  | 0 => Ok true
  | S count' =>
      let? ft := Tuple.field_type tuple i in
      let? ty := vec_idx (types_ td) i in
      if type_eqb ft ty then compatible_loop td tuple (S i) count' else Ok false
  end.

Definition compatible (td : t) (tuple : Tuple.t) : outcome bool :=
  if negb (Tuple.size tuple =? length (types_ td)) then Ok false
  else compatible_loop td tuple 0 (length (types_ td)).

Definition index_of (td : t) (name : string) : outcome nat :=
  match name2idx_ td !! name with
  | None => Throw (out_of_range ("TupleDesc::index_of: field not found: " +:+ name))
  | Some i => Ok i
  end.

Definition offset_of (td : t) (index : nat) : outcome nat :=
  if length (offsets_ td) <=? index
  then Throw (out_of_range "TupleDesc::offset_of: index out of range")
  else vec_idx (offsets_ td) index.

Definition size (td : t) : nat := length (types_ td).

(** The text scan [while (len < CHAR_SIZE && csrc[len] != 0) ++len], with
    [left = CHAR_SIZE - len]: the loop ends when nothing is left. *)
Fixpoint cstr_len (data : list byte) (off len left : nat) : outcome nat :=
  match left with
  | 0 => Ok len
  | S left' =>
      let? c := vec_idx data (off + len) in
      if is_zero c then Ok len else cstr_len data off (S len) left'
  end.

(** One iteration of the loop of [deserialize]: the field at [ptr = data + off]. *)
Definition deserialize_field (ty : type_t) (data : list byte) (off : nat) : outcome field_t :=
  match ty with
  | INT => let? bs := mem_read data off INT_SIZE in Ok (Int (int_of_bytes bs))
  | DOUBLE => let? bs := mem_read data off DOUBLE_SIZE in Ok (Double (double_of_bytes bs))
  | CHAR => let? len := cstr_len data off 0 CHAR_SIZE in Ok (Str (take len (drop off data)))
  end.

Fixpoint deserialize_loop (td : t) (data : list byte) (i count : nat)
    (out : list field_t) : outcome (list field_t) :=
  match count with
  | 0 => Ok out
  | S count' =>
      let? off := vec_idx (offsets_ td) i in
      let? ty := vec_idx (types_ td) i in
      let? f := deserialize_field ty data off in
      deserialize_loop td data (S i) count' (out ++ [f])
  end.

Definition deserialize (td : t) (data : list byte) : outcome Tuple.t :=
  let? out := deserialize_loop td data 0 (length (types_ td)) [] in
  Ok (Tuple.Tuple out).

(** One iteration of the loop of [serialize]: field [i] of the tuple is
    stored at [ptr = data + off]. *)
Definition serialize_field (ty : type_t) (tu : Tuple.t) (i off : nat) : prog (list byte) unit :=
  match ty with
  | INT =>
      let! v := plift (let? f := Tuple.get_field tu i in get_int f) in
      mem_write off (bytes_of_int v)
  | DOUBLE =>
      let! v := plift (let? f := Tuple.get_field tu i in get_double f) in
      mem_write off (bytes_of_double v)
  | CHAR =>
      let! s := plift (let? f := Tuple.get_field tu i in get_string f) in
      let n := if CHAR_SIZE <? length s then CHAR_SIZE else length s in
      let! _ := mem_write off (take n s) in
      if n <? CHAR_SIZE
      then mem_write (off + n) (replicate (CHAR_SIZE - n) x00)
      else pret tt
  end.

Fixpoint serialize_loop (td : t) (tu : Tuple.t) (i count : nat) : prog (list byte) unit :=
  match count with
  | 0 => pret tt
  | S count' =>
      let! off := plift (vec_idx (offsets_ td) i) in
      let! ty := plift (vec_idx (types_ td) i) in
      let! _ := serialize_field ty tu i off in
      serialize_loop td tu (S i) count'
  end.

Definition serialize (td : t) (tu : Tuple.t) : prog (list byte) unit :=
  let! c := plift (compatible td tu) in
  if negb c
  then pthrow (logic_error "TupleDesc::serialize: tuple incompatible with schema")
  else serialize_loop td tu 0 (length (types_ td)).

(** The two copy loops of [merge]: [count] fields of [td] from index [i] on
    are pushed onto [(types, names)]. *)
Fixpoint merge_push (td : t) (i count : nat) (acc : list type_t * list string)
    : outcome (list type_t * list string) :=
  match count with
  | 0 => Ok acc
  | S count' =>
      let? ty := vec_idx (types_ td) i in
      let? nm := vec_idx (names_ td) i in
      merge_push td (S i) count' (fst acc ++ [ty], snd acc ++ [nm])
  end.

Definition merge (td1 td2 : t) : outcome t :=
  let? acc1 := merge_push td1 0 (size td1) ([], []) in
  let? acc2 := merge_push td2 0 (size td2) acc1 in
  TupleDesc (fst acc2) (snd acc2).

Definition length (td : t) : nat := length_ td.

End TupleDesc.

(** ** The page store ([DbFile]) *)

(** Modelled from the spec: [db/types.hpp] is not part of the sources; a page
    is "a fixed-size opaque byte buffer (size fixed by the storage
    collaborator, e.g. 4096 bytes)". *)
Definition DEFAULT_PAGE_SIZE : nat := 4096.

Definition Page : Type := list byte.

(** [Page page{}]: value-initialised, all zero. *)
Definition zero_page : Page := replicate DEFAULT_PAGE_SIZE x00.

(** The page transfers a file has performed, oldest first.  The log is not
    part of the code; it records what "touching storage" means. *)
Inductive io_event : Type :=
| PageRead (index : nat)
| PageWrite (index : nat).

Module DbFile.

Record t : Type := Build {
  td : TupleDesc.t;
  pages : list Page;
  io : list io_event
}.

Definition getTupleDesc : prog t TupleDesc.t := fun f => (Ok (td f), f).

(** Modelled from the spec: [DbFile] is not part of the sources.
    "pageCount() -> N (current number of fixed-size pages)". *)
Definition getNumPages : prog t nat := fun f => (Ok (length (pages f)), f).

(** Modelled from the spec: [DbFile] is not part of the sources.
    "readPage(buffer, index) -- fails if index >= N". *)
Definition readPage (index : nat) : prog t Page :=
  fun f =>
    match pages f !! index with
    | Some pg => (Ok pg, {| td := td f; pages := pages f; io := io f ++ [PageRead index] |})
    | None => (Throw (io_error "readPage: index out of range"), f)
    end.

(** Modelled from the spec: [DbFile] is not part of the sources.
    "writePage(buffer, index) -- if index == N, appends a new page (extends
    pageCount to N+1); if index < N, overwrites in place; fails if
    index > N". *)
Definition writePage (pg : Page) (index : nat) : prog t unit :=
  fun f =>
    if index <? length (pages f)
    then (Ok tt, {| td := td f; pages := <[index := pg]> (pages f);
                    io := io f ++ [PageWrite index] |})
    else if index =? length (pages f)
    then (Ok tt, {| td := td f; pages := pages f ++ [pg];
                    io := io f ++ [PageWrite index] |})
    else (Throw (io_error "writePage: index out of range"), f).

End DbFile.

(** ** The slotted page ([HeapPage]) *)

Module HeapPage.

(** Modelled from the spec: [HeapPage] is not part of the sources.
    "Capacity = floor of (usable page bytes / (record length + liveness-bit
    cost))", with one liveness bit per slot. *)
Definition capacity (td : TupleDesc.t) : nat :=
  (DEFAULT_PAGE_SIZE * 8) / (TupleDesc.length td * 8 + 1).

(** Modelled from the spec: [HeapPage] is not part of the sources.
    "[liveness indicator array sized to capacity] followed by [capacity x
    fixed-length record slots]": the array takes one bit per slot, rounded
    up to whole bytes, and slot [slot] starts right after it. *)
Definition header_size (td : TupleDesc.t) : nat := (capacity td + 7) / 8.
Definition slot_offset (td : TupleDesc.t) (slot : nat) : nat :=
  header_size td + slot * TupleDesc.length td.

(** Bit [k] of a byte, and the byte with bit [k] set to [v]. *)
Definition get_bit (b : byte) (k : nat) : bool :=
  Z.testbit (byte.unsigned b) (Z.of_nat k).
Definition set_bit (b : byte) (k : nat) (v : bool) : byte :=
  byte.of_Z (if v then Z.lor (byte.unsigned b) (Z.shiftl 1 (Z.of_nat k))
             else Z.ldiff (byte.unsigned b) (Z.shiftl 1 (Z.of_nat k))).

(** Modelled from the spec: [HeapPage] is not part of the sources.  The
    liveness marker of a slot: bit [slot] of the array, the most significant
    bit of a byte first.  A page has [DEFAULT_PAGE_SIZE] bytes, so the byte
    of a slot below the capacity always exists. *)
Definition live (pg : Page) (slot : nat) : bool :=
  match pg !! (slot / 8) with
  | Some b => get_bit b (7 - slot mod 8)
  | None => false
  end.

Definition mark (slot : nat) (v : bool) : prog Page unit :=
  fun pg =>
    match pg !! (slot / 8) with
    | Some b => (Ok tt, <[slot / 8 := set_bit b (7 - slot mod 8) v]> pg)
    | None => (Undefined, pg)
    end.

(** The lowest slot at or after [slot] whose liveness is [v], among the
    next [count] slots; [slot + count] when there is none. *)
Fixpoint find_slot (pg : Page) (v : bool) (slot count : nat) : nat :=
  match count with
  | 0 => slot
  | S count' => if Bool.eqb (live pg slot) v then slot else find_slot pg v (S slot) count'
  end.

(** Modelled from the spec: [HeapPage] is not part of the sources.
    "the page's end() sentinel (== capacity)". *)
Definition end_ (td : TupleDesc.t) : nat := capacity td.

(** Modelled from the spec: [HeapPage] is not part of the sources.
    "begin() returns the lowest live slot index or the page's end() sentinel
    (== capacity) if none live". *)
Definition begin (td : TupleDesc.t) (pg : Page) : nat :=
  find_slot pg true 0 (capacity td).

(** Modelled from the spec: [HeapPage] is not part of the sources.
    "next(slot) advances to the next strictly-greater live slot index or to
    end() if none remain". *)
Definition next (td : TupleDesc.t) (pg : Page) (slot : nat) : nat :=
  if capacity td <=? slot then capacity td
  else find_slot pg true (S slot) (capacity td - S slot).

(** Modelled from the spec: [HeapPage] is not part of the sources.
    "insertTuple(record): scans slot indices in increasing order; the first
    dead slot found is claimed -- mark live, serialize the record into it,
    return success.  If no dead slot exists (page full), returns failure (no
    mutation)". *)
Definition insertTuple (td : TupleDesc.t) (tu : Tuple.t) : prog Page bool :=
  fun pg =>
    let slot := find_slot pg false 0 (capacity td) in
    if slot <? capacity td
    then (let! _ := mark slot true in
          let! _ := at_offset (slot_offset td slot) (TupleDesc.serialize td tu) in
          pret true) pg
    else (Ok false, pg).

(** Modelled from the spec: [HeapPage] is not part of the sources.
    "deleteTuple(slot): fails with an OutOfRange/InvalidSlot error if the
    index is beyond capacity or the slot is already dead; otherwise marks it
    dead"; the error kinds are "OutOfRangeError (... slot index beyond a
    page's capacity)" and "InvalidSlotError (delete/get on an already-dead or
    never-live slot)". *)
Definition deleteTuple (td : TupleDesc.t) (slot : nat) : prog Page unit :=
  fun pg =>
    if capacity td <=? slot
    then (Throw (out_of_range "HeapPage::deleteTuple: slot out of range"), pg)
    else if negb (live pg slot)
    then (Throw (invalid_slot "HeapPage::deleteTuple: slot is empty"), pg)
    else mark slot false pg.

(** Modelled from the spec: [HeapPage] is not part of the sources.
    "getTuple(slot): fails if slot is out of range or dead; otherwise
    deserializes and returns the record". *)
Definition getTuple (td : TupleDesc.t) (pg : Page) (slot : nat) : outcome Tuple.t :=
  if capacity td <=? slot
  then Throw (out_of_range "HeapPage::getTuple: slot out of range")
  else if negb (live pg slot)
  then Throw (invalid_slot "HeapPage::getTuple: slot is empty")
  else TupleDesc.deserialize td (drop (slot_offset td slot) pg).

End HeapPage.

(** ** HeapFile *)

Module HeapFile.

(** The position of an iterator, with the fields [page] and [slot] the code
    reads and assigns; the reference to its file is the file the operation
    runs on. *)
Record Iterator : Type := Build_Iterator { page : nat; slot : nat }.

(** Modelled from the spec: the header that declares [Iterator] is not part
    of the sources.  "a plain, freely copyable/comparable (page, slot) value
    type with a well-defined equality against the sentinel". *)
Definition Iterator_eqb (a b : Iterator) : bool :=
  (page a =? page b) && (slot a =? slot b).

(** A method of [HeapPage hp(page, td)] run on the local buffer [page]: the
    file is not touched, and the buffer is lost when the method throws. *)
Definition on_page {A : Type} (pg : Page) (c : prog Page A) : prog DbFile.t (A * Page) :=
  fun f =>
    match c pg with
    | (Ok a, pg') => (Ok (a, pg'), f)
    | (Throw e, _) => (Throw e, f)
    | (Undefined, _) => (Undefined, f)
    end.

(** [inserted] is true when the branch for the last page has returned. *)
Definition insertTuple (t : Tuple.t) : prog DbFile.t unit :=
  let! td := DbFile.getTupleDesc in
  let! c := plift (TupleDesc.compatible td t) in
  if negb c
  then pthrow (logic_error "HeapFile::insertTuple: tuple not compatible with schema")
  else
    let! n := DbFile.getNumPages in
    let! inserted :=
      (if 0 <? n
       then
         let! pg := DbFile.readPage (n - 1) in
         let! '(ok, pg') := on_page pg (HeapPage.insertTuple td t) in
         if (ok : bool)
         then let! _ := DbFile.writePage pg' (n - 1) in pret true
         else pret false
       else pret false) in
    if (inserted : bool) then pret tt
    else
      let! '(_, new_page) := on_page zero_page (HeapPage.insertTuple td t) in
      DbFile.writePage new_page n.

Definition deleteTuple (it : Iterator) : prog DbFile.t unit :=
  let! n := DbFile.getNumPages in
  if n <=? page it
  then pthrow (out_of_range "HeapFile::deleteTuple: page out of range")
  else
    let! pg := DbFile.readPage (page it) in
    let! td := DbFile.getTupleDesc in
    let! '(_, pg') := on_page pg (HeapPage.deleteTuple td (slot it)) in
    DbFile.writePage pg' (page it).

Definition getTuple (it : Iterator) : prog DbFile.t Tuple.t :=
  let! n := DbFile.getNumPages in
  if n <=? page it
  then pthrow (out_of_range "HeapFile::getTuple: page out of range")
  else
    let! pg := DbFile.readPage (page it) in
    let! td := DbFile.getTupleDesc in
    plift (HeapPage.getTuple td pg (slot it)).

(** The loop [for (p = ...; p < n; ++p)] of [next] and of [begin], with
    [count = n - p] iterations left: the first page from [p] on with a live
    slot, and that slot. *)
Fixpoint first_nonempty (p count : nat) : prog DbFile.t (option Iterator) :=
  match count with
  | 0 => pret None
  | S count' =>
      let! pg := DbFile.readPage p in
      let! td := DbFile.getTupleDesc in
      let b := HeapPage.begin td pg in
      if negb (b =? HeapPage.end_ td)
      then pret (Some {| page := p; slot := b |})
      else first_nonempty (S p) count'
  end.

(** [next] updates the iterator it is handed; the model returns the new
    position. *)
Definition next (it : Iterator) : prog DbFile.t Iterator :=
  let! n := DbFile.getNumPages in
  if n <=? page it
  then pret {| page := n; slot := 0 |}
  else
    let! pg := DbFile.readPage (page it) in
    let! td := DbFile.getTupleDesc in
    let s := HeapPage.next td pg (slot it) in
    if negb (s =? HeapPage.end_ td)
    then pret {| page := page it; slot := s |}
    else
      let! found := first_nonempty (page it + 1) (n - (page it + 1)) in
      match found with
      | Some it' => pret it'
      | None => pret {| page := n; slot := 0 |}
      end.

Definition begin : prog DbFile.t Iterator :=
  let! n := DbFile.getNumPages in
  let! found := first_nonempty 0 n in
  match found with
  | Some it => pret it
  | None => pret {| page := n; slot := 0 |}
  end.

Definition end_ : prog DbFile.t Iterator :=
  let! n := DbFile.getNumPages in
  pret {| page := n; slot := 0 |}.

(** The scan of a caller, [for (it = begin(); it != end(); next(it))], as
    the list of the positions it visits; [None] when [fuel] iterations were
    not enough to reach [end()]. *)
Fixpoint scan_loop (fuel : nat) (it : Iterator) : prog DbFile.t (option (list Iterator)) :=
  let! e := end_ in
  if Iterator_eqb it e then pret (Some [])
  else
    match fuel with
    | 0 => pret None
    | S fuel' =>
        let! it' := next it in
        let! rest := scan_loop fuel' it' in
        pret (option_map (cons it) rest)
    end.

Definition scan (fuel : nat) : prog DbFile.t (option (list Iterator)) :=
  let! it := begin in
  scan_loop fuel it.

End HeapFile.

(** * The vocabulary of the statements *)

#[global] Instance type_t_eq_dec : EqDecision type_t.
Proof. solve_decision. Defined.

(** ** Schemas *)

(** The sum of the widths of a list of field types, and the offsets the
    layout loop assigns to them when it starts at [off]. *)
Fixpoint widths (types : list type_t) : nat :=
  match types with
  | [] => 0
  | ty :: rest => TupleDesc.size_of ty + widths rest
  end.

Fixpoint offsets_from (off : nat) (types : list type_t) : list nat :=
  match types with
  | [] => []
  | ty :: rest => off :: offsets_from (off + TupleDesc.size_of ty) rest
  end.

(** A schema the constructor has returned (the default schema is the one it
    returns for two empty lists). *)
Definition constructed (td : TupleDesc.t) : Prop :=
  exists types names, TupleDesc.TupleDesc types names = Ok td.

(** The alternative a field value holds. *)
Definition field_tag (f : field_t) : type_t :=
  match f with
  | Int _ => INT
  | Double _ => DOUBLE
  | Str _ => CHAR
  end.

(** ** The byte layout of a tuple *)

(** [data] with the bytes [bs] stored at [off]. *)
Definition splice (off : nat) (bs data : list byte) : list byte :=
  take off data ++ bs ++ drop (off + length bs) data.

(** The bytes [serialize] stores for a field, and for the fields of a tuple
    one after the other. *)
Definition encode_field (f : field_t) : list byte :=
  match f with
  | Int v => bytes_of_int v
  | Double b => bytes_of_double b
  | Str s => take CHAR_SIZE s ++ replicate (CHAR_SIZE - length s) x00
  end.

Fixpoint encode_fields (fs : list field_t) : list byte :=
  match fs with
  | [] => []
  | f :: rest => encode_field f ++ encode_fields rest
  end.

(** The bytes of a text up to its first zero byte. *)
Fixpoint cstr (bs : list byte) : list byte :=
  match bs with
  | [] => []
  | b :: rest => if is_zero b then [] else b :: cstr rest
  end.

(** The field [deserialize] reads from the bytes [bs] under a type, and the
    fields it reads under a list of types. *)
Definition decode_field (ty : type_t) (bs : list byte) : field_t :=
  match ty with
  | INT => Int (int_of_bytes (take INT_SIZE bs))
  | DOUBLE => Double (double_of_bytes (take DOUBLE_SIZE bs))
  | CHAR => Str (cstr (take CHAR_SIZE bs))
  end.

Fixpoint decode_fields (types : list type_t) (bs : list byte) : list field_t :=
  match types with
  | [] => []
  | ty :: rest => decode_field ty bs :: decode_fields rest (drop (TupleDesc.size_of ty) bs)
  end.

(** What a field, and a tuple, reads back as after it was stored: a text is
    cut at its first zero byte among its first [CHAR_SIZE] bytes. *)
Definition stored_field (f : field_t) : field_t :=
  match f with
  | Int v => Int v
  | Double b => Double b
  | Str s => Str (cstr (take CHAR_SIZE s))
  end.

Definition stored (tu : Tuple.t) : Tuple.t :=
  Tuple.Tuple (stored_field <$> Tuple.fields tu).

(** ** Files *)

(** The file after one more page transfer was logged. *)
Definition logged (e : io_event) (f : DbFile.t) : DbFile.t :=
  {| DbFile.td := DbFile.td f; DbFile.pages := DbFile.pages f;
     DbFile.io := DbFile.io f ++ [e] |}.

(** Two files with the same schema and the same pages. *)
Definition same_store (f f' : DbFile.t) : Prop :=
  DbFile.td f' = DbFile.td f /\ DbFile.pages f' = DbFile.pages f.

(** Every page of the file has the size of a page (a [Page] of the code is
    an array of [DEFAULT_PAGE_SIZE] bytes). *)
Definition wf_file (f : DbFile.t) : Prop :=
  Forall (fun pg : Page => length pg = DEFAULT_PAGE_SIZE) (DbFile.pages f).

(** A page has a dead slot; a page has none. *)
Definition has_free_slot (td : TupleDesc.t) (pg : Page) : Prop :=
  exists j, j < HeapPage.capacity td /\ HeapPage.live pg j = false.
Definition page_full (td : TupleDesc.t) (pg : Page) : Prop :=
  forall j, j < HeapPage.capacity td -> HeapPage.live pg j = true.

(** The sentinel of a file. *)
Definition sentinel (f : DbFile.t) : HeapFile.Iterator :=
  {| HeapFile.page := length (DbFile.pages f); HeapFile.slot := 0 |}.

(** A slot of a file is live. *)
Definition is_live (f : DbFile.t) (it : HeapFile.Iterator) : Prop :=
  exists pg, DbFile.pages f !! HeapFile.page it = Some pg /\
             HeapFile.slot it < HeapPage.capacity (DbFile.td f) /\
             HeapPage.live pg (HeapFile.slot it) = true.

(** The order of a scan: by page, then by slot. *)
Definition locator_lt (a b : HeapFile.Iterator) : Prop :=
  HeapFile.page a < HeapFile.page b \/
  (HeapFile.page a = HeapFile.page b /\ HeapFile.slot a < HeapFile.slot b).

(** The live slots of a page from slot [s] on, in increasing order. *)
Definition live_slots_from (td : TupleDesc.t) (pg : Page) (s : nat) : list nat :=
  filter (fun j => HeapPage.live pg j = true) (seq s (HeapPage.capacity td - s)).

(** The locators of the live slots of page [p] from slot [s] on. *)
Definition page_locators (td : TupleDesc.t) (pg : Page) (p s : nat) : list HeapFile.Iterator :=
  HeapFile.Build_Iterator p <$> live_slots_from td pg s.

(** The locators of the live slots of the pages [pages], numbered from [p]. *)
Fixpoint pages_from (td : TupleDesc.t) (pages : list Page) (p : nat) : list HeapFile.Iterator :=
  match pages with
  | [] => []
  | pg :: rest => page_locators td pg p 0 ++ pages_from td rest (S p)
  end.

(** The locators of all live slots of a file: page by page, and by
    increasing slot within a page. *)
Definition live_locators (f : DbFile.t) : list HeapFile.Iterator :=
  pages_from (DbFile.td f) (DbFile.pages f) 0.

(** The locators of the live slots at or after position [(p, s)]. *)
Definition locators_after (td : TupleDesc.t) (pages : list Page) (p s : nat)
    : list HeapFile.Iterator :=
  match pages !! p with
  | Some pg => page_locators td pg p s ++ pages_from td (drop (S p) pages) (S p)
  | None => []
  end.

(** ** Concrete schemas, tuples and files *)

(** The schema (INT id, DOUBLE score, CHAR name), the tuple (-5, 1.5, "abc")
    and a buffer of 80 bytes. *)
Definition example_types : list type_t := [INT; DOUBLE; CHAR].
Definition example_names : list string := ["id"; "score"; "name"]%string.

Definition example_td : TupleDesc.t :=
  match TupleDesc.TupleDesc example_types example_names with
  | Ok td => td
  | _ => TupleDesc.default
  end.

Definition example_tuple : Tuple.t :=
  Tuple.Tuple [Int (-5); Double 4609434218613702656; Str [x61; x62; x63]].

Definition example_buffer : list byte := replicate 80 xff.

(** A tuple whose text has 65 bytes. *)
Definition long_text_tuple : Tuple.t :=
  Tuple.Tuple [Int 1; Double 0; Str (replicate 65 x61)].

(** The empty file and a file of one empty page, under the example schema. *)
Definition empty_file : DbFile.t :=
  {| DbFile.td := example_td; DbFile.pages := []; DbFile.io := [] |}.


(** A file of three pages: slots 0 and 2 of page 0 and slot 1 of page 2 are
    live, page 1 is empty. *)
Definition example_scan_file : DbFile.t :=
  {| DbFile.td := example_td;
     DbFile.pages := [<[0 := xa0]> zero_page; zero_page; <[0 := x40]> zero_page];
     DbFile.io := [] |}.

(** The schema (INT id, CHAR name) of the scenario of the specification, and
    its empty file. *)
Definition scenario_td : TupleDesc.t :=
  match TupleDesc.TupleDesc [INT; CHAR] ["id"; "name"]%string with
  | Ok td => td
  | _ => TupleDesc.default
  end.

Definition scenario_file : DbFile.t :=
  {| DbFile.td := scenario_td; DbFile.pages := []; DbFile.io := [] |}.

(** The scenario: three inserts, the page count, [begin], a scan, a lookup,
    a delete and a second scan, with the results in this order. *)
Definition scenario : prog DbFile.t
    (nat * HeapFile.Iterator * option (list HeapFile.Iterator) * Tuple.t *
     option (list HeapFile.Iterator)) :=
  let! _ := HeapFile.insertTuple (Tuple.Tuple [Int 1; Str [x61]]) in
  let! _ := HeapFile.insertTuple (Tuple.Tuple [Int 2; Str [x62; x62]]) in
  let! _ := HeapFile.insertTuple (Tuple.Tuple [Int 3; Str [x63; x63; x63]]) in
  let! n := DbFile.getNumPages in
  let! b := HeapFile.begin in
  let! visited := HeapFile.scan 3 in
  let! t := HeapFile.getTuple {| HeapFile.page := 0; HeapFile.slot := 1 |} in
  let! _ := HeapFile.deleteTuple {| HeapFile.page := 0; HeapFile.slot := 1 |} in
  let! visited' := HeapFile.scan 3 in
  pret (n, b, visited, t, visited').

(** A schema of 64 text fields, named by the characters from '!' on: its
    records take a whole page, so a page has no slot. *)
Definition wide_td : TupleDesc.t :=
  match TupleDesc.TupleDesc (replicate 64 CHAR)
          ((fun i => String (ascii_of_nat (33 + i)) EmptyString) <$> seq 0 64) with
  | Ok td => td
  | _ => TupleDesc.default
  end.

Definition wide_tuple : Tuple.t := Tuple.Tuple (replicate 64 (Str [])).

Definition wide_file : DbFile.t :=
  {| DbFile.td := wide_td; DbFile.pages := []; DbFile.io := [] |}.

(** A second schema, with no name of the example schema, and a tuple of
    it. *)
Definition extension_td : TupleDesc.t :=
  match TupleDesc.TupleDesc [DOUBLE; INT] ["weight"; "age"]%string with
  | Ok td => td
  | _ => TupleDesc.default
  end.

Definition extension_tuple : Tuple.t := Tuple.Tuple [Double 0; Int 41].

Definition merged_td : TupleDesc.t :=
  match TupleDesc.merge example_td extension_td with
  | Ok td => td
  | _ => TupleDesc.default
  end.

#[global] Instance Iterator_eq_dec : EqDecision HeapFile.Iterator.
Proof. solve_decision. Defined.

(** * Lemmas and theorems *)

(** * Schemas *)

Lemma type_eqb_eq (a b : type_t) : type_eqb a b = bool_decide (a = b).
Proof. destruct a, b; reflexivity. Qed.

Lemma vec_idx_lookup {A : Type} (v : list A) (i : nat) (x : A) :
  v !! i = Some x -> vec_idx v i = Ok x.
Proof. unfold vec_idx. intros ->. reflexivity. Qed.

Lemma vec_at_lookup {A : Type} (v : list A) (i : nat) (x : A) :
  v !! i = Some x -> vec_at v i = Ok x.
Proof. unfold vec_at. intros ->. reflexivity. Qed.

Lemma vec_set_lt {A : Type} (v : list A) (i : nat) (x : A) :
  i < length v -> vec_set v i x = Ok (<[i := x]> v).
Proof.
  unfold vec_set. intros H.
  destruct (Nat.ltb_spec i (length v)); [reflexivity | lia].
Qed.

Lemma length_offsets_from off types : length (offsets_from off types) = length types.
Proof. revert off. induction types as [|ty rest IH]; intros off; simpl; [reflexivity | by rewrite IH]. Qed.

Lemma widths_app (a b : list type_t) : widths (a ++ b) = widths a + widths b.
Proof. induction a as [|ty a IH]; simpl; [reflexivity | rewrite IH; lia]. Qed.

Lemma widths_take_S (types : list type_t) (i : nat) (ty : type_t) :
  types !! i = Some ty -> widths (take (S i) types) = widths (take i types) + TupleDesc.size_of ty.
Proof.
  intros H. rewrite (take_S_r _ _ _ H), widths_app. simpl. lia.
Qed.

Lemma lookup_offsets_from (types : list type_t) (off i : nat) :
  i < length types ->
  offsets_from off types !! i = Some (off + widths (take i types)).
Proof.
  revert off i. induction types as [|ty rest IH]; intros off i Hi; simpl in *; [lia|].
  destruct i as [|i]; simpl.
  - f_equal. lia.
  - rewrite IH by lia. f_equal. lia.
Qed.

Lemma layout_spec (types : list type_t) (names : list string) :
  length types = length names ->
  forall count i offsets off n2i,
    i + count = length types ->
    length offsets = length types ->
    exists n2i',
      TupleDesc.layout types names i count (offsets, off, n2i)
      = Ok (take i offsets ++ offsets_from off (drop i types),
            off + widths (drop i types), n2i').
Proof.
  intros Hlen. induction count as [|count IH]; intros i offsets off n2i Hi Ho.
  - exists n2i. simpl. rewrite drop_ge by lia. rewrite take_ge by lia.
    simpl. rewrite app_nil_r. by rewrite Nat.add_0_r.
  - destruct (lookup_lt_is_Some_2 types i) as [ty Hty]; [lia|].
    destruct (lookup_lt_is_Some_2 names i) as [nm Hnm]; [lia|].
    cbn [TupleDesc.layout].
    rewrite vec_set_lt by lia. cbn [obind].
    rewrite (vec_idx_lookup _ _ _ Hty), (vec_idx_lookup _ _ _ Hnm). cbn [obind].
    assert (Hi' : S i + count = length types) by lia.
    assert (Ho' : length (<[i := off]> offsets) = length types) by (by rewrite length_insert).
    destruct (IH (S i) (<[i := off]> offsets) (off + TupleDesc.size_of ty)
                (TupleDesc.emplace nm i n2i) Hi' Ho') as [m' ->].
    exists m'. f_equal. f_equal. f_equal.
    + rewrite (drop_S _ _ _ Hty). simpl.
      erewrite take_S_r; last first.
      { apply list_lookup_insert_eq. lia. }
      rewrite take_insert_ge by lia.
      by rewrite <- app_assoc.
    + rewrite (drop_S _ _ _ Hty). simpl. lia.
Qed.

(** The duplicate check accepts exactly the lists without repetition that
    avoid [seen], and throws otherwise. *)
Lemma check_names_Ok (seen : gset string) (names : list string) :
  NoDup names -> (forall n, n ∈ names -> n ∉ seen) ->
  TupleDesc.check_names seen names = Ok tt.
Proof.
  revert seen. induction names as [|n rest IH]; intros seen Hnd Hseen; simpl; [reflexivity|].
  apply NoDup_cons in Hnd as [Hn Hnd].
  assert (Hfresh : n ∉ seen) by (apply Hseen; constructor).
  rewrite (bool_decide_eq_false_2 _ Hfresh).
  apply IH; [assumption|].
  intros m Hm [Hs|Hs]%elem_of_union.
  - apply elem_of_singleton in Hs. subst m. contradiction.
  - apply (Hseen m); [by right | assumption].
Qed.

Lemma check_names_Throw (seen : gset string) (names : list string) :
  ~ (NoDup names /\ forall n, n ∈ names -> n ∉ seen) ->
  exists n, n ∈ names /\
    TupleDesc.check_names seen names
    = Throw (logic_error ("TupleDesc: duplicate field name: " +:+ n)).
Proof.
  revert seen. induction names as [|n rest IH]; intros seen Hbad; simpl.
  - exfalso. apply Hbad. split; [constructor | set_solver].
  - destruct (decide (n ∈ seen)) as [Hin|Hnin].
    + rewrite bool_decide_eq_true_2 by assumption. exists n. split; [left | reflexivity].
    + rewrite bool_decide_eq_false_2 by assumption.
      destruct (IH ({[n]} ∪ seen)) as (m & Hm & ->).
      * intros [Hnd Hseen]. apply Hbad. split.
        -- apply NoDup_cons. split; [|assumption]. intros Hn. apply (Hseen n Hn). set_solver.
        -- intros m [->|Hm]%elem_of_cons; [assumption|].
           specialize (Hseen m Hm). set_solver.
      * exists m. split; [by right | reflexivity].
Qed.


(** What a successful construction stores. *)
Lemma TupleDesc_Ok (types : list type_t) (names : list string) :
  length types = length names -> NoDup names ->
  exists n2i,
    TupleDesc.TupleDesc types names
    = Ok {| TupleDesc.types_ := types; TupleDesc.names_ := names;
            TupleDesc.offsets_ := offsets_from 0 types;
            TupleDesc.length_ := widths types; TupleDesc.name2idx_ := n2i |}.
Proof.
  intros Hlen Hnd. unfold TupleDesc.TupleDesc.
  rewrite (proj2 (Nat.eqb_eq _ _) Hlen). simpl negb. cbv iota.
  rewrite check_names_Ok by (assumption || set_solver). cbn [obind].
  destruct (layout_spec types names Hlen (length types) 0
              (replicate (length types) 0) 0 ∅) as [n2i ->];
    [lia | apply length_replicate |].
  exists n2i. reflexivity.
Qed.

Lemma TupleDesc_inv (types : list type_t) (names : list string) (td : TupleDesc.t) :
  TupleDesc.TupleDesc types names = Ok td ->
  length types = length names /\ NoDup names /\
  TupleDesc.types_ td = types /\ TupleDesc.names_ td = names /\
  TupleDesc.offsets_ td = offsets_from 0 types /\
  TupleDesc.length_ td = widths types.
Proof.
  intros H.
  destruct (decide (length types = length names)) as [Hlen|Hlen].
  - destruct (decide (NoDup names)) as [Hnd|Hnd].
    + destruct (TupleDesc_Ok types names Hlen Hnd) as [n2i Heq].
      rewrite Heq in H. injection H as <-. simpl. tauto.
    + exfalso. unfold TupleDesc.TupleDesc in H.
      rewrite (proj2 (Nat.eqb_eq _ _) Hlen) in H. simpl in H.
      destruct (check_names_Throw ∅ names) as (n & _ & Hn); [tauto|].
      rewrite Hn in H. discriminate.
  - exfalso. unfold TupleDesc.TupleDesc in H.
    rewrite (proj2 (Nat.eqb_neq _ _) Hlen) in H. discriminate.
Qed.

Lemma constructed_layout (td : TupleDesc.t) :
  constructed td ->
  length (TupleDesc.names_ td) = length (TupleDesc.types_ td) /\
  NoDup (TupleDesc.names_ td) /\
  TupleDesc.offsets_ td = offsets_from 0 (TupleDesc.types_ td) /\
  TupleDesc.length_ td = widths (TupleDesc.types_ td).
Proof.
  intros (types & names & H). apply TupleDesc_inv in H.
  destruct H as (? & ? & -> & -> & ? & ?). auto.
Qed.

Lemma constructed_default : constructed TupleDesc.default.
Proof. exists [], []. reflexivity. Qed.

(** * Compatibility *)

Lemma field_type_lookup (tu : Tuple.t) (i : nat) (f : field_t) :
  Tuple.fields tu !! i = Some f -> Tuple.field_type tu i = Ok (field_tag f).
Proof.
  intros H. unfold Tuple.field_type. rewrite (vec_at_lookup _ _ _ H).
  destruct f; reflexivity.
Qed.

Lemma compatible_loop_spec (td : TupleDesc.t) (tu : Tuple.t) :
  length (Tuple.fields tu) = length (TupleDesc.types_ td) ->
  forall count i,
    i + count = length (TupleDesc.types_ td) ->
    TupleDesc.compatible_loop td tu i count
    = Ok (bool_decide (drop i (field_tag <$> Tuple.fields tu) = drop i (TupleDesc.types_ td))).
Proof.
  intros Hlen. induction count as [|count IH]; intros i Hi.
  - simpl. rewrite !drop_ge by (rewrite ?length_fmap; lia). reflexivity.
  - destruct (lookup_lt_is_Some_2 (Tuple.fields tu) i) as [f Hf]; [lia|].
    destruct (lookup_lt_is_Some_2 (TupleDesc.types_ td) i) as [ty Hty]; [lia|].
    cbn [TupleDesc.compatible_loop].
    rewrite (field_type_lookup _ _ _ Hf), (vec_idx_lookup _ _ _ Hty). cbn [obind].
    assert (Hf' : (field_tag <$> Tuple.fields tu) !! i = Some (field_tag f))
      by (by rewrite list_lookup_fmap, Hf).
    rewrite (drop_S _ _ _ Hf'), (drop_S _ _ _ Hty).
    rewrite type_eqb_eq. destruct (decide (field_tag f = ty)) as [->|Hne].
    + rewrite bool_decide_eq_true_2 by reflexivity.
      rewrite IH by lia. f_equal. apply bool_decide_ext.
      split; [intros ->; reflexivity | intros [= ->]; reflexivity].
    + rewrite bool_decide_eq_false_2 by assumption.
      f_equal. symmetry. apply bool_decide_eq_false_2. intros [= ? _]. contradiction.
Qed.

(** [compatible] never throws: it decides whether the alternatives of the
    tuple's fields are the declared types, position by position. *)
Lemma compatible_spec (td : TupleDesc.t) (tu : Tuple.t) :
  TupleDesc.compatible td tu
  = Ok (bool_decide (field_tag <$> Tuple.fields tu = TupleDesc.types_ td)).
Proof.
  unfold TupleDesc.compatible, Tuple.size.
  destruct (Nat.eqb_spec (length (Tuple.fields tu)) (length (TupleDesc.types_ td))) as [Hlen|Hlen];
    simpl negb; cbv iota.
  - rewrite (compatible_loop_spec td tu Hlen) by lia. reflexivity.
  - f_equal. symmetry. apply bool_decide_eq_false_2.
    intros H. apply Hlen. rewrite <- H. by rewrite length_fmap.
Qed.

Lemma compatible_true (td : TupleDesc.t) (tu : Tuple.t) :
  TupleDesc.compatible td tu = Ok true <->
  field_tag <$> Tuple.fields tu = TupleDesc.types_ td.
Proof.
  rewrite compatible_spec. split.
  - intros [= H]. by apply bool_decide_eq_true in H.
  - intros H. by rewrite bool_decide_eq_true_2.
Qed.


(** * Raw memory *)

Lemma mem_write_Ok (off : nat) (bs data : list byte) :
  off + length bs <= length data ->
  mem_write off bs data = (Ok tt, splice off bs data).
Proof.
  intros H. unfold mem_write.
  destruct (Nat.leb_spec (off + length bs) (length data)); [reflexivity | lia].
Qed.


Lemma mem_read_Ok (data : list byte) (off n : nat) :
  off + n <= length data -> mem_read data off n = Ok (take n (drop off data)).
Proof.
  intros H. unfold mem_read.
  destruct (Nat.leb_spec (off + n) (length data)); [reflexivity | lia].
Qed.

Lemma length_splice (off : nat) (bs data : list byte) :
  off + length bs <= length data -> length (splice off bs data) = length data.
Proof.
  intros H. unfold splice. rewrite !length_app, length_take, length_drop. lia.
Qed.

Lemma splice_nil (off : nat) (data : list byte) : splice off [] data = data.
Proof. unfold splice. simpl. rewrite Nat.add_0_r. apply take_drop. Qed.

Lemma splice_0 (bs data : list byte) : splice 0 bs data = bs ++ drop (length bs) data.
Proof. reflexivity. Qed.

Lemma splice_adjacent (off : nat) (b1 b2 data : list byte) :
  off + length b1 + length b2 <= length data ->
  splice (off + length b1) b2 (splice off b1 data) = splice off (b1 ++ b2) data.
Proof.
  intros H. unfold splice.
  assert (Hl : length (take off data ++ b1) = off + length b1)
    by (rewrite length_app, length_take; lia).
  rewrite (app_assoc (take off data) b1).
  rewrite take_app_length' by (by rewrite Hl).
  rewrite drop_app_ge by (rewrite Hl; lia).
  rewrite Hl, drop_drop, length_app, <- !app_assoc.
  do 4 f_equal. lia.
Qed.

(** * Encoding and decoding of one field *)

Lemma length_encode_field (f : field_t) :
  length (encode_field f) = TupleDesc.size_of (field_tag f).
Proof.
  destruct f as [v|b|s]; cbn [encode_field field_tag TupleDesc.size_of].
  - apply length_le_split.
  - apply length_le_split.
  - rewrite length_app, length_take, length_replicate. lia.
Qed.

Lemma length_encode_fields (fs : list field_t) :
  length (encode_fields fs) = widths (field_tag <$> fs).
Proof.
  induction fs as [|f rest IH]; simpl; [reflexivity|].
  by rewrite length_app, length_encode_field, IH.
Qed.

Lemma is_zero_true (b : byte) : is_zero b = true <-> b = x00.
Proof.
  unfold is_zero. split; [apply Byte.byte_dec_bl | apply Byte.byte_dec_lb].
Qed.

Lemma is_zero_false (b : byte) : is_zero b = false <-> b ≠ x00.
Proof.
  split.
  - intros H Hb. apply is_zero_true in Hb. congruence.
  - intros H. destruct (is_zero b) eqn:E; [|reflexivity].
    apply is_zero_true in E. contradiction.
Qed.

Lemma cstr_zeros (n : nat) : cstr (replicate n x00) = [].
Proof. destruct n; reflexivity. Qed.

Lemma cstr_app_zeros (bs : list byte) (n : nat) :
  cstr (bs ++ replicate n x00) = cstr bs.
Proof.
  induction bs as [|b rest IH]; simpl; [apply cstr_zeros|].
  destruct (is_zero b); [reflexivity | by rewrite IH].
Qed.

Lemma length_cstr (bs : list byte) : length (cstr bs) <= length bs.
Proof.
  induction bs as [|b rest IH]; simpl; [lia|].
  destruct (is_zero b); simpl; lia.
Qed.

Lemma cstr_no_zero (bs : list byte) : x00 ∉ cstr bs.
Proof.
  induction bs as [|b rest IH]; simpl; [apply not_elem_of_nil|].
  destruct (is_zero b) eqn:E; [apply not_elem_of_nil|].
  apply is_zero_false in E. intros [Hb|H]%elem_of_cons; [congruence | contradiction].
Qed.

Lemma cstr_id (bs : list byte) : cstr bs = bs <-> x00 ∉ bs.
Proof.
  split.
  - intros <-. apply cstr_no_zero.
  - induction bs as [|b rest IH]; intros H; simpl; [reflexivity|].
    apply not_elem_of_cons in H as [Hb Hrest].
    rewrite (proj2 (is_zero_false b)) by congruence.
    by rewrite IH.
Qed.

(** The text a stored text field reads back as, and when it is the text
    that was stored. *)
Lemma cstr_take_id (s : list byte) :
  cstr (take CHAR_SIZE s) = s <-> length s <= CHAR_SIZE /\ x00 ∉ s.
Proof.
  split.
  - intros H.
    assert (Hlen : length s <= CHAR_SIZE).
    { rewrite <- H at 1. etrans; [apply length_cstr|]. rewrite length_take. lia. }
    split; [assumption|]. rewrite take_ge in H by assumption. by apply cstr_id.
  - intros [Hlen Hz]. rewrite take_ge by assumption. by apply cstr_id.
Qed.

Lemma cstr_take_prefix (bs : list byte) (n : nat) :
  take (length (cstr (take n bs))) bs = cstr (take n bs).
Proof.
  revert n. induction bs as [|b rest IH]; intros n.
  - destruct n; reflexivity.
  - destruct n as [|n]; simpl; [reflexivity|].
    destruct (is_zero b); simpl; [reflexivity | by rewrite IH].
Qed.

Lemma int_of_bytes_of_int (v : Z) : int_range v -> int_of_bytes (bytes_of_int v) = v.
Proof.
  unfold int_range, int_of_bytes, bytes_of_int, INT_SIZE. intros H.
  rewrite le_combine_split. change (Z.of_nat 4 * 8)%Z with 32%Z.
  destruct (Z.ltb_spec (v mod 2 ^ 32) (2 ^ 31)) as [Hlt|Hge].
  - apply Z.mod_small. split; [|lia].
    destruct (Z.lt_ge_cases v 0) as [Hneg|]; [|assumption].
    exfalso. assert (v mod 2 ^ 32 = v + 2 ^ 32)%Z; [|lia].
    symmetry. apply (Z.mod_unique v (2 ^ 32) (-1)); lia.
  - destruct (Z.lt_ge_cases v 0) as [Hneg|Hpos].
    + assert (v mod 2 ^ 32 = v + 2 ^ 32)%Z; [|lia].
      symmetry. apply (Z.mod_unique v (2 ^ 32) (-1)); lia.
    + rewrite Z.mod_small in Hge by lia. lia.
Qed.

Lemma double_of_bytes_of_double (b : Z) :
  double_range b -> double_of_bytes (bytes_of_double b) = b.
Proof.
  unfold double_range, double_of_bytes, bytes_of_double, DOUBLE_SIZE. intros H.
  rewrite le_combine_split. change (Z.of_nat 8 * 8)%Z with 64%Z.
  apply Z.mod_small. assumption.
Qed.

Lemma decode_encode_field (f : field_t) (rest : list byte) :
  field_wf f ->
  decode_field (field_tag f) (encode_field f ++ rest) = stored_field f.
Proof.
  destruct f as [v|b|s]; intros Hwf;
    cbn [decode_field field_tag encode_field stored_field field_wf] in *.
  - rewrite take_app_length' by (symmetry; apply length_le_split).
    by rewrite int_of_bytes_of_int.
  - rewrite take_app_length' by (symmetry; apply length_le_split).
    by rewrite double_of_bytes_of_double.
  - rewrite take_app_length'.
    + by rewrite cstr_app_zeros.
    + rewrite length_app, length_take, length_replicate. lia.
Qed.

Lemma decode_encode_fields (fs : list field_t) (rest : list byte) :
  Forall field_wf fs ->
  decode_fields (field_tag <$> fs) (encode_fields fs ++ rest) = stored_field <$> fs.
Proof.
  induction 1 as [|f fs Hf Hfs IH]; simpl; [reflexivity|].
  rewrite <- app_assoc. rewrite decode_encode_field by assumption. f_equal.
  rewrite drop_app_length' by (symmetry; apply length_encode_field).
  exact IH.
Qed.

(** * The loops of [serialize] and [deserialize] *)

Lemma serialize_field_Ok (tu : Tuple.t) (i : nat) (f : field_t) (off : nat) (data : list byte) :
  Tuple.fields tu !! i = Some f ->
  off + TupleDesc.size_of (field_tag f) <= length data ->
  TupleDesc.serialize_field (field_tag f) tu i off data
  = (Ok tt, splice off (encode_field f) data).
Proof.
  intros Hf Hlen.
  destruct f as [v|b|s];
    cbn [field_tag TupleDesc.serialize_field TupleDesc.size_of encode_field] in *;
    unfold pbind, plift, Tuple.get_field; rewrite (vec_at_lookup _ _ _ Hf);
    cbn [obind get_int get_double get_string].
  - apply mem_write_Ok. unfold bytes_of_int. by rewrite length_le_split.
  - apply mem_write_Ok. unfold bytes_of_double. by rewrite length_le_split.
  - destruct (Nat.ltb_spec CHAR_SIZE (length s)) as [Hlong|Hshort].
    + rewrite mem_write_Ok by (rewrite length_take; lia).
      rewrite Nat.ltb_irrefl.
      replace (CHAR_SIZE - length s) with 0 by lia.
      simpl replicate. by rewrite app_nil_r.
    + rewrite (take_ge s (length s)) by lia.
      rewrite (take_ge s CHAR_SIZE) by lia.
      rewrite mem_write_Ok by lia.
      destruct (Nat.ltb_spec (length s) CHAR_SIZE) as [Hlt|Hge].
      * rewrite mem_write_Ok by (rewrite length_replicate, length_splice; lia).
        rewrite splice_adjacent by (rewrite length_replicate; lia).
        reflexivity.
      * replace (CHAR_SIZE - length s) with 0 by lia.
        simpl replicate. by rewrite app_nil_r.
Qed.

Section Codec.

Variable td : TupleDesc.t.
Hypothesis td_offsets : TupleDesc.offsets_ td = offsets_from 0 (TupleDesc.types_ td).
Hypothesis td_length : TupleDesc.length_ td = widths (TupleDesc.types_ td).

Lemma offsets_lookup (i : nat) (ty : type_t) :
  TupleDesc.types_ td !! i = Some ty ->
  TupleDesc.offsets_ td !! i = Some (widths (take i (TupleDesc.types_ td))).
Proof.
  intros H. rewrite td_offsets, lookup_offsets_from; [reflexivity|].
  by apply lookup_lt_Some in H.
Qed.

Lemma widths_take_drop (i : nat) :
  widths (take i (TupleDesc.types_ td)) + widths (drop i (TupleDesc.types_ td))
  = widths (TupleDesc.types_ td).
Proof. by rewrite <- widths_app, take_drop. Qed.

Lemma serialize_loop_Ok (tu : Tuple.t) (data : list byte) :
  field_tag <$> Tuple.fields tu = TupleDesc.types_ td ->
  widths (TupleDesc.types_ td) <= length data ->
  forall count i,
    i + count = length (TupleDesc.types_ td) ->
    TupleDesc.serialize_loop td tu i count data
    = (Ok tt, splice (widths (take i (TupleDesc.types_ td)))
                     (encode_fields (drop i (Tuple.fields tu))) data).
Proof.
  intros Htags Hlen count. revert data Hlen.
  induction count as [|count IH]; intros data Hlen i Hi.
  - assert (Hfl : length (Tuple.fields tu) = length (TupleDesc.types_ td))
      by (by rewrite <- Htags, length_fmap).
    rewrite drop_ge by lia. simpl. by rewrite splice_nil.
  - destruct (lookup_lt_is_Some_2 (TupleDesc.types_ td) i) as [ty Hty]; [lia|].
    assert (Hfi : exists f, Tuple.fields tu !! i = Some f /\ field_tag f = ty).
    { rewrite <- Htags, list_lookup_fmap in Hty.
      destruct (Tuple.fields tu !! i) as [f|]; [|discriminate].
      exists f. split; [reflexivity | by injection Hty]. }
    destruct Hfi as (f & Hf & Htag).
    pose proof (widths_take_drop i) as Hsum.
    rewrite (drop_S _ _ _ Hty) in Hsum. simpl in Hsum.
    cbn [TupleDesc.serialize_loop]. unfold pbind at 1, plift at 1.
    rewrite (vec_idx_lookup _ _ _ (offsets_lookup i ty Hty)).
    unfold pbind at 1, plift at 1. rewrite (vec_idx_lookup _ _ _ Hty).
    unfold pbind at 1. rewrite <- Htag.
    rewrite (serialize_field_Ok tu i f _ data Hf) by (rewrite Htag; lia).
    rewrite IH; [| rewrite length_splice; rewrite ?length_encode_field, ?Htag; lia | lia].
    f_equal. rewrite (drop_S _ _ _ Hf). simpl encode_fields.
    rewrite (widths_take_S _ _ _ Hty), <- Htag, <- length_encode_field.
    apply splice_adjacent.
    rewrite length_encode_field, length_encode_fields, Htag.
    assert (Hd : field_tag <$> drop (S i) (Tuple.fields tu) = drop (S i) (TupleDesc.types_ td))
      by (by rewrite fmap_drop, Htags).
    rewrite Hd. lia.
Qed.

Lemma cstr_len_Ok (data : list byte) (off : nat) :
  forall left len,
    off + len + left <= length data ->
    TupleDesc.cstr_len data off len left
    = Ok (len + length (cstr (take left (drop (off + len) data)))).
Proof.
  induction left as [|left IH]; intros len Hlen; simpl.
  - by rewrite Nat.add_0_r.
  - destruct (lookup_lt_is_Some_2 data (off + len)) as [c Hc]; [lia|].
    rewrite (vec_idx_lookup _ _ _ Hc). cbn [obind].
    rewrite (drop_S _ _ _ Hc). simpl.
    destruct (is_zero c); simpl.
    + by rewrite Nat.add_0_r.
    + rewrite IH by lia. f_equal.
      replace (off + S len) with (S (off + len)) by lia. lia.
Qed.

Lemma deserialize_field_Ok (ty : type_t) (data : list byte) (off : nat) :
  off + TupleDesc.size_of ty <= length data ->
  TupleDesc.deserialize_field ty data off = Ok (decode_field ty (drop off data)).
Proof.
  intros Hlen. destruct ty; cbn [TupleDesc.deserialize_field decode_field TupleDesc.size_of] in *.
  - by rewrite mem_read_Ok.
  - by rewrite mem_read_Ok.
  - rewrite cstr_len_Ok by lia. cbn [obind]. rewrite Nat.add_0_r. simpl Nat.add.
    by rewrite cstr_take_prefix.
Qed.

Lemma deserialize_loop_Ok (data : list byte) :
  widths (TupleDesc.types_ td) <= length data ->
  forall count i out,
    i + count = length (TupleDesc.types_ td) ->
    TupleDesc.deserialize_loop td data i count out
    = Ok (out ++ decode_fields (drop i (TupleDesc.types_ td))
                               (drop (widths (take i (TupleDesc.types_ td))) data)).
Proof.
  intros Hlen. induction count as [|count IH]; intros i out Hi.
  - rewrite drop_ge by lia. simpl. by rewrite app_nil_r.
  - destruct (lookup_lt_is_Some_2 (TupleDesc.types_ td) i) as [ty Hty]; [lia|].
    pose proof (widths_take_drop i) as Hsum.
    rewrite (drop_S _ _ _ Hty) in Hsum. simpl in Hsum.
    cbn [TupleDesc.deserialize_loop].
    rewrite (vec_idx_lookup _ _ _ (offsets_lookup i ty Hty)). cbn [obind].
    rewrite (vec_idx_lookup _ _ _ Hty). cbn [obind].
    rewrite deserialize_field_Ok by lia. cbn [obind].
    rewrite IH by lia. f_equal. rewrite <- app_assoc. f_equal.
    rewrite (drop_S _ _ _ Hty). simpl decode_fields. f_equal.
    rewrite (widths_take_S _ _ _ Hty), drop_drop. reflexivity.
Qed.

(** [serialize] of a compatible tuple stores the encoded fields one after
    the other at the start of the buffer and changes nothing else. *)
Lemma serialize_Ok (tu : Tuple.t) (data : list byte) :
  field_tag <$> Tuple.fields tu = TupleDesc.types_ td ->
  TupleDesc.length td <= length data ->
  TupleDesc.serialize td tu data
  = (Ok tt, encode_fields (Tuple.fields tu) ++ drop (TupleDesc.length td) data).
Proof.
  intros Htags Hlen. unfold TupleDesc.length in *. rewrite td_length in *.
  unfold TupleDesc.serialize, pbind, plift.
  rewrite (proj2 (compatible_true td tu) Htags). cbn [negb].
  rewrite (serialize_loop_Ok tu data Htags Hlen) by lia.
  rewrite take_0, drop_0. simpl widths. rewrite splice_0.
  by rewrite length_encode_fields, Htags.
Qed.

(** [deserialize] decodes the fields one after the other from the start of
    the buffer. *)
Lemma deserialize_Ok (data : list byte) :
  TupleDesc.length td <= length data ->
  TupleDesc.deserialize td data
  = Ok (Tuple.Tuple (decode_fields (TupleDesc.types_ td) data)).
Proof.
  intros Hlen. unfold TupleDesc.length in *. rewrite td_length in *.
  unfold TupleDesc.deserialize.
  rewrite (deserialize_loop_Ok data Hlen) by lia. reflexivity.
Qed.

End Codec.

(** * Merging schemas *)

Lemma merge_push_Ok (td : TupleDesc.t) :
  length (TupleDesc.names_ td) = length (TupleDesc.types_ td) ->
  forall count i acc,
    i + count = length (TupleDesc.types_ td) ->
    TupleDesc.merge_push td i count acc
    = Ok (fst acc ++ drop i (TupleDesc.types_ td), snd acc ++ drop i (TupleDesc.names_ td)).
Proof.
  intros Hlen. induction count as [|count IH]; intros i [tys nms] Hi.
  - simpl. rewrite !drop_ge by lia. by rewrite !app_nil_r.
  - destruct (lookup_lt_is_Some_2 (TupleDesc.types_ td) i) as [ty Hty]; [lia|].
    destruct (lookup_lt_is_Some_2 (TupleDesc.names_ td) i) as [nm Hnm]; [lia|].
    cbn [TupleDesc.merge_push].
    rewrite (vec_idx_lookup _ _ _ Hty), (vec_idx_lookup _ _ _ Hnm). cbn [obind].
    rewrite IH by lia. cbn [fst snd].
    rewrite (drop_S _ _ _ Hty), (drop_S _ _ _ Hnm).
    by rewrite <- !app_assoc.
Qed.

(** [merge] constructs the schema of the concatenated lists. *)
Lemma merge_spec (td1 td2 : TupleDesc.t) :
  constructed td1 -> constructed td2 ->
  TupleDesc.merge td1 td2
  = TupleDesc.TupleDesc (TupleDesc.types_ td1 ++ TupleDesc.types_ td2)
                        (TupleDesc.names_ td1 ++ TupleDesc.names_ td2).
Proof.
  intros H1 H2.
  destruct (constructed_layout td1 H1) as (Hl1 & _).
  destruct (constructed_layout td2 H2) as (Hl2 & _).
  unfold TupleDesc.merge, TupleDesc.size.
  rewrite (merge_push_Ok td1 Hl1) by lia. cbn [obind fst snd].
  rewrite (merge_push_Ok td2 Hl2) by lia. cbn [obind fst snd].
  by rewrite !drop_0.
Qed.

(** * The example schema and tuple *)

Lemma example_td_constructed : constructed example_td.
Proof. exists example_types, example_names. vm_compute. reflexivity. Qed.

Lemma example_tuple_wf : Tuple.wf example_tuple.
Proof.
  repeat constructor; unfold int_range, double_range; lia.
Qed.

(** * The schema claims *)

(** C6: in a schema the constructor has returned, the width of a field is a
    function of its type alone (INT 4, DOUBLE 8, CHAR 64), [offset_of i] is
    the sum of the widths of the fields before [i], and [length] is the sum
    of the widths of all fields. *)
Theorem C6_layout (types : list type_t) (names : list string) (td : TupleDesc.t) :
  TupleDesc.TupleDesc types names = Ok td ->
  (TupleDesc.size_of INT = 4 /\ TupleDesc.size_of DOUBLE = 8 /\ TupleDesc.size_of CHAR = 64) /\
  (forall i, i < TupleDesc.size td ->
     TupleDesc.offset_of td i = Ok (widths (take i (TupleDesc.types_ td)))) /\
  TupleDesc.length td = widths (TupleDesc.types_ td).
Proof.
  intros H. apply TupleDesc_inv in H as (Hlen & _ & Hty & _ & Hoff & Hl).
  split; [by repeat split|]. split.
  - intros i Hi. unfold TupleDesc.size in Hi. unfold TupleDesc.offset_of.
    rewrite Hoff, length_offsets_from, <- Hty.
    destruct (Nat.leb_spec (length (TupleDesc.types_ td)) i); [lia|].
    apply vec_idx_lookup. by apply lookup_offsets_from.
  - unfold TupleDesc.length. by rewrite Hl, Hty.
Qed.

(** The layout of the example schema. *)
Lemma C6_layout_witness :
  (TupleDesc.size_of INT = 4 /\ TupleDesc.size_of DOUBLE = 8 /\ TupleDesc.size_of CHAR = 64) /\
  (forall i, i < TupleDesc.size example_td ->
     TupleDesc.offset_of example_td i = Ok (widths (take i (TupleDesc.types_ example_td)))) /\
  TupleDesc.length example_td = widths (TupleDesc.types_ example_td).
Proof.
  apply (C6_layout example_types example_names example_td).
  vm_compute. reflexivity.
Defined.

(** C5: the constructor throws when the two lists differ in length and when
    a name repeats; [merge] throws when a name of the first schema is a name
    of the second; when no name is shared, [merge] returns the schema whose
    fields are those of the first followed by those of the second, so its
    size is the sum of the two sizes. *)
Theorem C5_unique_names :
  (forall types names,
     length types ≠ length names ->
     TupleDesc.TupleDesc types names
     = Throw (logic_error "TupleDesc: types and names must have same length")) /\
  (forall types names,
     ~ NoDup names -> exists e, TupleDesc.TupleDesc types names = Throw (logic_error e)) /\
  (forall td1 td2 n,
     constructed td1 -> constructed td2 ->
     n ∈ TupleDesc.names_ td1 -> n ∈ TupleDesc.names_ td2 ->
     exists e, TupleDesc.merge td1 td2 = Throw (logic_error e)) /\
  (forall td1 td2,
     constructed td1 -> constructed td2 ->
     (forall n, n ∈ TupleDesc.names_ td1 -> n ∉ TupleDesc.names_ td2) ->
     exists td,
       TupleDesc.merge td1 td2 = Ok td /\
       TupleDesc.size td = TupleDesc.size td1 + TupleDesc.size td2 /\
       TupleDesc.types_ td = TupleDesc.types_ td1 ++ TupleDesc.types_ td2 /\
       TupleDesc.names_ td = TupleDesc.names_ td1 ++ TupleDesc.names_ td2).
Proof.
  assert (Hdup : forall types names,
            ~ NoDup names -> exists e, TupleDesc.TupleDesc types names = Throw (logic_error e)).
  { intros types names Hnd. unfold TupleDesc.TupleDesc.
    destruct (Nat.eqb_spec (length types) (length names)) as [Hlen|Hlen]; cbn [negb].
    - destruct (check_names_Throw ∅ names) as (n & _ & Hn); [tauto|].
      rewrite Hn. cbn [obind]. eauto.
    - eauto. }
  split; [|split; [exact Hdup | split]].
  - intros types names Hlen. unfold TupleDesc.TupleDesc.
    by rewrite (proj2 (Nat.eqb_neq _ _) Hlen).
  - intros td1 td2 n H1 H2 Hn1 Hn2. rewrite merge_spec by assumption.
    apply Hdup. intros Hnd. apply NoDup_app in Hnd as (_ & Hdisj & _).
    exact (Hdisj n Hn1 Hn2).
  - intros td1 td2 H1 H2 Hdisj. rewrite merge_spec by assumption.
    destruct (constructed_layout td1 H1) as (Hl1 & Hnd1 & _).
    destruct (constructed_layout td2 H2) as (Hl2 & Hnd2 & _).
    destruct (TupleDesc_Ok (TupleDesc.types_ td1 ++ TupleDesc.types_ td2)
                (TupleDesc.names_ td1 ++ TupleDesc.names_ td2)) as [n2i Heq].
    + rewrite !length_app. lia.
    + apply NoDup_app. auto.
    + rewrite Heq. eexists. split; [reflexivity|].
      unfold TupleDesc.size. cbn [TupleDesc.types_ TupleDesc.names_].
      by rewrite length_app.
Qed.

(** Two lists of different lengths, a repeated name, a schema merged with
    itself, and a schema merged with the empty schema. *)
Lemma C5_unique_names_witness :
  TupleDesc.TupleDesc [INT; CHAR] ["id"]%string
  = Throw (logic_error "TupleDesc: types and names must have same length") /\
  (exists e, TupleDesc.TupleDesc [INT; CHAR] ["id"; "id"]%string = Throw (logic_error e)) /\
  (exists e, TupleDesc.merge example_td example_td = Throw (logic_error e)) /\
  (exists td, TupleDesc.merge example_td TupleDesc.default = Ok td /\
              TupleDesc.size td = TupleDesc.size example_td + TupleDesc.size TupleDesc.default /\
              TupleDesc.types_ td = TupleDesc.types_ example_td ++ TupleDesc.types_ TupleDesc.default /\
              TupleDesc.names_ td = TupleDesc.names_ example_td ++ TupleDesc.names_ TupleDesc.default).
Proof.
  destruct C5_unique_names as (Hlen & Hdup & Hcoll & Hdisj).
  split; [|split; [|split]].
  - apply Hlen. simpl. lia.
  - apply Hdup. intros Hnd. apply NoDup_cons in Hnd as [Hn _]. apply Hn. left.
  - apply (Hcoll example_td example_td "id"%string);
      try exact example_td_constructed; vm_compute; left.
  - apply Hdisj; [exact example_td_constructed | exact constructed_default |].
    intros n _. apply not_elem_of_nil.
Defined.

(** * The codec claims *)

Lemma serialize_incompatible (td : TupleDesc.t) (tu : Tuple.t) (data : list byte) :
  TupleDesc.compatible td tu = Ok false ->
  TupleDesc.serialize td tu data
  = (Throw (logic_error "TupleDesc::serialize: tuple incompatible with schema"), data).
Proof.
  intros H. unfold TupleDesc.serialize, pbind, plift. rewrite H. reflexivity.
Qed.

(** C4: [compatible] returns a boolean and never throws; [serialize]
    succeeds exactly when [compatible] returns true; when [compatible]
    returns false, [serialize] throws and the buffer is left as it was. *)
Theorem C4_serialize_iff_compatible (td : TupleDesc.t) (tu : Tuple.t) (data : list byte) :
  constructed td ->
  TupleDesc.length td <= length data ->
  (exists b, TupleDesc.compatible td tu = Ok b) /\
  ((exists data', TupleDesc.serialize td tu data = (Ok tt, data'))
   <-> TupleDesc.compatible td tu = Ok true) /\
  (TupleDesc.compatible td tu = Ok false ->
   TupleDesc.serialize td tu data
   = (Throw (logic_error "TupleDesc::serialize: tuple incompatible with schema"), data)).
Proof.
  intros Hc Hlen. destruct (constructed_layout td Hc) as (_ & _ & Hoff & Hl).
  split; [rewrite compatible_spec; eauto|]. split; [|apply serialize_incompatible].
  split.
  - intros [data' Hs]. rewrite compatible_spec. f_equal.
    destruct (bool_decide _) eqn:E; [reflexivity|].
    rewrite serialize_incompatible in Hs by (by rewrite compatible_spec, E).
    discriminate.
  - intros Ht. apply compatible_true in Ht.
    rewrite (serialize_Ok td Hoff Hl tu data Ht Hlen). eauto.
Qed.

(** The example tuple under the example schema. *)
Lemma C4_serialize_iff_compatible_witness :
  (exists b, TupleDesc.compatible example_td example_tuple = Ok b) /\
  ((exists data', TupleDesc.serialize example_td example_tuple example_buffer = (Ok tt, data'))
   <-> TupleDesc.compatible example_td example_tuple = Ok true) /\
  (TupleDesc.compatible example_td example_tuple = Ok false ->
   TupleDesc.serialize example_td example_tuple example_buffer
   = (Throw (logic_error "TupleDesc::serialize: tuple incompatible with schema"),
      example_buffer)).
Proof.
  apply (C4_serialize_iff_compatible example_td example_tuple example_buffer).
  - exact example_td_constructed.
  - vm_compute. lia.
Defined.

(** C3, as the claim states it, fails: a text that holds a zero byte among
    its first 64 bytes does not read back as its first 64 bytes.  The text
    "a\0b" reads back as "a"; and so does the text "a\0", which has two
    bytes and no zero byte in its interior. *)
Lemma C3_text_with_zero_byte :
  let td := {| TupleDesc.types_ := [CHAR]; TupleDesc.names_ := ["name"%string];
               TupleDesc.offsets_ := [0]; TupleDesc.length_ := 64;
               TupleDesc.name2idx_ := {["name"%string := 0]} |} in
  let data := replicate 64 xff in
  TupleDesc.TupleDesc [CHAR] ["name"%string] = Ok td /\
  (let s := [x61; x00; x62] in
   let r := Tuple.Tuple [Str s] in
   TupleDesc.compatible td r = Ok true /\
   fst (TupleDesc.serialize td r data) = Ok tt /\
   TupleDesc.deserialize td (snd (TupleDesc.serialize td r data))
   = Ok (Tuple.Tuple [Str [x61]]) /\
   [x61] ≠ take CHAR_SIZE s) /\
  (let s := [x61; x00] in
   let r := Tuple.Tuple [Str s] in
   TupleDesc.compatible td r = Ok true /\
   fst (TupleDesc.serialize td r data) = Ok tt /\
   TupleDesc.deserialize td (snd (TupleDesc.serialize td r data))
   = Ok (Tuple.Tuple [Str [x61]]) /\
   length s <= CHAR_SIZE /\ [x61] ≠ s).
Proof.
  cbv zeta. split; [vm_compute; reflexivity|].
  split; (split; [vm_compute; reflexivity|]); (split; [vm_compute; reflexivity|]);
    (split; [vm_compute; reflexivity|]).
  - discriminate.
  - split; [unfold CHAR_SIZE; simpl; lia | discriminate].
Qed.

(** C3, amended: storing a compatible tuple and reading it back gives every
    int and double field exactly, and every text field cut at its first zero
    byte among the first 64 bytes, or after 64 bytes when there is none; the
    text read back is the text stored exactly when that text has at most 64
    bytes and no zero byte. *)
Theorem C3_roundtrip (td : TupleDesc.t) (tu : Tuple.t) (data : list byte) :
  constructed td ->
  TupleDesc.compatible td tu = Ok true ->
  Tuple.wf tu ->
  TupleDesc.length td <= length data ->
  exists data' tu',
    TupleDesc.serialize td tu data = (Ok tt, data') /\
    TupleDesc.deserialize td data' = Ok tu' /\
    Tuple.size tu' = Tuple.size tu /\
    (forall i v, Tuple.fields tu !! i = Some (Int v) -> Tuple.fields tu' !! i = Some (Int v)) /\
    (forall i b, Tuple.fields tu !! i = Some (Double b) ->
                 Tuple.fields tu' !! i = Some (Double b)) /\
    (forall i s, Tuple.fields tu !! i = Some (Str s) ->
                 Tuple.fields tu' !! i = Some (Str (cstr (take CHAR_SIZE s))) /\
                 (cstr (take CHAR_SIZE s) = s <-> length s <= CHAR_SIZE /\ x00 ∉ s)).
Proof.
  intros Hc Hcomp Hwf Hlen.
  destruct (constructed_layout td Hc) as (_ & _ & Hoff & Hl).
  apply compatible_true in Hcomp.
  exists (encode_fields (Tuple.fields tu) ++ drop (TupleDesc.length td) data),
         (Tuple.Tuple (stored_field <$> Tuple.fields tu)).
  split; [exact (serialize_Ok td Hoff Hl tu data Hcomp Hlen)|]. split.
  - rewrite (deserialize_Ok td Hoff Hl).
    + rewrite <- Hcomp. by rewrite decode_encode_fields.
    + rewrite length_app, length_encode_fields, Hcomp, length_drop.
      unfold TupleDesc.length in *. rewrite Hl in *. lia.
  - unfold Tuple.size. cbn [Tuple.fields]. rewrite length_fmap.
    split; [reflexivity|].
    split; [|split].
    + intros i v Hx. by rewrite list_lookup_fmap, Hx.
    + intros i b Hx. by rewrite list_lookup_fmap, Hx.
    + intros i s Hx. split; [by rewrite list_lookup_fmap, Hx | apply cstr_take_id].
Qed.

(** The example tuple stored into the example buffer and read back. *)
Lemma C3_roundtrip_witness :
  exists data' tu',
    TupleDesc.serialize example_td example_tuple example_buffer = (Ok tt, data') /\
    TupleDesc.deserialize example_td data' = Ok tu' /\
    Tuple.size tu' = Tuple.size example_tuple /\
    (forall i v, Tuple.fields example_tuple !! i = Some (Int v) ->
                 Tuple.fields tu' !! i = Some (Int v)) /\
    (forall i b, Tuple.fields example_tuple !! i = Some (Double b) ->
                 Tuple.fields tu' !! i = Some (Double b)) /\
    (forall i s, Tuple.fields example_tuple !! i = Some (Str s) ->
                 Tuple.fields tu' !! i = Some (Str (cstr (take CHAR_SIZE s))) /\
                 (cstr (take CHAR_SIZE s) = s <-> length s <= CHAR_SIZE /\ x00 ∉ s)).
Proof.
  apply (C3_roundtrip example_td example_tuple example_buffer).
  - exact example_td_constructed.
  - vm_compute. reflexivity.
  - exact example_tuple_wf.
  - vm_compute. lia.
Defined.

(** * Decoding arbitrary bytes *)

Lemma decode_fields_tags (types : list type_t) (bs : list byte) :
  field_tag <$> decode_fields types bs = types.
Proof.
  revert bs. induction types as [|ty rest IH]; intros bs; simpl; [reflexivity|].
  rewrite IH. by destruct ty.
Qed.

Lemma decode_fields_text (types : list type_t) (bs : list byte) (i : nat) (s : list byte) :
  decode_fields types bs !! i = Some (Str s) -> length s <= CHAR_SIZE /\ x00 ∉ s.
Proof.
  revert bs i. induction types as [|ty rest IH]; intros bs i H; simpl in H; [discriminate|].
  destruct i as [|i]; simpl in H.
  - destruct ty; simpl in H; try discriminate. injection H as <-.
    split; [|apply cstr_no_zero].
    etrans; [apply length_cstr|]. rewrite length_take. lia.
  - exact (IH _ _ H).
Qed.

(** C10: on a buffer of at least [length()] bytes [deserialize] returns a
    tuple, and that tuple is compatible with the schema: it has as many
    fields as the schema, each of the declared type, and every text it holds
    has at most 64 bytes and no zero byte. *)
Theorem C10_deserialize_compatible (td : TupleDesc.t) (data : list byte) :
  constructed td ->
  TupleDesc.length td <= length data ->
  exists tu,
    TupleDesc.deserialize td data = Ok tu /\
    TupleDesc.compatible td tu = Ok true /\
    Tuple.size tu = TupleDesc.size td /\
    (forall i ty, TupleDesc.types_ td !! i = Some ty -> Tuple.field_type tu i = Ok ty) /\
    (forall i s, Tuple.fields tu !! i = Some (Str s) -> length s <= CHAR_SIZE /\ x00 ∉ s).
Proof.
  intros Hc Hlen. destruct (constructed_layout td Hc) as (_ & _ & Hoff & Hl).
  exists (Tuple.Tuple (decode_fields (TupleDesc.types_ td) data)).
  pose proof (decode_fields_tags (TupleDesc.types_ td) data) as Htags.
  split; [exact (deserialize_Ok td Hoff Hl data Hlen)|]. split; [|split; [|split]].
  - by apply compatible_true.
  - unfold Tuple.size, TupleDesc.size. cbn [Tuple.fields].
    rewrite <- Htags at 2. by rewrite length_fmap.
  - intros i ty Hty. rewrite <- Htags, list_lookup_fmap in Hty.
    cbn [Tuple.fields] in *.
    destruct (decode_fields (TupleDesc.types_ td) data !! i) as [f|] eqn:Hf; [|discriminate].
    injection Hty as <-. by apply field_type_lookup.
  - intros i s. apply decode_fields_text.
Qed.

(** The example buffer decoded under the example schema. *)
Lemma C10_deserialize_compatible_witness :
  exists tu,
    TupleDesc.deserialize example_td example_buffer = Ok tu /\
    TupleDesc.compatible example_td tu = Ok true /\
    Tuple.size tu = TupleDesc.size example_td /\
    (forall i ty, TupleDesc.types_ example_td !! i = Some ty -> Tuple.field_type tu i = Ok ty) /\
    (forall i s, Tuple.fields tu !! i = Some (Str s) -> length s <= CHAR_SIZE /\ x00 ∉ s).
Proof.
  apply (C10_deserialize_compatible example_td example_buffer).
  - exact example_td_constructed.
  - vm_compute. lia.
Defined.

(** * The heap file: range checks and rejected operations *)

Lemma readPage_Ok (f : DbFile.t) (i : nat) (pg : Page) :
  DbFile.pages f !! i = Some pg ->
  DbFile.readPage i f = (Ok pg, logged (PageRead i) f).
Proof. unfold DbFile.readPage. intros ->. reflexivity. Qed.

Lemma end_spec (f : DbFile.t) : HeapFile.end_ f = (Ok (sentinel f), f).
Proof. reflexivity. Qed.

(** C8: at a locator whose page index is at least the page count, [next]
    leaves the file as it is and returns the sentinel (page count, 0); so
    [next] at [end()] returns [end()]. *)
Theorem C8_next_past_end (f : DbFile.t) (it : HeapFile.Iterator) :
  length (DbFile.pages f) <= HeapFile.page it ->
  HeapFile.next it f
  = (Ok {| HeapFile.page := length (DbFile.pages f); HeapFile.slot := 0 |}, f) /\
  HeapFile.end_ f
  = (Ok {| HeapFile.page := length (DbFile.pages f); HeapFile.slot := 0 |}, f) /\
  (let! e := HeapFile.end_ in HeapFile.next e) f = HeapFile.end_ f.
Proof.
  intros H. split; [|split].
  - unfold HeapFile.next, pbind, DbFile.getNumPages.
    destruct (Nat.leb_spec (length (DbFile.pages f)) (HeapFile.page it)); [reflexivity | lia].
  - reflexivity.
  - unfold HeapFile.next, HeapFile.end_, pbind, DbFile.getNumPages, pret. cbn.
    by rewrite Nat.leb_refl.
Qed.

(** C9: for a tuple that is not compatible with the schema, [insertTuple]
    throws and the file is as it was: no page was read, none was written,
    and the page count is the same. *)
Theorem C9_insert_incompatible (f : DbFile.t) (t : Tuple.t) :
  TupleDesc.compatible (DbFile.td f) t = Ok false ->
  HeapFile.insertTuple t f
  = (Throw (logic_error "HeapFile::insertTuple: tuple not compatible with schema"), f) /\
  DbFile.io (snd (HeapFile.insertTuple t f)) = DbFile.io f /\
  DbFile.pages (snd (HeapFile.insertTuple t f)) = DbFile.pages f.
Proof.
  intros H. unfold HeapFile.insertTuple, pbind, plift, DbFile.getTupleDesc.
  rewrite H. repeat split.
Qed.


Lemma getTuple_in_range (f : DbFile.t) (it : HeapFile.Iterator) (pg : Page) :
  DbFile.pages f !! HeapFile.page it = Some pg ->
  HeapFile.getTuple it f
  = (HeapPage.getTuple (DbFile.td f) pg (HeapFile.slot it),
     logged (PageRead (HeapFile.page it)) f).
Proof.
  intros Hpg. pose proof (lookup_lt_Some _ _ _ Hpg) as Hlt.
  unfold HeapFile.getTuple, pbind at 1, DbFile.getNumPages.
  destruct (Nat.leb_spec (length (DbFile.pages f)) (HeapFile.page it)); [lia|].
  unfold pbind at 1. rewrite (readPage_Ok _ _ _ Hpg).
  reflexivity.
Qed.







(** * The scan *)

Lemma filter_seq_cons (P : nat -> Prop) `{forall j, Decision (P j)} :
  forall c s x r,
    filter P (seq s c) = x :: r ->
    s <= x < s + c /\ P x /\ r = filter P (seq (S x) (s + c - S x)).
Proof.
  induction c as [|c IH]; intros s x r Hf; simpl in Hf; [discriminate|].
  rewrite filter_cons in Hf. destruct (decide (P s)) as [HP|HP].
  - injection Hf as <- <-. split; [lia|]. split; [assumption|].
    do 2 f_equal. lia.
  - apply IH in Hf as (Hx & HPx & ->). split; [lia|]. split; [assumption|].
    do 2 f_equal. lia.
Qed.

Lemma find_slot_live (pg : Page) :
  forall c s,
    HeapPage.find_slot pg true s c
    = hd (s + c) (filter (fun j => HeapPage.live pg j = true) (seq s c)).
Proof.
  induction c as [|c IH]; intros s; simpl; [by rewrite Nat.add_0_r|].
  rewrite filter_cons. destruct (decide (HeapPage.live pg s = true)) as [Hl|Hl].
  - rewrite Hl. reflexivity.
  - apply not_true_is_false in Hl. rewrite Hl. simpl Bool.eqb. cbv iota.
    rewrite IH. f_equal. lia.
Qed.

Lemma live_slots_from_cons (td : TupleDesc.t) (pg : Page) (s x : nat) (r : list nat) :
  live_slots_from td pg s = x :: r ->
  s <= x < HeapPage.capacity td /\ HeapPage.live pg x = true /\
  r = live_slots_from td pg (S x).
Proof.
  unfold live_slots_from. intros H. apply filter_seq_cons in H as (Hx & Hl & ->).
  split; [lia|]. split; [assumption|]. do 2 f_equal. lia.
Qed.

Lemma HeapPage_begin_spec (td : TupleDesc.t) (pg : Page) :
  HeapPage.begin td pg = hd (HeapPage.capacity td) (live_slots_from td pg 0).
Proof.
  unfold HeapPage.begin, live_slots_from. rewrite find_slot_live.
  by rewrite Nat.sub_0_r.
Qed.

Lemma HeapPage_next_spec (td : TupleDesc.t) (pg : Page) (s : nat) :
  HeapPage.next td pg s = hd (HeapPage.capacity td) (live_slots_from td pg (S s)).
Proof.
  unfold HeapPage.next, live_slots_from.
  destruct (Nat.leb_spec (HeapPage.capacity td) s) as [Hge|Hlt].
  - replace (HeapPage.capacity td - S s) with 0 by lia. reflexivity.
  - rewrite find_slot_live. f_equal. lia.
Qed.

(** The head of a list of live slots is below the capacity, so it is the
    sentinel of the page only when the list is empty. *)
Lemma hd_live_slots_from (td : TupleDesc.t) (pg : Page) (s : nat) :
  (live_slots_from td pg s = [] /\
   hd (HeapPage.capacity td) (live_slots_from td pg s) = HeapPage.end_ td) \/
  (exists x r, live_slots_from td pg s = x :: r /\
               (x =? HeapPage.end_ td) = false).
Proof.
  destruct (live_slots_from td pg s) as [|x r] eqn:E; [by left|].
  right. exists x, r. split; [reflexivity|].
  apply live_slots_from_cons in E as (Hx & _). apply Nat.eqb_neq.
  unfold HeapPage.end_. lia.
Qed.

Lemma same_store_refl (f : DbFile.t) : same_store f f.
Proof. by split. Qed.

Lemma same_store_trans (f f' f'' : DbFile.t) :
  same_store f f' -> same_store f' f'' -> same_store f f''.
Proof. intros [? ?] [? ?]. split; congruence. Qed.

Lemma same_store_logged (e : io_event) (f : DbFile.t) : same_store f (logged e f).
Proof. by split. Qed.

Lemma first_nonempty_spec :
  forall count p f,
    p + count = length (DbFile.pages f) ->
    exists f',
      HeapFile.first_nonempty p count f
      = (Ok (head (pages_from (DbFile.td f) (drop p (DbFile.pages f)) p)), f') /\
      same_store f f'.
Proof.
  induction count as [|count IH]; intros p f Hp.
  - exists f. rewrite drop_ge by lia. split; [reflexivity | apply same_store_refl].
  - destruct (lookup_lt_is_Some_2 (DbFile.pages f) p) as [pg Hpg]; [lia|].
    cbn [HeapFile.first_nonempty]. unfold pbind at 1. rewrite (readPage_Ok _ _ _ Hpg).
    unfold pbind at 1, DbFile.getTupleDesc. cbn [logged DbFile.td].
    rewrite (drop_S _ _ _ Hpg). cbn [pages_from]. unfold page_locators.
    rewrite HeapPage_begin_spec.
    destruct (hd_live_slots_from (DbFile.td f) pg 0) as [[-> ->]|(x & r & -> & Hx)].
    + rewrite Nat.eqb_refl. cbn [negb fmap list_fmap app].
      destruct (IH (S p) (logged (PageRead p) f)) as (f' & -> & Hs); [simpl; lia|].
      exists f'. split; [reflexivity|].
      eapply same_store_trans; [apply same_store_logged | exact Hs].
    + cbn [hd]. rewrite Hx. cbn [negb]. eexists. split; [reflexivity|].
      apply same_store_logged.
Qed.

Lemma hd_head {A : Type} (d : A) (l : list A) :
  hd d l = match head l with Some x => x | None => d end.
Proof. by destruct l. Qed.

Lemma locators_after_0 (td : TupleDesc.t) (pages : list Page) :
  locators_after td pages 0 0 = pages_from td pages 0.
Proof.
  unfold locators_after. destruct pages as [|pg rest]; [reflexivity|].
  simpl. by rewrite drop_0.
Qed.

(** [begin] returns the first live locator, or the sentinel. *)
Lemma HeapFile_begin_spec (f : DbFile.t) :
  exists f',
    HeapFile.begin f = (Ok (hd (sentinel f) (live_locators f)), f') /\ same_store f f'.
Proof.
  unfold HeapFile.begin, pbind at 1, DbFile.getNumPages.
  destruct (first_nonempty_spec (length (DbFile.pages f)) 0 f) as (f' & Hfn & Hs); [lia|].
  unfold pbind. rewrite Hfn, drop_0. exists f'. split; [|exact Hs].
  unfold live_locators. rewrite hd_head.
  destruct (head _); reflexivity.
Qed.

(** [next] returns the first live locator after the one it is given, or the
    sentinel. *)
Lemma HeapFile_next_spec (f : DbFile.t) (it : HeapFile.Iterator) :
  HeapFile.page it < length (DbFile.pages f) ->
  exists f',
    HeapFile.next it f
    = (Ok (hd (sentinel f)
              (locators_after (DbFile.td f) (DbFile.pages f)
                              (HeapFile.page it) (S (HeapFile.slot it)))), f') /\
    same_store f f'.
Proof.
  intros Hlt.
  destruct (lookup_lt_is_Some_2 (DbFile.pages f) (HeapFile.page it)) as [pg Hpg]; [lia|].
  unfold HeapFile.next, pbind at 1, DbFile.getNumPages.
  destruct (Nat.leb_spec (length (DbFile.pages f)) (HeapFile.page it)); [lia|].
  unfold pbind at 1. rewrite (readPage_Ok _ _ _ Hpg).
  unfold pbind at 1, DbFile.getTupleDesc. cbn [logged DbFile.td].
  unfold locators_after. rewrite Hpg. unfold page_locators.
  rewrite HeapPage_next_spec.
  destruct (hd_live_slots_from (DbFile.td f) pg (S (HeapFile.slot it)))
    as [[-> ->]|(x & r & -> & Hx)].
  - rewrite Nat.eqb_refl. cbn [negb fmap list_fmap app].
    destruct (first_nonempty_spec (length (DbFile.pages f) - (HeapFile.page it + 1))
                (HeapFile.page it + 1) (logged (PageRead (HeapFile.page it)) f))
      as (f' & Hfn & Hs); [simpl; lia|].
    unfold pbind. rewrite Hfn. cbn [logged DbFile.td DbFile.pages].
    rewrite Nat.add_1_r. exists f'. split.
    + clear Hfn. rewrite hd_head. destruct (head _); reflexivity.
    + eapply same_store_trans; [apply same_store_logged | exact Hs].
  - cbn [hd]. rewrite Hx. cbn [negb fmap list_fmap app hd].
    eexists. split; [reflexivity | apply same_store_logged].
Qed.

Lemma pages_from_cons (td : TupleDesc.t) (pages : list Page) :
  forall k q it rest,
    q + k = length pages ->
    pages_from td (drop q pages) q = it :: rest ->
    q <= HeapFile.page it < length pages /\
    rest = locators_after td pages (HeapFile.page it) (S (HeapFile.slot it)).
Proof.
  induction k as [|k IH]; intros q it rest Hq H.
  - rewrite drop_ge in H by lia. discriminate.
  - destruct (lookup_lt_is_Some_2 pages q) as [pg Hpg]; [lia|].
    rewrite (drop_S _ _ _ Hpg) in H. cbn [pages_from] in H. unfold page_locators in H.
    destruct (live_slots_from td pg 0) as [|x r] eqn:E; cbn [fmap list_fmap app] in H.
    + apply IH in H as [Hp ->]; [|lia]. split; [lia | reflexivity].
    + injection H as <- <-. cbn [HeapFile.page HeapFile.slot]. split; [lia|].
      apply live_slots_from_cons in E as (_ & _ & ->).
      unfold locators_after. rewrite Hpg. reflexivity.
Qed.

(** After its first element, a list of the locators after a position is the
    list of the locators after that element. *)
Lemma locators_after_cons (td : TupleDesc.t) (pages : list Page) (p s : nat)
    (it : HeapFile.Iterator) (rest : list HeapFile.Iterator) :
  locators_after td pages p s = it :: rest ->
  HeapFile.page it < length pages /\
  rest = locators_after td pages (HeapFile.page it) (S (HeapFile.slot it)).
Proof.
  unfold locators_after at 1. destruct (pages !! p) as [pg|] eqn:Hpg; [|discriminate].
  pose proof (lookup_lt_Some _ _ _ Hpg) as Hlt.
  unfold page_locators.
  destruct (live_slots_from td pg s) as [|x r] eqn:E; cbn [fmap list_fmap app].
  - intros H. apply (pages_from_cons td pages (length pages - S p)) in H as [Hp ->]; [|lia].
    split; [lia | reflexivity].
  - intros H. injection H as <- <-. cbn [HeapFile.page HeapFile.slot]. split; [lia|].
    apply live_slots_from_cons in E as (_ & _ & ->).
    unfold locators_after. rewrite Hpg. reflexivity.
Qed.

Lemma Iterator_eqb_sentinel (f : DbFile.t) (it : HeapFile.Iterator) :
  HeapFile.page it < length (DbFile.pages f) ->
  HeapFile.Iterator_eqb it (sentinel f) = false.
Proof.
  intros H. unfold HeapFile.Iterator_eqb, sentinel. cbn [HeapFile.page].
  rewrite (proj2 (Nat.eqb_neq _ _)) by lia. reflexivity.
Qed.

Lemma Iterator_eqb_refl (it : HeapFile.Iterator) : HeapFile.Iterator_eqb it it = true.
Proof. unfold HeapFile.Iterator_eqb. by rewrite !Nat.eqb_refl. Qed.

Lemma sentinel_same_store (f f' : DbFile.t) : same_store f f' -> sentinel f' = sentinel f.
Proof. intros [_ H]. unfold sentinel. by rewrite H. Qed.

(** The scan loop, started at the head of a list of locators after a
    position, visits that list. *)
Lemma scan_loop_spec :
  forall fuel l f p s,
    l = locators_after (DbFile.td f) (DbFile.pages f) p s ->
    length l <= fuel ->
    exists f',
      HeapFile.scan_loop fuel (hd (sentinel f) l) f = (Ok (Some l), f') /\
      same_store f f'.
Proof.
  induction fuel as [|fuel IH]; intros l f p s Hl Hfuel.
  - destruct l; [|simpl in Hfuel; lia].
    exists f. split; [|apply same_store_refl].
    cbn [HeapFile.scan_loop hd]. unfold pbind. rewrite end_spec, Iterator_eqb_refl.
    reflexivity.
  - destruct l as [|it rest].
    + exists f. split; [|apply same_store_refl].
      cbn [HeapFile.scan_loop hd]. unfold pbind. rewrite end_spec, Iterator_eqb_refl.
      reflexivity.
    + symmetry in Hl. pose proof (locators_after_cons _ _ _ _ _ _ Hl) as [Hlt Hrest].
      cbn [HeapFile.scan_loop hd]. unfold pbind at 1. rewrite end_spec.
      rewrite (Iterator_eqb_sentinel f it Hlt).
      destruct (HeapFile_next_spec f it Hlt) as (f1 & Hnext & Hs1).
      unfold pbind at 1. rewrite Hnext, <- Hrest.
      destruct Hs1 as [Htd1 Hpg1].
      destruct (IH rest f1 (HeapFile.page it) (S (HeapFile.slot it))) as (f2 & Hscan & Hs2).
      { by rewrite Htd1, Hpg1. }
      { simpl in Hfuel. lia. }
      rewrite (sentinel_same_store f f1) in Hscan by (by split).
      unfold pbind. rewrite Hscan. exists f2. split; [reflexivity|].
      eapply same_store_trans; [split; eassumption | exact Hs2].
Qed.

(** A full scan visits the live locators of the file, in their order. *)
Lemma scan_spec (f : DbFile.t) (fuel : nat) :
  length (live_locators f) <= fuel ->
  exists f', HeapFile.scan fuel f = (Ok (Some (live_locators f)), f') /\ same_store f f'.
Proof.
  intros Hfuel. unfold HeapFile.scan.
  destruct (HeapFile_begin_spec f) as (f1 & Hb & [Htd1 Hpg1]).
  unfold pbind. rewrite Hb.
  destruct (scan_loop_spec fuel (live_locators f) f1 0 0) as (f2 & Hscan & Hs2).
  { rewrite Htd1, Hpg1. unfold live_locators. by rewrite locators_after_0. }
  { exact Hfuel. }
  rewrite (sentinel_same_store f f1) in Hscan by (by split).
  rewrite Hscan. exists f2. split; [reflexivity|].
  eapply same_store_trans; [split; eassumption | exact Hs2].
Qed.

(** * Order and completeness of the scan *)

Lemma elem_of_live_slots_from (td : TupleDesc.t) (pg : Page) (s x : nat) :
  x ∈ live_slots_from td pg s <->
  s <= x < HeapPage.capacity td /\ HeapPage.live pg x = true.
Proof.
  unfold live_slots_from. rewrite list_elem_of_filter, elem_of_seq.
  split; intros H; (split; [lia | tauto]) || (split; [tauto | lia]).
Qed.

Lemma live_slots_from_sorted (td : TupleDesc.t) (pg : Page) (s : nat) :
  StronglySorted lt (live_slots_from td pg s).
Proof.
  unfold live_slots_from. generalize (HeapPage.capacity td - s) as c. intros c.
  revert s. induction c as [|c IH]; intros s; simpl; [constructor|].
  rewrite filter_cons. destruct (decide _); [|apply IH].
  apply StronglySorted_cons. split; [|apply IH].
  apply Forall_forall. intros x [_ Hx]%list_elem_of_filter.
  apply elem_of_seq in Hx. lia.
Qed.

Lemma elem_of_pages_from (td : TupleDesc.t) (pages : list Page) :
  forall p it,
    it ∈ pages_from td pages p <->
    exists pg, p <= HeapFile.page it /\ pages !! (HeapFile.page it - p) = Some pg /\
               HeapFile.slot it < HeapPage.capacity td /\
               HeapPage.live pg (HeapFile.slot it) = true.
Proof.
  induction pages as [|pg0 rest IH]; intros p it; simpl.
  - split; [intros H; by apply elem_of_nil in H | intros (pg & _ & H & _); discriminate].
  - rewrite elem_of_app, IH. unfold page_locators. rewrite list_elem_of_fmap. split.
    + intros [(x & -> & Hx)|(pg & Hp & Hpg & Hs & Hl)].
      * apply elem_of_live_slots_from in Hx as [Hx Hl]. exists pg0.
        cbn [HeapFile.page HeapFile.slot]. rewrite Nat.sub_diag. split; [lia|].
        split; [reflexivity|]. split; [lia | assumption].
      * exists pg. split; [lia|]. split; [|by split].
        replace (HeapFile.page it - p) with (S (HeapFile.page it - S p)) by lia.
        exact Hpg.
    + intros (pg & Hp & Hpg & Hs & Hl).
      destruct (decide (HeapFile.page it = p)) as [Heq|Hne].
      * left. exists (HeapFile.slot it). split; [destruct it; simpl in *; by subst|].
        rewrite Heq, Nat.sub_diag in Hpg. injection Hpg as ->.
        apply elem_of_live_slots_from. split; [lia | assumption].
      * right. exists pg. split; [lia|]. split; [|by split].
        replace (HeapFile.page it - p) with (S (HeapFile.page it - S p)) in Hpg by lia.
        exact Hpg.
Qed.

Lemma elem_of_live_locators (f : DbFile.t) (it : HeapFile.Iterator) :
  it ∈ live_locators f <-> is_live f it.
Proof.
  unfold live_locators, is_live. rewrite elem_of_pages_from. rewrite Nat.sub_0_r.
  split; intros (pg & H); exists pg; [tauto | split; [lia | tauto]].
Qed.

Lemma pages_from_sorted (td : TupleDesc.t) (pages : list Page) :
  forall p, StronglySorted locator_lt (pages_from td pages p).
Proof.
  induction pages as [|pg rest IH]; intros p; simpl; [constructor|].
  apply StronglySorted_app_2; [| |apply IH].
  - intros a b Ha Hb. unfold page_locators in Ha.
    apply list_elem_of_fmap in Ha as (x & -> & _).
    apply elem_of_pages_from in Hb as (_ & Hb & _).
    left. cbn [HeapFile.page]. lia.
  - unfold page_locators. eapply StronglySorted_fmap; [|apply live_slots_from_sorted].
    intros x y Hxy. right. cbn [HeapFile.page HeapFile.slot]. by split.
Qed.

Lemma locator_lt_irrefl (a : HeapFile.Iterator) : ~ locator_lt a a.
Proof. unfold locator_lt. lia. Qed.

Lemma StronglySorted_NoDup (l : list HeapFile.Iterator) :
  StronglySorted locator_lt l -> NoDup l.
Proof.
  induction 1 as [|a l Hl IH Ha]; [constructor|].
  apply NoDup_cons. split; [|exact IH].
  intros Hin. apply (proj1 (Forall_forall _ _) Ha) in Hin.
  by apply locator_lt_irrefl in Hin.
Qed.

(** [next] at an element of a list of locators after a position returns the
    element that follows it, or the sentinel after the last one. *)
Lemma locators_after_split (td : TupleDesc.t) (pages : list Page) :
  forall before p s it rest,
    locators_after td pages p s = before ++ it :: rest ->
    HeapFile.page it < length pages /\
    rest = locators_after td pages (HeapFile.page it) (S (HeapFile.slot it)).
Proof.
  induction before as [|a before IH]; intros p s it rest H.
  - exact (locators_after_cons _ _ _ _ _ _ H).
  - simpl in H. apply locators_after_cons in H as [_ H].
    symmetry in H. exact (IH _ _ _ _ H).
Qed.

Lemma next_follows (f : DbFile.t) (before : list HeapFile.Iterator)
    (it : HeapFile.Iterator) (rest : list HeapFile.Iterator) :
  live_locators f = before ++ it :: rest ->
  exists f', HeapFile.next it f = (Ok (hd (sentinel f) rest), f') /\ same_store f f'.
Proof.
  unfold live_locators. rewrite <- locators_after_0. intros H.
  apply locators_after_split in H as [Hlt ->].
  exact (HeapFile_next_spec f it Hlt).
Qed.

(** * The scan claim *)

(** C1: a full scan from [begin()] by [next()] visits the locators of the
    live slots of the file: every live slot, each once, in strictly
    increasing order of (page, slot); and [next] at the last live locator
    returns the sentinel (page count, 0). *)
Theorem C1_scan (f : DbFile.t) (fuel : nat) :
  length (live_locators f) <= fuel ->
  (exists f', HeapFile.scan fuel f = (Ok (Some (live_locators f)), f') /\
              DbFile.pages f' = DbFile.pages f) /\
  (forall it, it ∈ live_locators f <-> is_live f it) /\
  NoDup (live_locators f) /\
  StronglySorted locator_lt (live_locators f) /\
  (forall it, last (live_locators f) = Some it ->
     exists f', HeapFile.next it f
                = (Ok {| HeapFile.page := length (DbFile.pages f); HeapFile.slot := 0 |}, f') /\
                DbFile.pages f' = DbFile.pages f).
Proof.
  intros Hfuel.
  pose proof (pages_from_sorted (DbFile.td f) (DbFile.pages f) 0) as Hsorted.
  split; [|split; [|split; [|split]]].
  - destruct (scan_spec f fuel Hfuel) as (f' & Hs & _ & Hp). eauto.
  - apply elem_of_live_locators.
  - by apply StronglySorted_NoDup.
  - exact Hsorted.
  - intros it Hlast. apply last_Some in Hlast as [before Hl].
    destruct (next_follows f before it [] Hl) as (f' & Hn & _ & Hp). eauto.
Qed.

(** The scan of the file of three pages. *)
Lemma C1_scan_witness :
  (exists f', HeapFile.scan 5 example_scan_file
              = (Ok (Some (live_locators example_scan_file)), f') /\
              DbFile.pages f' = DbFile.pages example_scan_file) /\
  (forall it, it ∈ live_locators example_scan_file <-> is_live example_scan_file it) /\
  NoDup (live_locators example_scan_file) /\
  StronglySorted locator_lt (live_locators example_scan_file) /\
  (forall it, last (live_locators example_scan_file) = Some it ->
     exists f', HeapFile.next it example_scan_file
                = (Ok {| HeapFile.page := length (DbFile.pages example_scan_file);
                         HeapFile.slot := 0 |}, f') /\
                DbFile.pages f' = DbFile.pages example_scan_file).
Proof.
  apply (C1_scan example_scan_file 5).
  vm_compute. lia.
Defined.

Example example_scan_locators :
  live_locators example_scan_file
  = [HeapFile.Build_Iterator 0 0; HeapFile.Build_Iterator 0 2; HeapFile.Build_Iterator 2 1]
  /\ fst (HeapFile.scan 5 example_scan_file) = Ok (Some (live_locators example_scan_file)).
Proof. split; vm_compute; reflexivity. Qed.

(** * The slotted page *)

Lemma get_set_bit (b : byte) (k : nat) (v : bool) :
  k < 8 -> HeapPage.get_bit (HeapPage.set_bit b k v) k = v.
Proof.
  intros Hk. unfold HeapPage.get_bit, HeapPage.set_bit.
  rewrite byte.unsigned_of_Z. unfold byte.wrap.
  rewrite Z.mod_pow2_bits_low by lia.
  destruct v.
  - rewrite Z.lor_spec, Z.shiftl_1_l, Z.pow2_bits_true by lia. apply orb_true_r.
  - rewrite Z.ldiff_spec, Z.shiftl_1_l, Z.pow2_bits_true by lia. apply andb_false_r.
Qed.

(** The liveness array and the slots fit into a page. *)
Lemma page_layout_fits (td : TupleDesc.t) :
  HeapPage.header_size td + HeapPage.capacity td * TupleDesc.length td <= DEFAULT_PAGE_SIZE.
Proof.
  unfold HeapPage.header_size, HeapPage.capacity, DEFAULT_PAGE_SIZE.
  set (L := TupleDesc.length td). set (c := 4096 * 8 / (L * 8 + 1)).
  assert (Hc : c * (L * 8 + 1) <= 4096 * 8).
  { unfold c. rewrite Nat.mul_comm. apply Nat.Div0.mul_div_le. }
  assert (Hh : 8 * ((c + 7) / 8) <= c + 7) by apply Nat.Div0.mul_div_le.
  nia.
Qed.

Lemma slot_in_page (td : TupleDesc.t) (s : nat) :
  s < HeapPage.capacity td ->
  s / 8 < HeapPage.header_size td /\
  HeapPage.header_size td <= HeapPage.slot_offset td s /\
  HeapPage.slot_offset td s + TupleDesc.length td <= DEFAULT_PAGE_SIZE.
Proof.
  intros Hs. pose proof (page_layout_fits td) as Hfit.
  unfold HeapPage.slot_offset. split; [|split; [lia|nia]].
  unfold HeapPage.header_size.
  apply Nat.Div0.div_lt_upper_bound.
  pose proof (Nat.mul_succ_div_gt (HeapPage.capacity td + 7) 8 ltac:(lia)). lia.
Qed.

Lemma find_slot_spec (pg : Page) (v : bool) :
  forall c s,
    s <= HeapPage.find_slot pg v s c <= s + c /\
    (HeapPage.find_slot pg v s c < s + c -> HeapPage.live pg (HeapPage.find_slot pg v s c) = v) /\
    (forall j, s <= j < HeapPage.find_slot pg v s c -> HeapPage.live pg j = negb v).
Proof.
  induction c as [|c IH]; intros s; simpl.
  - split; [lia|]. split; [lia|]. intros j Hj. lia.
  - destruct (Bool.eqb (HeapPage.live pg s) v) eqn:E.
    + apply Bool.eqb_prop in E. split; [lia|]. split; [auto|]. intros j Hj. lia.
    + apply Bool.eqb_false_iff in E.
      destruct (IH (S s)) as (Hr & Hl & Hb).
      split; [lia|]. split; [intros H; apply Hl; lia|].
      intros j Hj. destruct (decide (j = s)) as [->|Hne].
      * destruct (HeapPage.live pg s), v; simpl; congruence.
      * apply Hb. lia.
Qed.

Lemma find_slot_free (td : TupleDesc.t) (pg : Page) :
  has_free_slot td pg ->
  HeapPage.find_slot pg false 0 (HeapPage.capacity td) < HeapPage.capacity td.
Proof.
  intros (j & Hj & Hdead).
  destruct (find_slot_spec pg false (HeapPage.capacity td) 0) as (Hr & _ & Hb).
  destruct (Nat.lt_ge_cases (HeapPage.find_slot pg false 0 (HeapPage.capacity td))
              (HeapPage.capacity td)) as [|Hge]; [assumption|].
  specialize (Hb j). rewrite Hb in Hdead by lia. discriminate.
Qed.

Lemma find_slot_full (td : TupleDesc.t) (pg : Page) :
  page_full td pg ->
  HeapPage.find_slot pg false 0 (HeapPage.capacity td) = HeapPage.capacity td.
Proof.
  intros Hfull.
  destruct (find_slot_spec pg false (HeapPage.capacity td) 0) as (Hr & Hl & _).
  destruct (Nat.lt_ge_cases (HeapPage.find_slot pg false 0 (HeapPage.capacity td))
              (HeapPage.capacity td)) as [Hlt|]; [|lia].
  rewrite Hfull in Hl by assumption. specialize (Hl ltac:(lia)). discriminate.
Qed.

Lemma insertTuple_full (td : TupleDesc.t) (tu : Tuple.t) (pg : Page) :
  page_full td pg -> HeapPage.insertTuple td tu pg = (Ok false, pg).
Proof.
  intros Hfull. unfold HeapPage.insertTuple. rewrite (find_slot_full td pg Hfull).
  by rewrite Nat.ltb_irrefl.
Qed.

(** [insertTuple] on a page with a dead slot claims the first one: the page
    keeps its size, and the slot reads back as the stored tuple. *)
Lemma insertTuple_free (td : TupleDesc.t) (tu : Tuple.t) (pg : Page) :
  constructed td ->
  TupleDesc.compatible td tu = Ok true ->
  Tuple.wf tu ->
  length pg = DEFAULT_PAGE_SIZE ->
  has_free_slot td pg ->
  exists pg',
    HeapPage.insertTuple td tu pg = (Ok true, pg') /\
    length pg' = DEFAULT_PAGE_SIZE /\
    HeapPage.getTuple td pg' (HeapPage.find_slot pg false 0 (HeapPage.capacity td))
    = Ok (stored tu).
Proof.
  intros Hc Hcomp Hwf Hlen Hfree.
  destruct (constructed_layout td Hc) as (_ & _ & Hoff & Hl).
  apply compatible_true in Hcomp.
  pose proof (find_slot_free td pg Hfree) as Hs.
  unfold HeapPage.insertTuple, HeapPage.getTuple.
  set (s := HeapPage.find_slot pg false 0 (HeapPage.capacity td)) in *.
  destruct (slot_in_page td s Hs) as (Hbyte & Hhdr & Hslot).
  pose proof (page_layout_fits td) as Hfit.
  destruct (Nat.ltb_spec s (HeapPage.capacity td)); [|lia].
  destruct (Nat.leb_spec (HeapPage.capacity td) s); [lia|].
  destruct (lookup_lt_is_Some_2 pg (s / 8)) as [b Hb]; [lia|].
  unfold pbind at 1, HeapPage.mark. unfold Page in *. rewrite Hb.
  set (pg1 := <[s / 8 := HeapPage.set_bit b (7 - s mod 8) true]> pg).
  assert (Hlen1 : length pg1 = DEFAULT_PAGE_SIZE) by (unfold pg1; by rewrite length_insert).
  unfold pbind at 1, at_offset.
  destruct (Nat.leb_spec (HeapPage.slot_offset td s) (length pg1)); [|lia].
  rewrite (serialize_Ok td Hoff Hl tu _ Hcomp) by (rewrite length_drop; lia).
  eexists. split; [reflexivity|].
  assert (Htake : length (take (HeapPage.slot_offset td s) pg1) = HeapPage.slot_offset td s)
    by (rewrite length_take; lia).
  split.
  - rewrite !length_app, Htake, length_encode_fields, Hcomp, !length_drop.
    unfold TupleDesc.length in *. rewrite Hl in *. lia.
  - assert (Hlive : HeapPage.live
        (take (HeapPage.slot_offset td s) pg1 ++
         encode_fields (Tuple.fields tu) ++
         drop (TupleDesc.length td) (drop (HeapPage.slot_offset td s) pg1)) s = true).
    { unfold HeapPage.live, Page. rewrite lookup_app_l by lia.
      rewrite lookup_take_lt by lia. unfold pg1.
      rewrite list_lookup_insert_eq by lia.
      apply get_set_bit. lia. }
    rewrite Hlive. cbn [negb].
    rewrite drop_app_length' by (by rewrite Htake).
    rewrite (deserialize_Ok td Hoff Hl).
    + rewrite <- Hcomp. rewrite decode_encode_fields by exact Hwf. reflexivity.
    + rewrite length_app, length_encode_fields, Hcomp.
      unfold TupleDesc.length. rewrite Hl. lia.
Qed.

(** * Insertion into the file *)

Lemma live_zero_page (j : nat) : HeapPage.live zero_page j = false.
Proof.
  unfold HeapPage.live, zero_page, Page.
  destruct (replicate DEFAULT_PAGE_SIZE x00 !! (j / 8)) as [b|] eqn:E; [|reflexivity].
  apply lookup_replicate in E as [-> _]. unfold HeapPage.get_bit.
  change (byte.unsigned x00) with 0%Z. apply Z.testbit_0_l.
Qed.

Lemma length_zero_page : length zero_page = DEFAULT_PAGE_SIZE.
Proof. apply length_replicate. Qed.

(** The insertion into a fresh page: it succeeds when the page has a slot at
    all, and the tuple is then in slot 0. *)
Lemma insertTuple_zero_page (td : TupleDesc.t) (tu : Tuple.t) :
  constructed td ->
  TupleDesc.compatible td tu = Ok true ->
  Tuple.wf tu ->
  exists ok new_page,
    HeapPage.insertTuple td tu zero_page = (Ok ok, new_page) /\
    length new_page = DEFAULT_PAGE_SIZE /\
    (0 < HeapPage.capacity td -> HeapPage.getTuple td new_page 0 = Ok (stored tu)).
Proof.
  intros Hc Hcomp Hwf.
  destruct (Nat.eq_0_gt_0_cases (HeapPage.capacity td)) as [Hcap|Hcap].
  - exists false, zero_page. rewrite insertTuple_full.
    + split; [reflexivity|]. split; [apply length_zero_page | lia].
    + intros j Hj. lia.
  - assert (Hfree : has_free_slot td zero_page) by (exists 0; split; [lia | apply live_zero_page]).
    destruct (insertTuple_free td tu zero_page Hc Hcomp Hwf length_zero_page Hfree)
      as (pg' & Hins & Hlen & Hget).
    assert (H0 : HeapPage.find_slot zero_page false 0 (HeapPage.capacity td) = 0).
    { destruct (find_slot_spec zero_page false (HeapPage.capacity td) 0) as (_ & _ & Hb).
      destruct (HeapPage.find_slot zero_page false 0 (HeapPage.capacity td)) as [|r];
        [reflexivity|].
      specialize (Hb 0 ltac:(lia)). rewrite live_zero_page in Hb. discriminate. }
    rewrite H0 in Hget. exists true, pg'. auto.
Qed.

Lemma writePage_append (f : DbFile.t) (pg : Page) :
  DbFile.writePage pg (length (DbFile.pages f)) f
  = (Ok tt, {| DbFile.td := DbFile.td f; DbFile.pages := DbFile.pages f ++ [pg];
               DbFile.io := DbFile.io f ++ [PageWrite (length (DbFile.pages f))] |}).
Proof.
  unfold DbFile.writePage. by rewrite Nat.ltb_irrefl, Nat.eqb_refl.
Qed.

Lemma writePage_in_place (f : DbFile.t) (pg : Page) (i : nat) :
  i < length (DbFile.pages f) ->
  DbFile.writePage pg i f
  = (Ok tt, {| DbFile.td := DbFile.td f; DbFile.pages := <[i := pg]> (DbFile.pages f);
               DbFile.io := DbFile.io f ++ [PageWrite i] |}).
Proof.
  intros H. unfold DbFile.writePage.
  destruct (Nat.ltb_spec i (length (DbFile.pages f))); [reflexivity | lia].
Qed.

(** The last page has a dead slot: the tuple goes there and the page is
    written back in place. *)
Lemma insertTuple_in_place (f : DbFile.t) (tu : Tuple.t) (last_page : Page) :
  constructed (DbFile.td f) ->
  wf_file f ->
  TupleDesc.compatible (DbFile.td f) tu = Ok true ->
  Tuple.wf tu ->
  last (DbFile.pages f) = Some last_page ->
  has_free_slot (DbFile.td f) last_page ->
  exists pg',
    HeapFile.insertTuple tu f
    = (Ok tt, {| DbFile.td := DbFile.td f;
                 DbFile.pages := <[length (DbFile.pages f) - 1 := pg']> (DbFile.pages f);
                 DbFile.io := DbFile.io f ++ [PageRead (length (DbFile.pages f) - 1);
                                              PageWrite (length (DbFile.pages f) - 1)] |}) /\
    length pg' = DEFAULT_PAGE_SIZE /\
    HeapPage.getTuple (DbFile.td f) pg'
      (HeapPage.find_slot last_page false 0 (HeapPage.capacity (DbFile.td f)))
    = Ok (stored tu).
Proof.
  intros Hc Hwff Hcomp Hwf Hlast Hfree.
  rewrite last_lookup in Hlast.
  pose proof (lookup_lt_Some _ _ _ Hlast) as Hn.
  replace (pred (length (DbFile.pages f))) with (length (DbFile.pages f) - 1) in Hlast by lia.
  assert (Hlen : length last_page = DEFAULT_PAGE_SIZE).
  { exact (proj1 (Forall_lookup _ _) Hwff _ _ Hlast). }
  destruct (insertTuple_free _ tu last_page Hc Hcomp Hwf Hlen Hfree) as (pg' & Hins & Hlen' & Hget).
  exists pg'. split; [|by split].
  unfold HeapFile.insertTuple, pbind at 1, DbFile.getTupleDesc.
  unfold pbind at 1, plift. rewrite Hcomp. cbn [negb].
  unfold pbind at 1, DbFile.getNumPages.
  destruct (Nat.ltb_spec 0 (length (DbFile.pages f))); [|lia].
  unfold pbind at 1. unfold pbind at 1. rewrite (readPage_Ok _ _ _ Hlast).
  unfold pbind at 1, HeapFile.on_page. rewrite Hins.
  unfold pbind at 1. rewrite writePage_in_place by (simpl; lia).
  unfold pret. cbn [logged DbFile.td DbFile.pages DbFile.io].
  by rewrite <- app_assoc.
Qed.

(** The file is empty, or its last page is full: a fresh page takes the
    tuple and is appended. *)
Lemma insertTuple_append (f : DbFile.t) (tu : Tuple.t) :
  constructed (DbFile.td f) ->
  TupleDesc.compatible (DbFile.td f) tu = Ok true ->
  Tuple.wf tu ->
  DbFile.pages f = [] \/
  (exists last_page, last (DbFile.pages f) = Some last_page /\
                     page_full (DbFile.td f) last_page) ->
  exists new_page io',
    HeapFile.insertTuple tu f
    = (Ok tt, {| DbFile.td := DbFile.td f; DbFile.pages := DbFile.pages f ++ [new_page];
                 DbFile.io := io' |}) /\
    length new_page = DEFAULT_PAGE_SIZE /\
    (0 < HeapPage.capacity (DbFile.td f) ->
     HeapPage.getTuple (DbFile.td f) new_page 0 = Ok (stored tu)).
Proof.
  intros Hc Hcomp Hwf Hcase.
  destruct (insertTuple_zero_page _ tu Hc Hcomp Hwf) as (ok & new_page & Hins & Hlen & Hget).
  exists new_page.
  unfold HeapFile.insertTuple, pbind at 1, DbFile.getTupleDesc.
  unfold pbind at 1, plift. rewrite Hcomp. cbn [negb].
  unfold pbind at 1, DbFile.getNumPages.
  destruct Hcase as [Hempty|(last_page & Hlast & Hfull)].
  - rewrite Hempty. cbn [length Nat.ltb Nat.leb]. unfold pbind at 1, pret.
    unfold pbind at 1, HeapFile.on_page. rewrite Hins.
    pose proof (writePage_append f new_page) as Hw. rewrite Hempty in Hw.
    cbn [length] in Hw. rewrite Hw. eexists. split; [reflexivity | by split].
  - rewrite last_lookup in Hlast.
    pose proof (lookup_lt_Some _ _ _ Hlast) as Hn.
    replace (pred (length (DbFile.pages f))) with (length (DbFile.pages f) - 1) in Hlast by lia.
    destruct (Nat.ltb_spec 0 (length (DbFile.pages f))); [|lia].
    unfold pbind at 1. unfold pbind at 1. rewrite (readPage_Ok _ _ _ Hlast).
    unfold pbind at 1, HeapFile.on_page. rewrite (insertTuple_full _ tu last_page Hfull).
    unfold pret. unfold pbind at 1. rewrite Hins.
    pose proof (writePage_append (logged (PageRead (length (DbFile.pages f) - 1)) f) new_page)
      as Hw.
    cbn [logged DbFile.td DbFile.pages DbFile.io] in Hw. rewrite Hw.
    eexists. split; [reflexivity | by split].
Qed.

(** * The insertion claim *)

Lemma getTuple_Ok_live (f : DbFile.t) (it : HeapFile.Iterator) (t : Tuple.t) :
  fst (HeapFile.getTuple it f) = Ok t -> is_live f it.
Proof.
  destruct (DbFile.pages f !! HeapFile.page it) as [pg|] eqn:Hpg.
  - rewrite (getTuple_in_range f it pg Hpg). cbn [fst]. unfold HeapPage.getTuple.
    destruct (Nat.leb_spec (HeapPage.capacity (DbFile.td f)) (HeapFile.slot it)); [discriminate|].
    destruct (HeapPage.live pg (HeapFile.slot it)) eqn:E; cbn [negb]; [|discriminate].
    intros _. exists pg. auto.
  - apply lookup_ge_None in Hpg.
    unfold HeapFile.getTuple, pbind, DbFile.getNumPages.
    destruct (Nat.leb_spec (length (DbFile.pages f)) (HeapFile.page it)); [discriminate | lia].
Qed.

(** A stored tuple reads back as itself exactly when each of its texts has
    at most 64 bytes and no zero byte. *)
Lemma stored_id (tu : Tuple.t) :
  stored tu = tu <->
  forall i s, Tuple.fields tu !! i = Some (Str s) -> length s <= CHAR_SIZE /\ x00 ∉ s.
Proof.
  destruct tu as [fs]. unfold stored. cbn [Tuple.fields]. split.
  - intros H. injection H as H. intros i s Hi.
    apply cstr_take_id.
    assert (Hs : (stored_field <$> fs) !! i = Some (stored_field (Str s)))
      by (by rewrite list_lookup_fmap, Hi).
    rewrite H, Hi in Hs. cbn [stored_field] in Hs. injection Hs as Hs. by symmetry.
  - intros H. f_equal. induction fs as [|f fs IH]; [reflexivity|].
    cbn [fmap list_fmap]. f_equal.
    + destruct f as [v|b|s]; try reflexivity. cbn [stored_field]. f_equal.
      apply cstr_take_id. exact (H 0 s eq_refl).
    + apply IH. intros i s Hi. exact (H (S i) s Hi).
Qed.

(** C2, as the claim states it, fails: a compatible tuple with a text of 65
    bytes is inserted into the empty file, the page count becomes 1, and no
    locator of the new page gives the inserted tuple back. *)
Lemma C2_long_text_not_retrievable :
  TupleDesc.compatible example_td long_text_tuple = Ok true /\
  fst (HeapFile.insertTuple long_text_tuple empty_file) = Ok tt /\
  length (DbFile.pages (snd (HeapFile.insertTuple long_text_tuple empty_file))) = 1 /\
  forall s,
    fst (HeapFile.getTuple {| HeapFile.page := 0; HeapFile.slot := s |}
           (snd (HeapFile.insertTuple long_text_tuple empty_file)))
    ≠ Ok long_text_tuple.
Proof.
  split; [vm_compute; reflexivity|]. split; [vm_compute; reflexivity|].
  split; [vm_compute; reflexivity|].
  intros s H. pose proof (getTuple_Ok_live _ _ _ H) as Hlive.
  apply elem_of_live_locators in Hlive.
  replace (live_locators (snd (HeapFile.insertTuple long_text_tuple empty_file)))
    with [HeapFile.Build_Iterator 0 0] in Hlive by (vm_compute; reflexivity).
  apply list_elem_of_singleton in Hlive. injection Hlive as ->.
  vm_compute in H. discriminate.
Qed.

(** C2, amended: for a compatible tuple, [insertTuple] into a file whose
    last page has a dead slot leaves the page count as it is; into a file
    that is empty or whose last page is full it appends one page, at the
    index that was the page count; and when a page has at least one slot,
    the new page gives back at slot 0 the inserted tuple with every text cut
    at its first zero byte among its first 64 bytes (the inserted tuple
    itself when its texts have at most 64 bytes and no zero byte). *)
Theorem C2_insert_placement (f : DbFile.t) (tu : Tuple.t) :
  constructed (DbFile.td f) ->
  wf_file f ->
  TupleDesc.compatible (DbFile.td f) tu = Ok true ->
  Tuple.wf tu ->
  (forall last_page,
     last (DbFile.pages f) = Some last_page ->
     has_free_slot (DbFile.td f) last_page ->
     exists f',
       HeapFile.insertTuple tu f = (Ok tt, f') /\
       length (DbFile.pages f') = length (DbFile.pages f)) /\
  (DbFile.pages f = [] \/
   (exists last_page, last (DbFile.pages f) = Some last_page /\
                      page_full (DbFile.td f) last_page) ->
   exists f' new_page,
     HeapFile.insertTuple tu f = (Ok tt, f') /\
     DbFile.pages f' = DbFile.pages f ++ [new_page] /\
     length (DbFile.pages f') = length (DbFile.pages f) + 1 /\
     (0 < HeapPage.capacity (DbFile.td f) ->
      fst (HeapFile.getTuple {| HeapFile.page := length (DbFile.pages f);
                                HeapFile.slot := 0 |} f')
      = Ok (stored tu))) /\
  (forall i v, Tuple.fields tu !! i = Some (Int v) ->
               Tuple.fields (stored tu) !! i = Some (Int v)) /\
  (forall i b, Tuple.fields tu !! i = Some (Double b) ->
               Tuple.fields (stored tu) !! i = Some (Double b)) /\
  (forall i s, Tuple.fields tu !! i = Some (Str s) ->
               Tuple.fields (stored tu) !! i = Some (Str (cstr (take CHAR_SIZE s)))) /\
  (stored tu = tu <->
   forall i s, Tuple.fields tu !! i = Some (Str s) -> length s <= CHAR_SIZE /\ x00 ∉ s).
Proof.
  intros Hc Hwff Hcomp Hwf. split; [|split].
  - intros last_page Hlast Hfree.
    destruct (insertTuple_in_place f tu last_page Hc Hwff Hcomp Hwf Hlast Hfree)
      as (pg' & Hins & _).
    eexists. split; [exact Hins|]. cbn [DbFile.pages]. apply length_insert.
  - intros Hcase.
    destruct (insertTuple_append f tu Hc Hcomp Hwf Hcase) as (new_page & io' & Hins & _ & Hget).
    eexists. exists new_page. split; [exact Hins|]. cbn [DbFile.pages].
    split; [reflexivity|]. split; [rewrite length_app; simpl; lia|].
    intros Hcap. erewrite getTuple_in_range.
    + cbn [fst DbFile.td HeapFile.slot]. exact (Hget Hcap).
    + cbn [DbFile.pages HeapFile.page]. apply list_lookup_middle. reflexivity.
  - unfold stored. cbn [Tuple.fields].
    split; [|split; [|split]];
      try (intros i x Hx; by rewrite list_lookup_fmap, Hx).
    apply (stored_id tu).
Qed.

(** * The claims on concrete files *)

Lemma example_scan_file_wf : wf_file example_scan_file.
Proof.
  unfold wf_file. cbn [example_scan_file DbFile.pages].
  repeat (constructor; [vm_compute; reflexivity|]). constructor.
Qed.

Lemma empty_file_wf : wf_file empty_file.
Proof. constructor. Qed.

(** The example tuple inserted into the file of three pages, whose last page
    has dead slots, and into the empty file. *)
Lemma C2_insert_placement_witness :
  (exists f', HeapFile.insertTuple example_tuple example_scan_file = (Ok tt, f') /\
              length (DbFile.pages f') = 3) /\
  (exists f' new_page,
     HeapFile.insertTuple example_tuple empty_file = (Ok tt, f') /\
     DbFile.pages f' = [new_page] /\
     fst (HeapFile.getTuple {| HeapFile.page := 0; HeapFile.slot := 0 |} f')
     = Ok example_tuple).
Proof.
  split.
  - destruct (C2_insert_placement example_scan_file example_tuple) as [Hin_place _].
    + exact example_td_constructed.
    + exact example_scan_file_wf.
    + vm_compute. reflexivity.
    + exact example_tuple_wf.
    + apply (Hin_place (<[0 := x40]> zero_page)); [reflexivity|].
      exists 0. split; vm_compute; [lia | reflexivity].
  - destruct (C2_insert_placement empty_file example_tuple) as (_ & Happend & _).
    + exact example_td_constructed.
    + exact empty_file_wf.
    + vm_compute. reflexivity.
    + exact example_tuple_wf.
    + destruct Happend as (f' & new_page & Hins & Hpages & _ & Hget); [by left|].
      exists f', new_page. split; [exact Hins|]. split; [exact Hpages|].
      specialize (Hget ltac:(vm_compute; lia)).
      etrans; [exact Hget|]. vm_compute. reflexivity.
Defined.

(** [next] at (5, 7) in the file of three pages. *)
Lemma C8_next_past_end_witness :
  HeapFile.next {| HeapFile.page := 5; HeapFile.slot := 7 |} example_scan_file
  = (Ok {| HeapFile.page := 3; HeapFile.slot := 0 |}, example_scan_file) /\
  (let! e := HeapFile.end_ in HeapFile.next e) example_scan_file
  = HeapFile.end_ example_scan_file.
Proof.
  destruct (C8_next_past_end example_scan_file {| HeapFile.page := 5; HeapFile.slot := 7 |})
    as (Hnext & _ & Hend).
  - simpl. lia.
  - split; [exact Hnext | exact Hend].
Defined.

(** A tuple of one field offered to the file of three pages. *)
Lemma C9_insert_incompatible_witness :
  HeapFile.insertTuple (Tuple.Tuple [Int 1]) example_scan_file
  = (Throw (logic_error "HeapFile::insertTuple: tuple not compatible with schema"),
     example_scan_file).
Proof.
  apply (C9_insert_incompatible example_scan_file (Tuple.Tuple [Int 1])).
  vm_compute. reflexivity.
Defined.


(** * The scenario of the specification, and a schema too wide for a page *)

(** The record length of the scenario schema is 68, a page holds 60 records,
    and the model runs the scenario of the specification as it describes
    it. *)
Example scenario_runs :
  TupleDesc.length scenario_td = 68 /\
  HeapPage.capacity scenario_td = 60 /\
  fst (scenario scenario_file)
  = Ok (1,
        HeapFile.Build_Iterator 0 0,
        Some [HeapFile.Build_Iterator 0 0; HeapFile.Build_Iterator 0 1;
              HeapFile.Build_Iterator 0 2],
        Tuple.Tuple [Int 2; Str [x62; x62]],
        Some [HeapFile.Build_Iterator 0 0; HeapFile.Build_Iterator 0 2]).
Proof. repeat split; vm_compute; reflexivity. Qed.

(** With a schema that leaves a page no slot, [insertTuple] returns
    normally and appends an empty page: the result of the insertion into
    the fresh page is discarded, and no slot gives the tuple back. *)
Example insert_without_slot :
  TupleDesc.length wide_td = 4096 /\
  HeapPage.capacity wide_td = 0 /\
  TupleDesc.compatible wide_td wide_tuple = Ok true /\
  HeapFile.insertTuple wide_tuple wide_file
  = (Ok tt, {| DbFile.td := wide_td; DbFile.pages := [zero_page];
               DbFile.io := [PageWrite 0] |}) /\
  forall s,
    fst (HeapFile.getTuple {| HeapFile.page := 0; HeapFile.slot := s |}
           (snd (HeapFile.insertTuple wide_tuple wide_file)))
    = Throw (out_of_range "HeapPage::getTuple: slot out of range").
Proof.
  assert (Hcap : HeapPage.capacity wide_td = 0) by (vm_compute; reflexivity).
  assert (Hins : HeapFile.insertTuple wide_tuple wide_file
                 = (Ok tt, {| DbFile.td := wide_td; DbFile.pages := [zero_page];
                              DbFile.io := [PageWrite 0] |}))
    by (vm_compute; reflexivity).
  split; [vm_compute; reflexivity|]. split; [exact Hcap|].
  split; [vm_compute; reflexivity|]. split; [exact Hins|].
  intros s. rewrite Hins. cbn [snd].
  rewrite (getTuple_in_range _ _ zero_page) by reflexivity.
  cbn [fst DbFile.td HeapFile.slot]. unfold HeapPage.getTuple. rewrite Hcap.
  reflexivity.
Qed.

(** * The name index of a schema *)

(** The layout loop, with [i] fields done, has entered the first [i] names
    into the map, each under its index. *)
Lemma layout_index (types : list type_t) (names : list string) :
  length types = length names ->
  NoDup names ->
  forall count i offsets off n2i,
    i + count = length types ->
    length offsets = length types ->
    (forall nm j, n2i !! nm = Some j <-> j < i /\ names !! j = Some nm) ->
    exists offsets' off' n2i',
      TupleDesc.layout types names i count (offsets, off, n2i) = Ok (offsets', off', n2i') /\
      forall nm j, n2i' !! nm = Some j <-> names !! j = Some nm.
Proof.
  intros Hlen Hnd. induction count as [|count IH]; intros i offsets off n2i Hi Ho Hmap.
  - exists offsets, off, n2i. split; [reflexivity|]. intros nm j. rewrite Hmap.
    split; [tauto|]. intros H. split; [|assumption].
    apply lookup_lt_Some in H. lia.
  - destruct (lookup_lt_is_Some_2 types i) as [ty Hty]; [lia|].
    destruct (lookup_lt_is_Some_2 names i) as [nm Hnm]; [lia|].
    cbn [TupleDesc.layout]. rewrite vec_set_lt by lia. cbn [obind].
    rewrite (vec_idx_lookup _ _ _ Hty), (vec_idx_lookup _ _ _ Hnm). cbn [obind].
    apply IH; [lia | by rewrite length_insert |].
    assert (Hfresh : n2i !! nm = None).
    { destruct (n2i !! nm) as [j|] eqn:E; [|reflexivity].
      apply Hmap in E as [Hj Hnj].
      pose proof (NoDup_lookup _ _ _ _ Hnd Hnj Hnm). lia. }
    unfold TupleDesc.emplace. rewrite Hfresh.
    intros nm' j. destruct (decide (nm = nm')) as [<-|Hne].
    + rewrite lookup_insert_eq. split.
      * intros [= <-]. split; [lia | assumption].
      * intros [_ Hj]. f_equal. exact (NoDup_lookup _ _ _ _ Hnd Hnm Hj).
    + rewrite lookup_insert_ne by assumption. rewrite Hmap. split.
      * intros [Hj Hnj]. split; [lia | assumption].
      * intros [Hj Hnj]. split; [|assumption].
        destruct (decide (j = i)) as [->|]; [congruence | lia].
Qed.

Lemma TupleDesc_name2idx (types : list type_t) (names : list string) (td : TupleDesc.t) :
  TupleDesc.TupleDesc types names = Ok td ->
  forall nm j, TupleDesc.name2idx_ td !! nm = Some j <-> names !! j = Some nm.
Proof.
  intros H. pose proof (TupleDesc_inv _ _ _ H) as (Hlen & Hnd & _).
  unfold TupleDesc.TupleDesc in H.
  rewrite (proj2 (Nat.eqb_eq _ _) Hlen) in H. cbn [negb] in H.
  rewrite check_names_Ok in H by (assumption || (intros; apply not_elem_of_empty)).
  cbn [obind] in H.
  destruct (layout_index types names Hlen Hnd (length types) 0
              (replicate (length types) 0) 0 ∅) as (o & f & m & Hlay & Hm).
  - lia.
  - apply length_replicate.
  - intros nm j. rewrite lookup_empty. split; [discriminate | lia].
  - rewrite Hlay in H. cbn [obind] in H. injection H as <-. exact Hm.
Qed.

(** X1: in a schema the constructor has returned, [index_of] returns [i]
    exactly for the name of field [i], and throws [out_of_range] for a
    string that names no field. *)
Theorem X1_index_of (types : list type_t) (names : list string) (td : TupleDesc.t) :
  TupleDesc.TupleDesc types names = Ok td ->
  (forall nm i, TupleDesc.index_of td nm = Ok i <-> names !! i = Some nm) /\
  (forall nm, nm ∉ names ->
     TupleDesc.index_of td nm
     = Throw (out_of_range ("TupleDesc::index_of: field not found: " +:+ nm))) /\
  (forall nm i, TupleDesc.index_of td nm = Ok i -> i < TupleDesc.size td).
Proof.
  intros H. pose proof (TupleDesc_name2idx _ _ _ H) as Hm.
  pose proof (TupleDesc_inv _ _ _ H) as (Hlen & _ & Hty & _).
  assert (Hiff : forall nm i, TupleDesc.index_of td nm = Ok i <-> names !! i = Some nm).
  { intros nm i. unfold TupleDesc.index_of. rewrite <- Hm.
    destruct (TupleDesc.name2idx_ td !! nm) as [j|]; split; congruence. }
  split; [exact Hiff|]. split.
  - intros nm Hnm. unfold TupleDesc.index_of.
    destruct (TupleDesc.name2idx_ td !! nm) as [j|] eqn:E; [|reflexivity].
    apply Hm in E. exfalso. apply Hnm. by apply list_elem_of_lookup_2 in E.
  - intros nm i Hi. apply Hiff in Hi. apply lookup_lt_Some in Hi.
    unfold TupleDesc.size. rewrite Hty. lia.
Qed.

(** The names of the example schema. *)
Lemma X1_index_of_witness :
  (forall nm i, TupleDesc.index_of example_td nm = Ok i <-> example_names !! i = Some nm) /\
  (forall nm, nm ∉ example_names ->
     TupleDesc.index_of example_td nm
     = Throw (out_of_range ("TupleDesc::index_of: field not found: " +:+ nm))) /\
  (forall nm i, TupleDesc.index_of example_td nm = Ok i -> i < TupleDesc.size example_td).
Proof.
  apply (X1_index_of example_types example_names example_td).
  vm_compute. reflexivity.
Defined.

(** * Bounds of the layout *)

Lemma widths_take_le (types : list type_t) (i j : nat) :
  i <= j -> widths (take i types) <= widths (take j types).
Proof.
  intros Hij. replace j with (i + (j - i)) by lia.
  rewrite <- take_take_drop, widths_app. lia.
Qed.

Lemma TupleDesc_offsets (types : list type_t) (names : list string) (td : TupleDesc.t) :
  TupleDesc.TupleDesc types names = Ok td ->
  TupleDesc.types_ td = types /\
  (forall i, i < TupleDesc.size td ->
     TupleDesc.offset_of td i = Ok (widths (take i (TupleDesc.types_ td)))) /\
  TupleDesc.length td = widths (TupleDesc.types_ td).
Proof.
  intros H. apply TupleDesc_inv in H as (Hlen & _ & Hty & _ & Hoff & Hl).
  split; [exact Hty|]. split.
  - intros i Hi. unfold TupleDesc.size in Hi. unfold TupleDesc.offset_of.
    rewrite Hoff, length_offsets_from, <- Hty.
    destruct (Nat.leb_spec (length (TupleDesc.types_ td)) i); [lia|].
    apply vec_idx_lookup. by apply lookup_offsets_from.
  - unfold TupleDesc.length. by rewrite Hl, Hty.
Qed.

(** X2: in a schema the constructor has returned, [offset_of] throws
    [out_of_range] exactly for an index that is not below [size()]; the
    bytes of a field end where the next field starts, the bytes of the last
    field end at [length()], and so the byte ranges of two fields never
    overlap. *)
Theorem X2_offset_of (types : list type_t) (names : list string) (td : TupleDesc.t) :
  TupleDesc.TupleDesc types names = Ok td ->
  (forall i, TupleDesc.size td <= i <->
             TupleDesc.offset_of td i
             = Throw (out_of_range "TupleDesc::offset_of: index out of range")) /\
  (forall i ty, types !! i = Some ty ->
     exists o, TupleDesc.offset_of td i = Ok o /\
               o + TupleDesc.size_of ty <= TupleDesc.length td /\
               (S i < TupleDesc.size td ->
                TupleDesc.offset_of td (S i) = Ok (o + TupleDesc.size_of ty)) /\
               (S i = TupleDesc.size td -> o + TupleDesc.size_of ty = TupleDesc.length td)) /\
  (forall i j ty oi oj,
     i < j -> types !! i = Some ty ->
     TupleDesc.offset_of td i = Ok oi -> TupleDesc.offset_of td j = Ok oj ->
     oi + TupleDesc.size_of ty <= oj).
Proof.
  intros H. destruct (TupleDesc_offsets types names td H) as (Hty & Hoff & Hlen).
  assert (Hsize : TupleDesc.size td = length types)
    by (unfold TupleDesc.size; by rewrite Hty).
  assert (Hthrow : forall i, TupleDesc.size td <= i ->
            TupleDesc.offset_of td i
            = Throw (out_of_range "TupleDesc::offset_of: index out of range")).
  { intros i Hi. unfold TupleDesc.offset_of.
    apply TupleDesc_inv in H as (_ & _ & _ & _ & Ho & _).
    rewrite Ho, length_offsets_from.
    destruct (Nat.leb_spec (length types) i); [reflexivity | lia]. }
  split; [|split].
  - intros i. split; [apply Hthrow|]. intros Hi.
    destruct (Nat.le_gt_cases (TupleDesc.size td) i) as [|Hlt]; [assumption|].
    rewrite Hoff in Hi by assumption. discriminate.
  - intros i ty Hi. pose proof (lookup_lt_Some _ _ _ Hi) as Hlt.
    exists (widths (take i types)). rewrite Hoff by lia.
    split; [by rewrite Hty|]. rewrite Hlen, Hty.
    pose proof (widths_take_S _ _ _ Hi) as HS.
    split; [|split].
    + rewrite <- HS. rewrite <- (take_drop (S i) types) at 2. rewrite widths_app. lia.
    + intros HSi. rewrite Hoff by assumption. by rewrite Hty, HS.
    + intros HSi. rewrite <- HS. rewrite take_ge by lia. reflexivity.
  - intros i j ty oi oj Hij Hi Hoi Hoj.
    pose proof (lookup_lt_Some _ _ _ Hi) as Hlt.
    destruct (Nat.le_gt_cases (TupleDesc.size td) j) as [Hge|Hj].
    { rewrite (Hthrow j Hge) in Hoj. discriminate. }
    rewrite Hoff in Hoi by lia. rewrite Hoff in Hoj by lia.
    injection Hoi as <-. injection Hoj as <-. rewrite Hty.
    rewrite <- (widths_take_S _ _ _ Hi). apply widths_take_le. lia.
Qed.

(** The layout of the example schema. *)
Lemma X2_offset_of_witness :
  TupleDesc.offset_of example_td 3
  = Throw (out_of_range "TupleDesc::offset_of: index out of range") /\
  (forall i j ty oi oj,
     i < j -> example_types !! i = Some ty ->
     TupleDesc.offset_of example_td i = Ok oi -> TupleDesc.offset_of example_td j = Ok oj ->
     oi + TupleDesc.size_of ty <= oj).
Proof.
  destruct (X2_offset_of example_types example_names example_td) as (Hthrow & _ & Hdisj).
  - vm_compute. reflexivity.
  - split; [apply Hthrow; vm_compute; lia | exact Hdisj].
Defined.

(** * When the constructor succeeds *)

(** X3: the constructor returns a schema exactly when the two lists have the
    same length and no name repeats; the schema it returns holds the two
    lists as given, its size is their length, and in no case does the
    constructor index a vector out of its bounds. *)
Theorem X3_constructor (types : list type_t) (names : list string) :
  ((exists td, TupleDesc.TupleDesc types names = Ok td) <->
   length types = length names /\ NoDup names) /\
  (forall td, TupleDesc.TupleDesc types names = Ok td ->
     TupleDesc.types_ td = types /\ TupleDesc.names_ td = names /\
     TupleDesc.size td = length names) /\
  TupleDesc.TupleDesc types names ≠ Undefined.
Proof.
  split; [|split].
  - split.
    + intros [td H]. apply TupleDesc_inv in H. tauto.
    + intros [Hlen Hnd]. destruct (TupleDesc_Ok types names Hlen Hnd) as [m Hm]. eauto.
  - intros td H. apply TupleDesc_inv in H as (Hlen & _ & Hty & Hnm & _).
    unfold TupleDesc.size. rewrite Hty. auto.
  - unfold TupleDesc.TupleDesc.
    destruct (Nat.eqb_spec (length types) (length names)) as [Hlen|Hlen]; cbn [negb];
      [|discriminate].
    destruct (decide (NoDup names)) as [Hnd|Hnd].
    + destruct (TupleDesc_Ok types names Hlen Hnd) as [m Hm].
      unfold TupleDesc.TupleDesc in Hm.
      rewrite (proj2 (Nat.eqb_eq _ _) Hlen) in Hm. cbn [negb] in Hm.
      rewrite Hm. discriminate.
    + destruct (check_names_Throw ∅ names) as (n & _ & Hn); [tauto|].
      rewrite Hn. discriminate.
Qed.

(** * What [serialize] writes and what [deserialize] reads *)

(** X4: [serialize] of a compatible tuple into a buffer of at least
    [length()] bytes keeps the size of the buffer, leaves every byte from
    offset [length()] on as it was, and overwrites all of the first
    [length()] bytes: what they hold afterwards does not depend on what the
    buffer held before. *)
Theorem X4_serialize_frame (td : TupleDesc.t) (tu : Tuple.t) (data other : list byte) :
  constructed td ->
  TupleDesc.compatible td tu = Ok true ->
  TupleDesc.length td <= length data ->
  TupleDesc.length td <= length other ->
  fst (TupleDesc.serialize td tu data) = Ok tt /\
  length (snd (TupleDesc.serialize td tu data)) = length data /\
  drop (TupleDesc.length td) (snd (TupleDesc.serialize td tu data))
  = drop (TupleDesc.length td) data /\
  take (TupleDesc.length td) (snd (TupleDesc.serialize td tu data))
  = take (TupleDesc.length td) (snd (TupleDesc.serialize td tu other)).
Proof.
  intros Hc Hcomp Hlen Hlen'.
  destruct (constructed_layout td Hc) as (_ & _ & Hoff & Hl).
  apply compatible_true in Hcomp.
  rewrite !(serialize_Ok td Hoff Hl tu _ Hcomp) by assumption. cbn [fst snd].
  assert (Henc : length (encode_fields (Tuple.fields tu)) = TupleDesc.length td).
  { rewrite length_encode_fields, Hcomp. unfold TupleDesc.length. by rewrite Hl. }
  split; [reflexivity|]. split; [|split].
  - rewrite length_app, length_drop, Henc. lia.
  - by rewrite drop_app_length'.
  - by rewrite !take_app_length'.
Qed.

(** The example tuple stored into two different buffers. *)
Lemma X4_serialize_frame_witness :
  length (snd (TupleDesc.serialize example_td example_tuple example_buffer)) = 80 /\
  drop 76 (snd (TupleDesc.serialize example_td example_tuple example_buffer))
  = replicate 4 xff /\
  take 76 (snd (TupleDesc.serialize example_td example_tuple example_buffer))
  = take 76 (snd (TupleDesc.serialize example_td example_tuple (replicate 100 x00))).
Proof.
  destruct (X4_serialize_frame example_td example_tuple example_buffer (replicate 100 x00))
    as (_ & Hlen & Hdrop & Htake).
  - exact example_td_constructed.
  - vm_compute. reflexivity.
  - vm_compute. lia.
  - vm_compute. lia.
  - split; [exact Hlen|]. split; [exact Hdrop | exact Htake].
Defined.

Lemma decode_field_take (ty : type_t) (bs : list byte) (n : nat) :
  TupleDesc.size_of ty <= n -> decode_field ty (take n bs) = decode_field ty bs.
Proof.
  intros Hn. destruct ty; cbn [decode_field TupleDesc.size_of] in *;
    rewrite take_take, Nat.min_l by lia; reflexivity.
Qed.

Lemma decode_fields_take (types : list type_t) :
  forall bs n, widths types <= n -> decode_fields types (take n bs) = decode_fields types bs.
Proof.
  induction types as [|ty rest IH]; intros bs n Hn; simpl in *; [reflexivity|].
  rewrite decode_field_take by lia. f_equal.
  rewrite <- (IH (drop (TupleDesc.size_of ty) bs) (n - TupleDesc.size_of ty)) by lia.
  f_equal. rewrite take_drop_commute. do 2 f_equal. lia.
Qed.

(** X5: [deserialize] reads only the first [length()] bytes of its buffer:
    two buffers of at least [length()] bytes that agree on them decode to
    the same tuple. *)
Theorem X5_deserialize_prefix (td : TupleDesc.t) (data other : list byte) :
  constructed td ->
  TupleDesc.length td <= length data ->
  TupleDesc.length td <= length other ->
  take (TupleDesc.length td) data = take (TupleDesc.length td) other ->
  TupleDesc.deserialize td data = TupleDesc.deserialize td other /\
  exists tu, TupleDesc.deserialize td data = Ok tu.
Proof.
  intros Hc Hlen Hlen' Hpre.
  destruct (constructed_layout td Hc) as (_ & _ & Hoff & Hl).
  rewrite !(deserialize_Ok td Hoff Hl) by assumption.
  split; [|eauto]. do 2 f_equal.
  unfold TupleDesc.length in Hpre. rewrite Hl in Hpre.
  rewrite <- (decode_fields_take _ data (widths (TupleDesc.types_ td))) by lia.
  rewrite <- (decode_fields_take _ other (widths (TupleDesc.types_ td))) by lia.
  by rewrite Hpre.
Qed.

(** The example buffer, and the same buffer with other bytes after the
    first 76. *)
Lemma X5_deserialize_prefix_witness :
  TupleDesc.deserialize example_td example_buffer
  = TupleDesc.deserialize example_td (replicate 76 xff ++ replicate 9 x00).
Proof.
  apply (X5_deserialize_prefix example_td example_buffer (replicate 76 xff ++ replicate 9 x00)).
  - exact example_td_constructed.
  - vm_compute. lia.
  - vm_compute. lia.
  - vm_compute. reflexivity.
Defined.

(** * Reading a record and storing it again *)

Lemma decode_field_wf (ty : type_t) (bs : list byte) : field_wf (decode_field ty bs).
Proof.
  destruct ty; cbn [decode_field field_wf]; [| |exact I].
  - unfold int_range, int_of_bytes.
    pose proof (le_combine_bound (take INT_SIZE bs)) as Hb.
    assert (Hl : length (take INT_SIZE bs) <= 4) by (rewrite length_take; unfold INT_SIZE; lia).
    assert (2 ^ (8 * Z.of_nat (length (take INT_SIZE bs))) <= 2 ^ 32)%Z
      by (apply Z.pow_le_mono_r; lia).
    destruct (Z.ltb_spec (le_combine (take INT_SIZE bs)) (2 ^ 31)); lia.
  - unfold double_range, double_of_bytes.
    pose proof (le_combine_bound (take DOUBLE_SIZE bs)) as Hb.
    assert (Hl : length (take DOUBLE_SIZE bs) <= 8)
      by (rewrite length_take; unfold DOUBLE_SIZE; lia).
    assert (2 ^ (8 * Z.of_nat (length (take DOUBLE_SIZE bs))) <= 2 ^ 64)%Z
      by (apply Z.pow_le_mono_r; lia).
    lia.
Qed.

Lemma decode_fields_wf (types : list type_t) (bs : list byte) :
  Forall field_wf (decode_fields types bs).
Proof.
  revert bs. induction types as [|ty rest IH]; intros bs; simpl; constructor.
  - apply decode_field_wf.
  - apply IH.
Qed.

Lemma bytes_of_int_of_bytes (bs : list byte) :
  length bs = INT_SIZE -> bytes_of_int (int_of_bytes bs) = bs.
Proof.
  intros Hl. unfold bytes_of_int, int_of_bytes.
  destruct (Z.ltb_spec (le_combine bs) (2 ^ 31)).
  - by apply split_le_combine'.
  - rewrite le_split_mod. unfold INT_SIZE. change (Z.of_nat 4 * 8)%Z with 32%Z.
    replace ((le_combine bs - 2 ^ 32) mod 2 ^ 32)%Z with (le_combine bs mod 2 ^ 32)%Z.
    + change 32%Z with (Z.of_nat 4 * 8)%Z. rewrite <- le_split_mod.
      by apply split_le_combine'.
    + replace (le_combine bs - 2 ^ 32)%Z with (le_combine bs + (-1) * 2 ^ 32)%Z by lia.
      by rewrite Z.mod_add.
Qed.

Lemma encode_decode_field (ty : type_t) (bs : list byte) :
  ty <> CHAR -> TupleDesc.size_of ty <= length bs ->
  encode_field (decode_field ty bs) = take (TupleDesc.size_of ty) bs.
Proof.
  intros Hty Hl. destruct ty; [| |done]; cbn [TupleDesc.size_of decode_field encode_field] in *.
  - apply bytes_of_int_of_bytes. rewrite length_take. lia.
  - unfold bytes_of_double, double_of_bytes. apply split_le_combine'.
    rewrite length_take. lia.
Qed.

Lemma encode_decode_fields (types : list type_t) :
  forall bs, CHAR ∉ types -> widths types <= length bs ->
  encode_fields (decode_fields types bs) = take (widths types) bs.
Proof.
  induction types as [|ty rest IH]; intros bs Hty Hl; simpl in *; [by rewrite take_0|].
  apply not_elem_of_cons in Hty as [Hty Hrest].
  rewrite encode_decode_field by (try congruence; lia).
  rewrite IH by (try assumption; rewrite length_drop; lia).
  rewrite take_drop_commute.
  etrans; [|apply (take_drop (TupleDesc.size_of ty))].
  f_equal. rewrite take_take, Nat.min_l by lia. reflexivity.
Qed.

Lemma stored_decode (types : list type_t) (bs : list byte) :
  stored (Tuple.Tuple (decode_fields types bs)) = Tuple.Tuple (decode_fields types bs).
Proof.
  apply stored_id. cbn [Tuple.fields]. intros i s. apply decode_fields_text.
Qed.

(** X6: a tuple that [deserialize] returns (from any buffer of at least
    [length()] bytes) has every int and double in range and no text longer
    than 64 bytes or with a zero byte; storing it into any large enough
    buffer and reading it back gives exactly that tuple again; and when the
    schema has no text field, storing it back into the buffer it came from
    leaves that buffer as it was. *)
Theorem X6_deserialize_serialize (td : TupleDesc.t) (data : list byte) :
  constructed td ->
  TupleDesc.length td <= length data ->
  exists tu,
    TupleDesc.deserialize td data = Ok tu /\
    Tuple.wf tu /\
    (forall i s, Tuple.fields tu !! i = Some (Str s) -> length s <= CHAR_SIZE /\ x00 ∉ s) /\
    (forall buf, TupleDesc.length td <= length buf ->
       fst (TupleDesc.serialize td tu buf) = Ok tt /\
       TupleDesc.deserialize td (snd (TupleDesc.serialize td tu buf)) = Ok tu) /\
    (CHAR ∉ TupleDesc.types_ td -> TupleDesc.serialize td tu data = (Ok tt, data)).
Proof.
  intros Hc Hlen.
  destruct (constructed_layout td Hc) as (_ & _ & Hoff & Hl).
  exists (Tuple.Tuple (decode_fields (TupleDesc.types_ td) data)).
  assert (Htags : field_tag <$> Tuple.fields (Tuple.Tuple (decode_fields (TupleDesc.types_ td) data))
                  = TupleDesc.types_ td) by apply decode_fields_tags.
  split; [by apply deserialize_Ok|].
  split; [apply decode_fields_wf|].
  split; [intros i s; apply decode_fields_text|].
  split.
  - intros buf Hbuf.
    rewrite (serialize_Ok td Hoff Hl _ buf Htags Hbuf). cbn [fst snd].
    split; [reflexivity|].
    assert (Henc : length (encode_fields (decode_fields (TupleDesc.types_ td) data))
                   = TupleDesc.length td).
    { rewrite length_encode_fields, decode_fields_tags. unfold TupleDesc.length.
      by rewrite Hl. }
    rewrite (deserialize_Ok td Hoff Hl)
      by (rewrite length_app, length_drop; cbn [Tuple.fields]; lia).
    cbn [Tuple.fields]. f_equal.
    rewrite <- (decode_fields_tags (TupleDesc.types_ td) data) at 1.
    rewrite decode_encode_fields by apply decode_fields_wf.
    pose proof (stored_decode (TupleDesc.types_ td) data) as Hst.
    unfold stored in Hst. cbn [Tuple.fields] in Hst. exact Hst.
  - intros Hnum.
    rewrite (serialize_Ok td Hoff Hl _ data Htags Hlen). cbn [Tuple.fields]. f_equal.
    unfold TupleDesc.length in *. rewrite Hl in *.
    rewrite encode_decode_fields by assumption.
    apply take_drop.
Qed.

(** The example buffer read with the example schema. *)
Lemma X6_deserialize_serialize_witness :
  exists tu,
    TupleDesc.deserialize example_td example_buffer = Ok tu /\
    TupleDesc.deserialize example_td
      (snd (TupleDesc.serialize example_td tu (replicate 76 x00))) = Ok tu.
Proof.
  destruct (X6_deserialize_serialize example_td example_buffer) as (tu & Hd & _ & _ & Hrt & _).
  - exact example_td_constructed.
  - vm_compute. lia.
  - exists tu. split; [exact Hd|]. apply Hrt. vm_compute. lia.
Defined.

(** * Merged schemas *)

Lemma index_of_lookup (td : TupleDesc.t) (nm : string) (i : nat) :
  constructed td ->
  TupleDesc.index_of td nm = Ok i <-> TupleDesc.names_ td !! i = Some nm.
Proof.
  intros (types & names & H).
  pose proof (TupleDesc_name2idx _ _ _ H) as Hm.
  apply TupleDesc_inv in H as (_ & _ & _ & -> & _).
  unfold TupleDesc.index_of. rewrite <- Hm.
  destruct (TupleDesc.name2idx_ td !! nm) as [j|]; split; congruence.
Qed.

Lemma offset_of_spec (td : TupleDesc.t) (i : nat) :
  constructed td ->
  TupleDesc.offset_of td i
  = if TupleDesc.size td <=? i
    then Throw (out_of_range "TupleDesc::offset_of: index out of range")
    else Ok (widths (take i (TupleDesc.types_ td))).
Proof.
  intros Hc. pose proof Hc as (types & names & H).
  destruct (TupleDesc_offsets _ _ _ H) as (_ & Hoff & _).
  destruct (constructed_layout td Hc) as (_ & _ & Ho & _).
  destruct (Nat.leb_spec (TupleDesc.size td) i) as [Hge|Hlt].
  - unfold TupleDesc.offset_of. rewrite Ho, length_offsets_from.
    unfold TupleDesc.size in Hge. by rewrite (proj2 (Nat.leb_le _ _) Hge).
  - by apply Hoff.
Qed.

Lemma merge_inv (td1 td2 td : TupleDesc.t) :
  constructed td1 -> constructed td2 ->
  TupleDesc.merge td1 td2 = Ok td ->
  constructed td /\
  TupleDesc.types_ td = TupleDesc.types_ td1 ++ TupleDesc.types_ td2 /\
  TupleDesc.names_ td = TupleDesc.names_ td1 ++ TupleDesc.names_ td2.
Proof.
  intros H1 H2 Hm. rewrite merge_spec in Hm by assumption.
  split; [by eexists _, _|].
  apply TupleDesc_inv in Hm as (_ & _ & -> & -> & _). done.
Qed.

Lemma constructed_length (td : TupleDesc.t) :
  constructed td -> TupleDesc.length td = widths (TupleDesc.types_ td).
Proof. intros Hc. by destruct (constructed_layout td Hc) as (_ & _ & _ & Hl). Qed.

Lemma constructed_sizes (td : TupleDesc.t) :
  constructed td -> length (TupleDesc.names_ td) = TupleDesc.size td.
Proof. intros Hc. by destruct (constructed_layout td Hc) as (Hl & _). Qed.

(** X7: in the schema that [merge] returns, the fields of the first schema
    keep their indices and offsets, the fields of the second schema follow
    with their indices moved by the size of the first and their offsets by
    its length, and the record length is the sum of the two lengths. *)
Theorem X7_merge_layout (td1 td2 td : TupleDesc.t) :
  constructed td1 -> constructed td2 ->
  TupleDesc.merge td1 td2 = Ok td ->
  TupleDesc.length td = TupleDesc.length td1 + TupleDesc.length td2 /\
  (forall nm i, TupleDesc.index_of td1 nm = Ok i -> TupleDesc.index_of td nm = Ok i) /\
  (forall nm j, TupleDesc.index_of td2 nm = Ok j ->
     TupleDesc.index_of td nm = Ok (TupleDesc.size td1 + j)) /\
  (forall i o, TupleDesc.offset_of td1 i = Ok o -> TupleDesc.offset_of td i = Ok o) /\
  (forall j o, TupleDesc.offset_of td2 j = Ok o ->
     TupleDesc.offset_of td (TupleDesc.size td1 + j) = Ok (TupleDesc.length td1 + o)).
Proof.
  intros H1 H2 Hm. destruct (merge_inv td1 td2 td H1 H2 Hm) as (Hc & Hty & Hnm).
  assert (Hsz : TupleDesc.size td = TupleDesc.size td1 + TupleDesc.size td2)
    by (unfold TupleDesc.size; rewrite Hty; apply length_app).
  split; [|split; [|split; [|split]]].
  - rewrite !constructed_length by assumption. rewrite Hty. apply widths_app.
  - intros nm i Hi. apply index_of_lookup in Hi; [|assumption].
    apply index_of_lookup; [assumption|]. rewrite Hnm. by apply lookup_app_l_Some.
  - intros nm j Hj. apply index_of_lookup in Hj; [|assumption].
    apply index_of_lookup; [assumption|]. rewrite Hnm.
    rewrite <- (constructed_sizes td1 H1). rewrite lookup_app_r by lia.
    rewrite <- Hj. f_equal. lia.
  - intros i o. rewrite !offset_of_spec by assumption.
    destruct (Nat.leb_spec (TupleDesc.size td1) i) as [|Hlt]; [discriminate|].
    intros [= <-]. rewrite (proj2 (Nat.leb_gt _ _)) by lia.
    rewrite Hty, take_app_le by (unfold TupleDesc.size in Hlt; lia). reflexivity.
  - intros j o. rewrite !offset_of_spec by assumption.
    destruct (Nat.leb_spec (TupleDesc.size td2) j) as [|Hlt]; [discriminate|].
    intros [= <-]. rewrite (proj2 (Nat.leb_gt _ _)) by lia.
    rewrite Hty. unfold TupleDesc.size. rewrite take_app_add', widths_app by reflexivity.
    by rewrite constructed_length.
Qed.

Lemma extension_td_constructed : constructed extension_td.
Proof. exists [DOUBLE; INT], ["weight"; "age"]%string. vm_compute. reflexivity. Qed.

(** The example schema merged with a schema of two more fields: the field
    [age] is field 4 at offset 84, and a record has 88 bytes. *)
Lemma X7_merge_layout_witness :
  TupleDesc.length merged_td = 88 /\
  TupleDesc.index_of merged_td "age" = Ok 4 /\
  TupleDesc.offset_of merged_td 4 = Ok 84.
Proof.
  destruct (X7_merge_layout example_td extension_td merged_td)
    as (Hlen & _ & Hidx & _ & Hoff).
  - exact example_td_constructed.
  - exact extension_td_constructed.
  - vm_compute. reflexivity.
  - split; [exact Hlen|]. split.
    + apply (Hidx "age"%string 1). vm_compute. reflexivity.
    + apply (Hoff 1 8). vm_compute. reflexivity.
Defined.

Lemma decode_fields_app (t1 t2 : list type_t) (bs : list byte) :
  decode_fields (t1 ++ t2) bs
  = decode_fields t1 bs ++ decode_fields t2 (drop (widths t1) bs).
Proof.
  revert bs. induction t1 as [|ty t1 IH]; intros bs; simpl; [by rewrite drop_0|].
  by rewrite IH, drop_drop.
Qed.

Lemma encode_fields_app (f1 f2 : list field_t) :
  encode_fields (f1 ++ f2) = encode_fields f1 ++ encode_fields f2.
Proof.
  induction f1 as [|f f1 IH]; simpl; [reflexivity|]. by rewrite IH, app_assoc.
Qed.

(** X8: a record of a merged schema is a record of the first schema
    followed by a record of the second. Reading it gives the fields read
    with the first schema from the buffer, followed by the fields read with
    the second schema [length()] of the first bytes further on; storing the
    fields of two compatible tuples one after the other is storing the first
    tuple and then the second at that offset. *)
Theorem X8_merge_records (td1 td2 td : TupleDesc.t) (data : list byte) :
  constructed td1 -> constructed td2 ->
  TupleDesc.merge td1 td2 = Ok td ->
  TupleDesc.length td <= length data ->
  (exists tu1 tu2,
     TupleDesc.deserialize td1 data = Ok tu1 /\
     TupleDesc.deserialize td2 (drop (TupleDesc.length td1) data) = Ok tu2 /\
     TupleDesc.deserialize td data = Ok (Tuple.Tuple (Tuple.fields tu1 ++ Tuple.fields tu2))) /\
  (forall tu1 tu2,
     TupleDesc.compatible td1 tu1 = Ok true ->
     TupleDesc.compatible td2 tu2 = Ok true ->
     TupleDesc.compatible td (Tuple.Tuple (Tuple.fields tu1 ++ Tuple.fields tu2)) = Ok true /\
     TupleDesc.serialize td (Tuple.Tuple (Tuple.fields tu1 ++ Tuple.fields tu2)) data
     = (let! _ := TupleDesc.serialize td1 tu1 in
        at_offset (TupleDesc.length td1) (TupleDesc.serialize td2 tu2)) data).
Proof.
  intros H1 H2 Hm Hlen. destruct (merge_inv td1 td2 td H1 H2 Hm) as (Hc & Hty & Hnm).
  destruct (constructed_layout td1 H1) as (_ & _ & Hoff1 & Hl1).
  destruct (constructed_layout td2 H2) as (_ & _ & Hoff2 & Hl2).
  destruct (constructed_layout td Hc) as (_ & _ & Hoff & Hl).
  assert (Hsum : TupleDesc.length td = TupleDesc.length td1 + TupleDesc.length td2).
  { rewrite !constructed_length by assumption. rewrite Hty. apply widths_app. }
  split.
  - eexists _, _. split; [|split].
    + apply (deserialize_Ok td1 Hoff1 Hl1). lia.
    + apply (deserialize_Ok td2 Hoff2 Hl2). rewrite length_drop. lia.
    + rewrite (deserialize_Ok td Hoff Hl) by assumption. cbn [Tuple.fields].
      rewrite Hty, decode_fields_app. by rewrite (constructed_length td1).
  - intros tu1 tu2 Hc1 Hc2. apply compatible_true in Hc1, Hc2.
    assert (Htags : field_tag <$> Tuple.fields (Tuple.Tuple (Tuple.fields tu1 ++ Tuple.fields tu2))
                    = TupleDesc.types_ td).
    { cbn [Tuple.fields]. by rewrite fmap_app, Hc1, Hc2. }
    split; [by apply compatible_true|].
    rewrite (serialize_Ok td Hoff Hl _ data Htags Hlen). cbn [Tuple.fields].
    unfold pbind. rewrite (serialize_Ok td1 Hoff1 Hl1 tu1 data Hc1) by lia.
    assert (Henc1 : length (encode_fields (Tuple.fields tu1)) = TupleDesc.length td1).
    { by rewrite length_encode_fields, Hc1, constructed_length. }
    unfold at_offset. rewrite length_app, length_drop.
    rewrite (proj2 (Nat.leb_le _ _)) by lia.
    rewrite drop_app_length', take_app_length' by done.
    rewrite (serialize_Ok td2 Hoff2 Hl2 tu2 _ Hc2) by (rewrite length_drop; lia).
    rewrite encode_fields_app, drop_drop, <- app_assoc, Hsum. reflexivity.
Qed.

(** The example tuple followed by a tuple of the second schema, in a buffer
    of 88 zero bytes. *)
Lemma X8_merge_records_witness :
  TupleDesc.serialize merged_td
    (Tuple.Tuple (Tuple.fields example_tuple ++ Tuple.fields extension_tuple))
    (replicate 88 x00)
  = (let! _ := TupleDesc.serialize example_td example_tuple in
     at_offset (TupleDesc.length example_td)
       (TupleDesc.serialize extension_td extension_tuple)) (replicate 88 x00).
Proof.
  destruct (X8_merge_records example_td extension_td merged_td (replicate 88 x00))
    as (_ & Hser).
  - exact example_td_constructed.
  - exact extension_td_constructed.
  - vm_compute. reflexivity.
  - vm_compute. lia.
  - apply (Hser example_tuple extension_tuple); vm_compute; reflexivity.
Defined.

(** * Reading at a locator *)

Lemma HeapPage_getTuple_live (td : TupleDesc.t) (pg : Page) (s : nat) :
  constructed td ->
  length pg = DEFAULT_PAGE_SIZE ->
  s < HeapPage.capacity td ->
  HeapPage.live pg s = true ->
  HeapPage.getTuple td pg s
  = Ok (Tuple.Tuple (decode_fields (TupleDesc.types_ td) (drop (HeapPage.slot_offset td s) pg))).
Proof.
  intros Hc Hlen Hs Hlive.
  destruct (constructed_layout td Hc) as (_ & _ & Hoff & Hl).
  destruct (slot_in_page td s Hs) as (_ & _ & Hfit).
  unfold HeapPage.getTuple.
  destruct (Nat.leb_spec (HeapPage.capacity td) s); [lia|].
  rewrite Hlive. cbn [negb].
  apply (deserialize_Ok td Hoff Hl). rewrite length_drop. lia.
Qed.

Lemma HeapPage_getTuple_defined (td : TupleDesc.t) (pg : Page) (s : nat) :
  constructed td ->
  length pg = DEFAULT_PAGE_SIZE ->
  HeapPage.getTuple td pg s <> Undefined.
Proof.
  intros Hc Hlen.
  destruct (Nat.leb_spec (HeapPage.capacity td) s) as [Hge|Hlt].
  - unfold HeapPage.getTuple. by rewrite (proj2 (Nat.leb_le _ _) Hge).
  - destruct (HeapPage.live pg s) eqn:Hlive.
    + by rewrite HeapPage_getTuple_live.
    + unfold HeapPage.getTuple. rewrite (proj2 (Nat.leb_gt _ _) Hlt), Hlive. done.
Qed.

(** X9: in a file whose pages have the page size, [getTuple] returns a
    tuple exactly at the locators of live slots (the locators a scan
    visits); the tuple it returns is compatible with the schema of the file;
    at every other locator it throws, and its behaviour is never undefined;
    in no case does it change a page. *)
Theorem X9_getTuple_live (f : DbFile.t) (it : HeapFile.Iterator) :
  constructed (DbFile.td f) ->
  wf_file f ->
  ((exists t, fst (HeapFile.getTuple it f) = Ok t) <-> is_live f it) /\
  (forall t, fst (HeapFile.getTuple it f) = Ok t ->
     TupleDesc.compatible (DbFile.td f) t = Ok true) /\
  (~ is_live f it -> exists e, fst (HeapFile.getTuple it f) = Throw e) /\
  same_store f (snd (HeapFile.getTuple it f)).
Proof.
  intros Hc Hwf.
  assert (Hread : forall pg, DbFile.pages f !! HeapFile.page it = Some pg ->
            HeapFile.slot it < HeapPage.capacity (DbFile.td f) ->
            HeapPage.live pg (HeapFile.slot it) = true ->
            fst (HeapFile.getTuple it f)
            = Ok (Tuple.Tuple (decode_fields (TupleDesc.types_ (DbFile.td f))
                    (drop (HeapPage.slot_offset (DbFile.td f) (HeapFile.slot it)) pg)))).
  { intros pg Hpg Hs Hlive. rewrite (getTuple_in_range f it pg Hpg). cbn [fst].
    apply HeapPage_getTuple_live; try assumption.
    exact (proj1 (Forall_lookup _ _) Hwf _ _ Hpg). }
  assert (Hiff : (exists t, fst (HeapFile.getTuple it f) = Ok t) <-> is_live f it).
  { split; [intros [t Ht]; by apply getTuple_Ok_live in Ht|].
    intros (pg & Hpg & Hs & Hlive). eexists. by apply (Hread pg). }
  split; [exact Hiff|]. split; [|split].
  - intros t Ht. destruct (getTuple_Ok_live f it t Ht) as (pg & Hpg & Hs & Hlive).
    rewrite (Hread pg Hpg Hs Hlive) in Ht. injection Ht as <-.
    apply compatible_true. cbn [Tuple.fields]. apply decode_fields_tags.
  - intros Hdead.
    destruct (DbFile.pages f !! HeapFile.page it) as [pg|] eqn:Hpg.
    + rewrite (getTuple_in_range f it pg Hpg). cbn [fst].
      pose proof (HeapPage_getTuple_defined (DbFile.td f) pg (HeapFile.slot it) Hc
                    (proj1 (Forall_lookup _ _) Hwf _ _ Hpg)) as Hdef.
      destruct (HeapPage.getTuple _ pg _) as [t|e|] eqn:E; [|eauto|done].
      exfalso. apply Hdead, Hiff. exists t.
      rewrite (getTuple_in_range f it pg Hpg). exact E.
    + apply lookup_ge_None in Hpg.
      unfold HeapFile.getTuple, pbind, DbFile.getNumPages.
      rewrite (proj2 (Nat.leb_le _ _) Hpg). eauto.
  - destruct (DbFile.pages f !! HeapFile.page it) as [pg|] eqn:Hpg.
    + rewrite (getTuple_in_range f it pg Hpg). apply same_store_logged.
    + apply lookup_ge_None in Hpg.
      unfold HeapFile.getTuple, pbind, DbFile.getNumPages.
      rewrite (proj2 (Nat.leb_le _ _) Hpg). apply same_store_refl.
Qed.

(** The file of three pages, at the live slot 1 of page 2. *)
Lemma X9_getTuple_live_witness :
  (exists t, fst (HeapFile.getTuple (HeapFile.Build_Iterator 2 1) example_scan_file) = Ok t) <->
  is_live example_scan_file (HeapFile.Build_Iterator 2 1).
Proof.
  apply (X9_getTuple_live example_scan_file (HeapFile.Build_Iterator 2 1)).
  - exact example_td_constructed.
  - exact example_scan_file_wf.
Defined.

(** * The position [next] and [begin] return *)

Lemma elem_of_locators_after (f : DbFile.t) (p s : nat) (x : HeapFile.Iterator) :
  x ∈ locators_after (DbFile.td f) (DbFile.pages f) p s <->
  is_live f x /\ p < length (DbFile.pages f) /\
  (p < HeapFile.page x \/ (HeapFile.page x = p /\ s <= HeapFile.slot x)).
Proof.
  unfold locators_after, is_live.
  destruct (DbFile.pages f !! p) as [pg|] eqn:Hpg.
  - pose proof (lookup_lt_Some _ _ _ Hpg) as Hp.
    rewrite elem_of_app, elem_of_pages_from. unfold page_locators.
    rewrite list_elem_of_fmap. split.
    + intros [(j & -> & Hj)|(pg' & Hle & Hpg' & Hs & Hl)].
      * apply elem_of_live_slots_from in Hj as [Hj Hl]. cbn [HeapFile.page HeapFile.slot].
        split; [exists pg; split; [assumption | split; [lia | assumption]]|].
        split; [assumption|]. right. lia.
      * rewrite lookup_drop in Hpg'.
        replace (S p + (HeapFile.page x - S p)) with (HeapFile.page x) in Hpg' by lia.
        split; [by exists pg'|]. split; [assumption|]. left. lia.
    + intros ((pg' & Hpg' & Hs & Hl) & _ & [Hlt|[Heq Hle]]).
      * right. exists pg'. split; [lia|]. split; [|by split].
        rewrite lookup_drop.
        by replace (S p + (HeapFile.page x - S p)) with (HeapFile.page x) by lia.
      * left. exists (HeapFile.slot x). split; [destruct x; simpl in *; by subst|].
        rewrite Heq, Hpg in Hpg'. injection Hpg' as <-.
        apply elem_of_live_slots_from. split; [lia | assumption].
  - apply lookup_ge_None in Hpg. split.
    + intros H. by apply elem_of_nil in H.
    + intros (_ & Hp & _). lia.
Qed.

Lemma locators_after_sorted (td : TupleDesc.t) (pages : list Page) (p s : nat) :
  StronglySorted locator_lt (locators_after td pages p s).
Proof.
  unfold locators_after. destruct (pages !! p) as [pg|]; [|constructor].
  apply StronglySorted_app_2; [| |apply pages_from_sorted].
  - intros a b Ha Hb. unfold page_locators in Ha.
    apply list_elem_of_fmap in Ha as (x & -> & _).
    apply elem_of_pages_from in Hb as (_ & Hb & _).
    left. cbn [HeapFile.page]. lia.
  - unfold page_locators. eapply StronglySorted_fmap; [|apply live_slots_from_sorted].
    intros x y Hxy. right. cbn [HeapFile.page HeapFile.slot]. by split.
Qed.

(** The head of a sorted list is its least element. *)
Lemma hd_sorted_least (d : HeapFile.Iterator) (l : list HeapFile.Iterator) :
  StronglySorted locator_lt l ->
  (l = [] /\ hd d l = d) \/
  (hd d l ∈ l /\ forall x, x ∈ l -> x = hd d l \/ locator_lt (hd d l) x).
Proof.
  intros Hs. destruct l as [|a l]; [by left|]. right. cbn [hd].
  split; [apply elem_of_cons; by left|].
  intros x [->|Hx]%elem_of_cons; [by left|]. right.
  apply StronglySorted_inv in Hs as [_ Ha].
  exact (proj1 (Forall_forall _ _) Ha x Hx).
Qed.

Lemma locator_after (p s : nat) (x : HeapFile.Iterator) :
  locator_lt (HeapFile.Build_Iterator p s) x <->
  p < HeapFile.page x \/ (HeapFile.page x = p /\ S s <= HeapFile.slot x).
Proof. unfold locator_lt. cbn [HeapFile.page HeapFile.slot]. lia. Qed.

(** X10: at a locator whose page index is below the page count (of a live
    slot or not), [next] returns the least locator of a live slot that is
    greater than it in the order by page and then slot, and the sentinel
    (page count, 0) when no live slot is greater; the pages are as they
    were. *)
Theorem X10_next_least (f : DbFile.t) (it : HeapFile.Iterator) :
  HeapFile.page it < length (DbFile.pages f) ->
  exists it' f',
    HeapFile.next it f = (Ok it', f') /\ same_store f f' /\
    ((is_live f it' /\ locator_lt it it' /\
      forall x, is_live f x -> locator_lt it x -> x = it' \/ locator_lt it' x) \/
     (it' = sentinel f /\ forall x, is_live f x -> ~ locator_lt it x)).
Proof.
  intros Hp. destruct (HeapFile_next_spec f it Hp) as (f' & Hnext & Hsame).
  eexists _, f'. split; [exact Hnext|]. split; [exact Hsame|].
  set (l := locators_after (DbFile.td f) (DbFile.pages f) (HeapFile.page it)
              (S (HeapFile.slot it))).
  assert (Hin : forall x, x ∈ l <-> is_live f x /\ locator_lt it x).
  { intros x. unfold l. rewrite elem_of_locators_after.
    destruct it as [p s]. rewrite locator_after. cbn [HeapFile.page HeapFile.slot] in *.
    tauto. }
  destruct (hd_sorted_least (sentinel f) l) as [[Hnil Hhd]|[Hhd Hleast]].
  - apply locators_after_sorted.
  - right. split; [exact Hhd|]. intros x Hx Hlt.
    assert (Hxl : x ∈ l) by (by apply Hin). rewrite Hnil in Hxl. by apply elem_of_nil in Hxl.
  - left. apply Hin in Hhd as [Hlive Hlt]. split; [exact Hlive|]. split; [exact Hlt|].
    intros x Hx Hxlt. apply Hleast, Hin. by split.
Qed.

(** [next] at the dead slot 1 of page 0 of the file of three pages. *)
Lemma X10_next_least_witness :
  exists it' f',
    HeapFile.next (HeapFile.Build_Iterator 0 1) example_scan_file = (Ok it', f') /\
    same_store example_scan_file f' /\
    ((is_live example_scan_file it' /\ locator_lt (HeapFile.Build_Iterator 0 1) it' /\
      forall x, is_live example_scan_file x -> locator_lt (HeapFile.Build_Iterator 0 1) x ->
                x = it' \/ locator_lt it' x) \/
     (it' = sentinel example_scan_file /\
      forall x, is_live example_scan_file x -> ~ locator_lt (HeapFile.Build_Iterator 0 1) x)).
Proof.
  apply (X10_next_least example_scan_file (HeapFile.Build_Iterator 0 1)).
  vm_compute. lia.
Defined.

(** X11: [begin] returns the least locator of a live slot, and [end()]
    exactly when the file has no live slot; the pages are as they were. *)
Theorem X11_begin_least (f : DbFile.t) :
  exists it f',
    HeapFile.begin f = (Ok it, f') /\ same_store f f' /\
    (it = sentinel f <-> forall x, ~ is_live f x) /\
    (it <> sentinel f ->
     is_live f it /\ forall x, is_live f x -> x = it \/ locator_lt it x) /\
    fst (HeapFile.end_ f) = Ok (sentinel f).
Proof.
  destruct (HeapFile_begin_spec f) as (f' & Hbegin & Hsame).
  eexists _, f'. split; [exact Hbegin|]. split; [exact Hsame|].
  assert (Hsent : ~ is_live f (sentinel f)).
  { intros (pg & Hpg & _). apply lookup_lt_Some in Hpg.
    unfold sentinel in Hpg. cbn [HeapFile.page] in Hpg. lia. }
  destruct (hd_sorted_least (sentinel f) (live_locators f)) as [[Hnil Hhd]|[Hhd Hleast]].
  - apply pages_from_sorted.
  - rewrite Hhd. split; [|split; [done | reflexivity]].
    split; [|done]. intros _ x Hx. apply elem_of_live_locators in Hx.
    rewrite Hnil in Hx. by apply elem_of_nil in Hx.
  - pose proof (proj1 (elem_of_live_locators f _) Hhd) as Hlive.
    split; [|split; [|reflexivity]].
    + split; [intros Heq; rewrite Heq in Hlive; contradiction|].
      intros Hnone. exfalso. exact (Hnone _ Hlive).
    + intros _. split; [exact Hlive|]. intros x Hx. apply Hleast.
      by apply elem_of_live_locators.
Qed.

(** * What a change of one slot leaves alone *)

Lemma get_set_bit_ne (b : byte) (k k' : nat) (v : bool) :
  k' < 8 -> k <> k' -> HeapPage.get_bit (HeapPage.set_bit b k v) k' = HeapPage.get_bit b k'.
Proof.
  intros Hk Hne. unfold HeapPage.get_bit, HeapPage.set_bit.
  rewrite byte.unsigned_of_Z. unfold byte.wrap.
  rewrite Z.mod_pow2_bits_low by lia.
  destruct v.
  - rewrite Z.lor_spec, Z.shiftl_1_l, Z.pow2_bits_false by lia. apply orb_false_r.
  - rewrite Z.ldiff_spec, Z.shiftl_1_l, Z.pow2_bits_false by lia. apply andb_true_r.
Qed.

Lemma live_mark (pg : Page) (s : nat) (b : byte) (v : bool) :
  pg !! (s / 8) = Some b ->
  HeapPage.live (<[s / 8 := HeapPage.set_bit b (7 - s mod 8) v]> pg) s = v /\
  forall j, j <> s ->
    HeapPage.live (<[s / 8 := HeapPage.set_bit b (7 - s mod 8) v]> pg) j = HeapPage.live pg j.
Proof.
  intros Hb. pose proof (lookup_lt_Some _ _ _ Hb) as Hlt. unfold HeapPage.live, Page in *.
  split.
  - rewrite list_lookup_insert_eq by assumption. apply get_set_bit. lia.
  - intros j Hj. destruct (decide (j / 8 = s / 8)) as [Heq|Hne].
    + rewrite Heq, list_lookup_insert_eq, Hb by assumption.
      apply get_set_bit_ne.
      * pose proof (Nat.mod_upper_bound j 8). lia.
      * pose proof (Nat.div_mod_eq j 8). pose proof (Nat.div_mod_eq s 8).
        pose proof (Nat.mod_upper_bound j 8). pose proof (Nat.mod_upper_bound s 8). lia.
    + by rewrite list_lookup_insert_ne.
Qed.

Lemma fst_getTuple (f : DbFile.t) (it : HeapFile.Iterator) :
  fst (HeapFile.getTuple it f)
  = match DbFile.pages f !! HeapFile.page it with
    | Some pg => HeapPage.getTuple (DbFile.td f) pg (HeapFile.slot it)
    | None => Throw (out_of_range "HeapFile::getTuple: page out of range")
    end.
Proof.
  destruct (DbFile.pages f !! HeapFile.page it) as [pg|] eqn:Hpg.
  - by rewrite (getTuple_in_range f it pg Hpg).
  - apply lookup_ge_None in Hpg.
    unfold HeapFile.getTuple, pbind, DbFile.getNumPages.
    by rewrite (proj2 (Nat.leb_le _ _) Hpg).
Qed.




(** * What an insert leaves alone *)

Lemma lookup_splice_ne (off : nat) (bs data : list byte) (i : nat) :
  off + length bs <= length data ->
  i < off \/ off + length bs <= i ->
  splice off bs data !! i = data !! i.
Proof.
  intros Hlen Hi. unfold splice.
  assert (Ht : length (take off data) = off) by (rewrite length_take; lia).
  destruct Hi as [Hlt|Hge].
  - rewrite lookup_app_l by lia. by apply lookup_take_lt.
  - rewrite lookup_app_r by lia. rewrite lookup_app_r by lia.
    rewrite lookup_drop, Ht. f_equal. lia.
Qed.

(** The slots of a page do not overlap. *)
Lemma slots_apart (td : TupleDesc.t) (s j i : nat) :
  j <> s -> i < TupleDesc.length td ->
  HeapPage.slot_offset td j + i < HeapPage.slot_offset td s \/
  HeapPage.slot_offset td s + TupleDesc.length td <= HeapPage.slot_offset td j + i.
Proof.
  intros Hne Hi. unfold HeapPage.slot_offset.
  destruct (Nat.lt_ge_cases j s) as [Hlt|Hge].
  - left. assert (S j * TupleDesc.length td <= s * TupleDesc.length td)
      by (apply Nat.mul_le_mono_r; lia). lia.
  - right. assert (S s * TupleDesc.length td <= j * TupleDesc.length td)
      by (apply Nat.mul_le_mono_r; lia). lia.
Qed.

(** [insertTuple] of a page with a dead slot: the slot it claims is the
    lowest dead one, and the other slots are as they were. *)
Lemma HeapPage_insertTuple_frame (td : TupleDesc.t) (tu : Tuple.t) (pg : Page) :
  constructed td ->
  TupleDesc.compatible td tu = Ok true ->
  Tuple.wf tu ->
  length pg = DEFAULT_PAGE_SIZE ->
  has_free_slot td pg ->
  exists pg',
    HeapPage.insertTuple td tu pg = (Ok true, pg') /\
    length pg' = DEFAULT_PAGE_SIZE /\
    HeapPage.live pg' (HeapPage.find_slot pg false 0 (HeapPage.capacity td)) = true /\
    HeapPage.getTuple td pg' (HeapPage.find_slot pg false 0 (HeapPage.capacity td))
    = Ok (stored tu) /\
    (forall j, j < HeapPage.capacity td ->
       j <> HeapPage.find_slot pg false 0 (HeapPage.capacity td) ->
       HeapPage.live pg' j = HeapPage.live pg j /\
       HeapPage.getTuple td pg' j = HeapPage.getTuple td pg j).
Proof.
  intros Hc Hcomp Hwf Hlen Hfree.
  destruct (insertTuple_free td tu pg Hc Hcomp Hwf Hlen Hfree) as (pg' & Hins & Hlen' & Hget).
  exists pg'. split; [exact Hins|]. split; [exact Hlen'|].
  destruct (constructed_layout td Hc) as (_ & _ & Hoff & Hl).
  pose proof (proj1 (compatible_true td tu) Hcomp) as Htags.
  pose proof (find_slot_free td pg Hfree) as Hs.
  set (s := HeapPage.find_slot pg false 0 (HeapPage.capacity td)) in *.
  destruct (slot_in_page td s Hs) as (Hbyte & Hhdr & Hslot).
  destruct (lookup_lt_is_Some_2 pg (s / 8)) as [b Hb]; [lia|].
  set (pg1 := <[s / 8 := HeapPage.set_bit b (7 - s mod 8) true]> pg).
  assert (Hlen1 : length pg1 = DEFAULT_PAGE_SIZE).
  { unfold pg1. etrans; [apply length_insert | exact Hlen]. }
  assert (Henc : length (encode_fields (Tuple.fields tu)) = TupleDesc.length td).
  { rewrite length_encode_fields, Htags. unfold TupleDesc.length. by rewrite Hl. }
  assert (Hpg' : pg' = splice (HeapPage.slot_offset td s) (encode_fields (Tuple.fields tu)) pg1).
  { unfold HeapPage.insertTuple in Hins. fold s in Hins.
    rewrite (proj2 (Nat.ltb_lt _ _) Hs) in Hins.
    unfold pbind at 1, HeapPage.mark in Hins. unfold Page in *. rewrite Hb in Hins.
    fold pg1 in Hins. unfold pbind at 1, at_offset in Hins.
    rewrite (proj2 (Nat.leb_le (HeapPage.slot_offset td s) (length pg1))) in Hins by lia.
    rewrite (serialize_Ok td Hoff Hl tu _ Htags) in Hins by (rewrite length_drop; lia).
    unfold pret in Hins. injection Hins as <-.
    unfold splice. rewrite Henc, drop_drop. reflexivity. }
  destruct (live_mark pg s b true Hb) as [Hlive1 Hothers1]. fold pg1 in Hlive1, Hothers1.
  assert (Hhead : forall j, j < HeapPage.capacity td -> HeapPage.live pg' j = HeapPage.live pg1 j).
  { intros j Hj. destruct (slot_in_page td j Hj) as (Hjb & _).
    unfold HeapPage.live. unfold Page in *. rewrite Hpg'.
    rewrite lookup_splice_ne by lia. reflexivity. }
  split; [by rewrite Hhead|]. split; [exact Hget|].
  intros j Hj Hne.
  assert (Hlj : HeapPage.live pg' j = HeapPage.live pg j) by (by rewrite Hhead, Hothers1).
  split; [exact Hlj|].
  unfold HeapPage.getTuple. rewrite Hlj.
  destruct (HeapPage.capacity td <=? j); [reflexivity|].
  destruct (negb (HeapPage.live pg j)); [reflexivity|].
  destruct (slot_in_page td j Hj) as (_ & Hjh & Hjfit).
  rewrite !(deserialize_Ok td Hoff Hl) by (rewrite length_drop; lia).
  do 2 f_equal.
  rewrite <- (decode_fields_take _ (drop _ pg') (TupleDesc.length td))
    by (unfold TupleDesc.length; lia).
  rewrite <- (decode_fields_take _ (drop _ pg) (TupleDesc.length td))
    by (unfold TupleDesc.length; lia).
  f_equal. apply list_eq. intros i.
  destruct (Nat.lt_ge_cases i (TupleDesc.length td)) as [Hi|Hi].
  - rewrite !lookup_take_lt, !lookup_drop by assumption.
    rewrite Hpg', lookup_splice_ne by (rewrite ?Henc; try lia; by apply slots_apart).
    unfold pg1. unfold Page in *. rewrite list_lookup_insert_ne by lia. reflexivity.
  - by rewrite !lookup_take_ge.
Qed.

Lemma find_slot_zero_page (td : TupleDesc.t) :
  HeapPage.find_slot zero_page false 0 (HeapPage.capacity td) = 0.
Proof.
  destruct (find_slot_spec zero_page false (HeapPage.capacity td) 0) as (_ & _ & Hb).
  destruct (HeapPage.find_slot zero_page false 0 (HeapPage.capacity td)) as [|r];
    [reflexivity|].
  specialize (Hb 0 ltac:(lia)). rewrite live_zero_page in Hb. discriminate.
Qed.

(** [insertTuple] of a file whose last page takes the tuple. *)
Lemma HeapFile_insertTuple_last (f : DbFile.t) (tu : Tuple.t) (last_page pg' : Page) :
  TupleDesc.compatible (DbFile.td f) tu = Ok true ->
  last (DbFile.pages f) = Some last_page ->
  HeapPage.insertTuple (DbFile.td f) tu last_page = (Ok true, pg') ->
  HeapFile.insertTuple tu f
  = (Ok tt, {| DbFile.td := DbFile.td f;
               DbFile.pages := <[length (DbFile.pages f) - 1 := pg']> (DbFile.pages f);
               DbFile.io := DbFile.io f ++ [PageRead (length (DbFile.pages f) - 1);
                                            PageWrite (length (DbFile.pages f) - 1)] |}).
Proof.
  intros Hcomp Hlast Hins.
  rewrite last_lookup in Hlast.
  pose proof (lookup_lt_Some _ _ _ Hlast) as Hn.
  replace (pred (length (DbFile.pages f))) with (length (DbFile.pages f) - 1) in Hlast by lia.
  unfold HeapFile.insertTuple, pbind at 1, DbFile.getTupleDesc.
  unfold pbind at 1, plift. rewrite Hcomp. cbn [negb].
  unfold pbind at 1, DbFile.getNumPages.
  destruct (Nat.ltb_spec 0 (length (DbFile.pages f))); [|lia].
  unfold pbind at 1. unfold pbind at 1. rewrite (readPage_Ok _ _ _ Hlast).
  unfold pbind at 1, HeapFile.on_page. rewrite Hins.
  unfold pbind at 1. rewrite writePage_in_place by (simpl; lia).
  unfold pret. cbn [logged DbFile.td DbFile.pages DbFile.io].
  by rewrite <- app_assoc.
Qed.

(** [insertTuple] of a file that is empty or whose last page is full. *)
Lemma HeapFile_insertTuple_new (f : DbFile.t) (tu : Tuple.t) (ok : bool) (new_page : Page) :
  TupleDesc.compatible (DbFile.td f) tu = Ok true ->
  DbFile.pages f = [] \/
  (exists last_page, last (DbFile.pages f) = Some last_page /\
                     page_full (DbFile.td f) last_page) ->
  HeapPage.insertTuple (DbFile.td f) tu zero_page = (Ok ok, new_page) ->
  exists io',
    HeapFile.insertTuple tu f
    = (Ok tt, {| DbFile.td := DbFile.td f; DbFile.pages := DbFile.pages f ++ [new_page];
                 DbFile.io := io' |}).
Proof.
  intros Hcomp Hcase Hins.
  unfold HeapFile.insertTuple, pbind at 1, DbFile.getTupleDesc.
  unfold pbind at 1, plift. rewrite Hcomp. cbn [negb].
  unfold pbind at 1, DbFile.getNumPages.
  destruct Hcase as [Hempty|(last_page & Hlast & Hfull)].
  - rewrite Hempty. cbn [length Nat.ltb Nat.leb]. unfold pbind at 1, pret.
    unfold pbind at 1, HeapFile.on_page. rewrite Hins.
    pose proof (writePage_append f new_page) as Hw. rewrite Hempty in Hw.
    cbn [length] in Hw. rewrite Hw. eexists. reflexivity.
  - rewrite last_lookup in Hlast.
    pose proof (lookup_lt_Some _ _ _ Hlast) as Hn.
    replace (pred (length (DbFile.pages f))) with (length (DbFile.pages f) - 1) in Hlast by lia.
    destruct (Nat.ltb_spec 0 (length (DbFile.pages f))); [|lia].
    unfold pbind at 1. unfold pbind at 1. rewrite (readPage_Ok _ _ _ Hlast).
    unfold pbind at 1, HeapFile.on_page. rewrite (insertTuple_full _ tu last_page Hfull).
    unfold pret. unfold pbind at 1. rewrite Hins.
    pose proof (writePage_append (logged (PageRead (length (DbFile.pages f) - 1)) f) new_page)
      as Hw.
    cbn [logged DbFile.td DbFile.pages DbFile.io] in Hw. rewrite Hw.
    eexists. reflexivity.
Qed.

(** A page has a dead slot or is full. *)
Lemma free_or_full (td : TupleDesc.t) (pg : Page) :
  has_free_slot td pg \/ page_full td pg.
Proof.
  destruct (find_slot_spec pg false (HeapPage.capacity td) 0) as (Hr & Hfound & Hb).
  destruct (Nat.lt_ge_cases (HeapPage.find_slot pg false 0 (HeapPage.capacity td))
              (HeapPage.capacity td)) as [Hlt|Hge].
  - left. eexists. split; [exact Hlt|]. apply Hfound. lia.
  - right. intros j Hj. apply (Hb j). lia.
Qed.

(** [insertTuple] of a file whose pages have room for at least one record. *)
Lemma insertTuple_adds_one_spec (f : DbFile.t) (tu : Tuple.t) :
  constructed (DbFile.td f) ->
  wf_file f ->
  TupleDesc.compatible (DbFile.td f) tu = Ok true ->
  Tuple.wf tu ->
  0 < HeapPage.capacity (DbFile.td f) ->
  exists loc f',
    HeapFile.insertTuple tu f = (Ok tt, f') /\
    DbFile.td f' = DbFile.td f /\
    wf_file f' /\
    HeapFile.page loc = length (DbFile.pages f') - 1 /\
    ~ is_live f loc /\
    (forall x, is_live f' x <-> is_live f x \/ x = loc) /\
    fst (HeapFile.getTuple loc f') = Ok (stored tu) /\
    (forall x, is_live f x -> fst (HeapFile.getTuple x f') = fst (HeapFile.getTuple x f)).
Proof.
  intros Hc Hwff Hcomp Hwf Hcap.
  assert (Hcase : (exists last_page, last (DbFile.pages f) = Some last_page /\
                                     has_free_slot (DbFile.td f) last_page) \/
                  (DbFile.pages f = [] \/
                   exists last_page, last (DbFile.pages f) = Some last_page /\
                                     page_full (DbFile.td f) last_page)).
  { destruct (last (DbFile.pages f)) as [pg|] eqn:Hlast.
    - destruct (free_or_full (DbFile.td f) pg); [left | right; right]; eauto.
    - right. left. by apply last_None. }
  destruct Hcase as [(pg & Hlast & Hfree)|Hnew].
  - (* the last page takes the tuple *)
    pose proof Hlast as Hlk. rewrite last_lookup in Hlk.
    pose proof (lookup_lt_Some _ _ _ Hlk) as Hn.
    replace (pred (length (DbFile.pages f))) with (length (DbFile.pages f) - 1) in Hlk by lia.
    assert (Hlen : length pg = DEFAULT_PAGE_SIZE)
      by exact (proj1 (Forall_lookup _ _) Hwff _ _ Hlk).
    destruct (HeapPage_insertTuple_frame _ tu pg Hc Hcomp Hwf Hlen Hfree)
      as (pg' & Hins & Hlen' & Hlive & Hget & Hothers).
    pose proof (find_slot_free _ pg Hfree) as Hs.
    destruct (find_slot_spec pg false (HeapPage.capacity (DbFile.td f)) 0) as (_ & Hdead & _).
    specialize (Hdead ltac:(lia)).
    set (s := HeapPage.find_slot pg false 0 (HeapPage.capacity (DbFile.td f))) in *.
    set (n := length (DbFile.pages f)) in *.
    exists (HeapFile.Build_Iterator (n - 1) s). eexists.
    split; [exact (HeapFile_insertTuple_last f tu pg pg' Hcomp Hlast Hins)|].
    cbn [DbFile.td DbFile.pages HeapFile.page HeapFile.slot].
    split; [reflexivity|]. split; [by apply Forall_insert|].
    split; [by rewrite length_insert|].
    assert (Hsame : forall x, x <> HeapFile.Build_Iterator (n - 1) s ->
              HeapFile.slot x < HeapPage.capacity (DbFile.td f) ->
              forall pgx, <[n - 1 := pg']> (DbFile.pages f) !! HeapFile.page x = Some pgx ->
              exists pgx0, DbFile.pages f !! HeapFile.page x = Some pgx0 /\
                HeapPage.live pgx (HeapFile.slot x) = HeapPage.live pgx0 (HeapFile.slot x) /\
                HeapPage.getTuple (DbFile.td f) pgx (HeapFile.slot x)
                = HeapPage.getTuple (DbFile.td f) pgx0 (HeapFile.slot x)).
    { intros x Hne Hsx pgx Hx.
      destruct (decide (HeapFile.page x = n - 1)) as [Heq|Hneq].
      - rewrite Heq, list_lookup_insert_eq in Hx by (fold n; lia). injection Hx as <-.
        assert (Hslot : HeapFile.slot x <> s).
        { intros Heq'. apply Hne. destruct x. simpl in *. congruence. }
        exists pg. rewrite Heq. split; [exact Hlk|]. by apply Hothers.
      - rewrite list_lookup_insert_ne in Hx by congruence. exists pgx. by split. }
    split; [|split; [|split]].
    + intros (pgx & Hx & _ & Hlx). cbn [HeapFile.page HeapFile.slot] in *.
      rewrite Hlk in Hx. injection Hx as <-. congruence.
    + intros x. unfold is_live. cbn [DbFile.td DbFile.pages]. split.
      * intros (pgx & Hx & Hsx & Hlx).
        destruct (decide (x = HeapFile.Build_Iterator (n - 1) s)) as [->|Hne]; [by right|].
        left. destruct (Hsame x Hne Hsx pgx Hx) as (pgx0 & Hx0 & Hl0 & _).
        exists pgx0. rewrite <- Hl0. by split.
      * intros [(pgx0 & Hx0 & Hsx & Hlx)| ->].
        -- assert (Hne : x <> HeapFile.Build_Iterator (n - 1) s).
           { intros ->. cbn [HeapFile.page HeapFile.slot] in *.
             rewrite Hlk in Hx0. injection Hx0 as <-. congruence. }
           destruct (lookup_lt_is_Some_2 (<[n - 1 := pg']> (DbFile.pages f))
                       (HeapFile.page x)) as [pgx Hx].
           { rewrite length_insert. by apply lookup_lt_Some in Hx0. }
           destruct (Hsame x Hne Hsx pgx Hx) as (pgx0' & Hx0' & Hl0 & _).
           rewrite Hx0 in Hx0'. injection Hx0' as <-.
           exists pgx. rewrite Hl0. by split.
        -- exists pg'. cbn [HeapFile.page HeapFile.slot].
           rewrite list_lookup_insert_eq by (fold n; lia). by split.
    + rewrite fst_getTuple. cbn [DbFile.td DbFile.pages HeapFile.page HeapFile.slot].
      rewrite list_lookup_insert_eq by (fold n; lia). exact Hget.
    + intros x (pgx0 & Hx0 & Hsx & Hlx). rewrite !fst_getTuple.
      cbn [DbFile.td DbFile.pages]. rewrite Hx0.
      assert (Hne : x <> HeapFile.Build_Iterator (n - 1) s).
      { intros ->. cbn [HeapFile.page HeapFile.slot] in *.
        rewrite Hlk in Hx0. injection Hx0 as <-. congruence. }
      destruct (lookup_lt_is_Some_2 (<[n - 1 := pg']> (DbFile.pages f))
                  (HeapFile.page x)) as [pgx Hx].
      { rewrite length_insert. by apply lookup_lt_Some in Hx0. }
      destruct (Hsame x Hne Hsx pgx Hx) as (pgx0' & Hx0' & _ & Hg).
      rewrite Hx0 in Hx0'. injection Hx0' as <-. fold n. by rewrite Hx.
  - (* a new page takes the tuple *)
    assert (Hfree : has_free_slot (DbFile.td f) zero_page)
      by (exists 0; split; [lia | apply live_zero_page]).
    destruct (HeapPage_insertTuple_frame _ tu zero_page Hc Hcomp Hwf length_zero_page Hfree)
      as (new_page & Hins & Hlen' & Hlive & Hget & Hothers).
    rewrite find_slot_zero_page in *.
    destruct (HeapFile_insertTuple_new f tu true new_page Hcomp Hnew Hins) as [io' Heq].
    set (n := length (DbFile.pages f)) in *.
    exists (HeapFile.Build_Iterator n 0). eexists. split; [exact Heq|].
    cbn [DbFile.td DbFile.pages HeapFile.page HeapFile.slot].
    split; [reflexivity|]. split; [apply Forall_app; split; [exact Hwff | by constructor]|].
    split; [rewrite length_app; cbn [length]; fold n; lia|].
    split; [|split; [|split]].
    + intros (pgx & Hx & _). cbn [HeapFile.page] in Hx. apply lookup_lt_Some in Hx.
      fold n in Hx. lia.
    + intros x. unfold is_live. cbn [DbFile.td DbFile.pages]. split.
      * intros (pgx & Hx & Hsx & Hlx).
        destruct (Nat.lt_ge_cases (HeapFile.page x) n) as [Hlt|Hge].
        -- left. rewrite lookup_app_l in Hx by assumption. by exists pgx.
        -- right. rewrite lookup_app_r in Hx by assumption. fold n in Hx.
           destruct (HeapFile.page x - n) as [|k] eqn:Hk; [|destruct k; discriminate].
           cbn in Hx. injection Hx as <-.
           destruct (decide (HeapFile.slot x = 0)) as [H0|H0].
           ++ destruct x. simpl in *. f_equal; lia.
           ++ destruct (Hothers _ Hsx H0) as [Hl _].
              rewrite Hl, live_zero_page in Hlx. discriminate.
      * intros [(pgx0 & Hx0 & Hsx & Hlx)| ->].
        -- exists pgx0. split; [|by split]. by apply lookup_app_l_Some.
        -- exists new_page. cbn [HeapFile.page HeapFile.slot].
           rewrite lookup_app_r by (fold n; lia). fold n. rewrite Nat.sub_diag. by split.
    + rewrite fst_getTuple. cbn [DbFile.td DbFile.pages HeapFile.page HeapFile.slot].
      rewrite lookup_app_r by (fold n; lia). fold n. rewrite Nat.sub_diag. exact Hget.
    + intros x (pgx0 & Hx0 & Hsx & Hlx). rewrite !fst_getTuple.
      cbn [DbFile.td DbFile.pages]. by rewrite (lookup_app_l_Some _ _ _ _ Hx0), Hx0.
Qed.

(** * Compatibility, field by field *)

(** X12: [compatible] never throws and never reads out of bounds, whatever
    the tuple; it returns true exactly when the tuple has as many fields as
    the schema and [field_type] of every field is the type the schema
    declares at that index.  [field_type] and [get_field] throw
    [out_of_range] at an index that is not below [size()], and return the
    field, and the type of the alternative it holds, below it. *)
Theorem X12_compatible_fieldwise (td : TupleDesc.t) (tu : Tuple.t) :
  (TupleDesc.compatible td tu = Ok true \/ TupleDesc.compatible td tu = Ok false) /\
  (TupleDesc.compatible td tu = Ok true <->
   Tuple.size tu = TupleDesc.size td /\
   forall i ty, TupleDesc.types_ td !! i = Some ty -> Tuple.field_type tu i = Ok ty) /\
  (forall i, Tuple.size tu <= i ->
     (exists w, Tuple.field_type tu i = Throw (out_of_range w)) /\
     (exists w, Tuple.get_field tu i = Throw (out_of_range w))) /\
  (forall i, i < Tuple.size tu ->
     exists f, Tuple.get_field tu i = Ok f /\ Tuple.field_type tu i = Ok (field_tag f)).
Proof.
  split; [|split; [|split]].
  - rewrite compatible_spec. destruct (bool_decide _); auto.
  - rewrite compatible_true. unfold Tuple.size, TupleDesc.size. split.
    + intros Htags. split; [by rewrite <- Htags, length_fmap|].
      intros i ty Hty. rewrite <- Htags, list_lookup_fmap in Hty.
      destruct (Tuple.fields tu !! i) as [f|] eqn:Hf; [|discriminate].
      injection Hty as <-. by apply field_type_lookup.
    + intros [Hlen Hall]. apply list_eq. intros i. rewrite list_lookup_fmap.
      destruct (TupleDesc.types_ td !! i) as [ty|] eqn:Hty.
      * specialize (Hall i ty Hty).
        destruct (Tuple.fields tu !! i) as [f|] eqn:Hf.
        -- rewrite (field_type_lookup tu i f Hf) in Hall. injection Hall as Hall.
           cbn. by f_equal.
        -- apply lookup_ge_None in Hf. apply lookup_lt_Some in Hty. lia.
      * apply lookup_ge_None in Hty.
        rewrite (proj2 (lookup_ge_None (Tuple.fields tu) i)) by lia. reflexivity.
  - intros i Hi. unfold Tuple.size in Hi. apply lookup_ge_None in Hi.
    unfold Tuple.field_type, Tuple.get_field, vec_at. rewrite Hi.
    split; eexists; reflexivity.
  - intros i Hi. unfold Tuple.size in Hi.
    destruct (lookup_lt_is_Some_2 _ _ Hi) as [f Hf]. exists f.
    split; [by apply vec_at_lookup | by apply field_type_lookup].
Qed.

(** * Deleting and inserting a record *)





(** X14: when a page has room for at least one record, [insertTuple] of a
    compatible tuple returns, and the file has exactly one more live slot
    than before, on its last page; [getTuple] there gives the inserted tuple
    (its texts cut as stored); every slot that was live is still live, and
    [getTuple] gives at its locator what it gave before; the pages keep the
    page size; and a scan from [begin()] by [next()] visits, in increasing
    order of (page, slot), the locators it visited before and the new
    one. *)
Theorem X14_insertTuple_adds_one (f : DbFile.t) (tu : Tuple.t) :
  constructed (DbFile.td f) ->
  wf_file f ->
  TupleDesc.compatible (DbFile.td f) tu = Ok true ->
  Tuple.wf tu ->
  0 < HeapPage.capacity (DbFile.td f) ->
  exists loc f',
    HeapFile.insertTuple tu f = (Ok tt, f') /\
    DbFile.td f' = DbFile.td f /\
    wf_file f' /\
    HeapFile.page loc = length (DbFile.pages f') - 1 /\
    ~ is_live f loc /\
    (forall x, is_live f' x <-> is_live f x \/ x = loc) /\
    fst (HeapFile.getTuple loc f') = Ok (stored tu) /\
    (forall x, is_live f x -> fst (HeapFile.getTuple x f') = fst (HeapFile.getTuple x f)) /\
    (forall fuel, length (live_locators f) < fuel ->
       exists l f'',
         HeapFile.scan fuel f' = (Ok (Some l), f'') /\
         DbFile.pages f'' = DbFile.pages f' /\
         l ≡ₚ loc :: live_locators f /\
         StronglySorted locator_lt l).
Proof.
  intros Hc Hwff Hcomp Hwf Hcap.
  destruct (insertTuple_adds_one_spec f tu Hc Hwff Hcomp Hwf Hcap)
    as (loc & f' & Hins & Htd & Hwf' & Hpage & Hnew & Hl' & Hget & Hold).
  exists loc, f'. do 8 (split; [assumption|]).
  pose proof (StronglySorted_NoDup _ (pages_from_sorted (DbFile.td f) (DbFile.pages f) 0))
    as Hnd.
  pose proof (StronglySorted_NoDup _ (pages_from_sorted (DbFile.td f') (DbFile.pages f') 0))
    as Hnd'.
  fold (live_locators f) in Hnd. fold (live_locators f') in Hnd'.
  assert (Hperm : live_locators f' ≡ₚ loc :: live_locators f).
  { apply NoDup_Permutation; [exact Hnd'| |].
    - apply NoDup_cons. split; [|exact Hnd]. by rewrite elem_of_live_locators.
    - intros x. rewrite elem_of_cons, !elem_of_live_locators, Hl'. tauto. }
  intros fuel Hfuel.
  destruct (scan_spec f' fuel) as (f'' & Hscan & Hsame).
  { rewrite (Permutation_length Hperm). cbn [length]. lia. }
  exists (live_locators f'), f''. split; [exact Hscan|].
  split; [exact (proj2 Hsame)|]. split; [exact Hperm | apply pages_from_sorted].
Qed.

(** Inserting the example tuple into the file of three pages, and a scan. *)
Lemma X14_insertTuple_adds_one_witness :
  exists loc f',
    HeapFile.insertTuple example_tuple example_scan_file = (Ok tt, f') /\
    (forall x, is_live f' x <-> is_live example_scan_file x \/ x = loc) /\
    fst (HeapFile.getTuple loc f') = Ok (stored example_tuple) /\
    exists l f'',
      HeapFile.scan 4 f' = (Ok (Some l), f'') /\
      DbFile.pages f'' = DbFile.pages f' /\
      l ≡ₚ loc :: live_locators example_scan_file /\
      StronglySorted locator_lt l.
Proof.
  destruct (X14_insertTuple_adds_one example_scan_file example_tuple)
    as (loc & f' & Hins & _ & _ & _ & _ & Hlive & Hget & _ & Hscan).
  - exact example_td_constructed.
  - exact example_scan_file_wf.
  - vm_compute. reflexivity.
  - exact example_tuple_wf.
  - vm_compute. lia.
  - exists loc, f'. split; [exact Hins|]. split; [exact Hlive|]. split; [exact Hget|].
    apply Hscan. vm_compute. lia.
Defined.

(** * The pages an insert transfers *)

Lemma HeapPage_insertTuple_Ok (td : TupleDesc.t) (tu : Tuple.t) (pg : Page) :
  constructed td ->
  TupleDesc.compatible td tu = Ok true ->
  length pg = DEFAULT_PAGE_SIZE ->
  has_free_slot td pg ->
  exists pg', HeapPage.insertTuple td tu pg = (Ok true, pg').
Proof.
  intros Hc Hcomp Hlen Hfree.
  destruct (constructed_layout td Hc) as (_ & _ & Hoff & Hl).
  apply compatible_true in Hcomp.
  pose proof (find_slot_free td pg Hfree) as Hs.
  unfold HeapPage.insertTuple.
  set (s := HeapPage.find_slot pg false 0 (HeapPage.capacity td)) in *.
  destruct (slot_in_page td s Hs) as (Hbyte & Hhdr & Hslot).
  rewrite (proj2 (Nat.ltb_lt _ _) Hs).
  destruct (lookup_lt_is_Some_2 pg (s / 8)) as [b Hb]; [lia|].
  unfold pbind at 1, HeapPage.mark. unfold Page in *. rewrite Hb.
  unfold pbind at 1, at_offset. rewrite length_insert.
  rewrite (proj2 (Nat.leb_le _ _)) by lia.
  rewrite (serialize_Ok td Hoff Hl tu _ Hcomp) by (rewrite length_drop, length_insert; lia).
  eexists. reflexivity.
Qed.

Lemma HeapPage_insertTuple_zero_page (td : TupleDesc.t) (tu : Tuple.t) :
  constructed td ->
  TupleDesc.compatible td tu = Ok true ->
  exists ok new_page, HeapPage.insertTuple td tu zero_page = (Ok ok, new_page).
Proof.
  intros Hc Hcomp.
  destruct (free_or_full td zero_page) as [Hfree|Hfull].
  - destruct (HeapPage_insertTuple_Ok td tu zero_page Hc Hcomp length_zero_page Hfree)
      as [pg' Hins]. eauto.
  - rewrite (insertTuple_full td tu zero_page Hfull). eauto.
Qed.

(** X15: [insertTuple] of a compatible tuple returns, and it transfers at
    most two pages: it reads the last page, when there is one, and writes
    one page, which is the last page or a new page at the index that was the
    page count; an empty file is not read.  The pages before the last one
    are as they were. *)
Theorem X15_insertTuple_footprint (f : DbFile.t) (tu : Tuple.t) :
  constructed (DbFile.td f) ->
  wf_file f ->
  TupleDesc.compatible (DbFile.td f) tu = Ok true ->
  exists f',
    HeapFile.insertTuple tu f = (Ok tt, f') /\
    DbFile.td f' = DbFile.td f /\
    (forall i, i + 1 < length (DbFile.pages f) -> DbFile.pages f' !! i = DbFile.pages f !! i) /\
    ((0 < length (DbFile.pages f) /\
      length (DbFile.pages f') = length (DbFile.pages f) /\
      DbFile.io f' = DbFile.io f ++ [PageRead (length (DbFile.pages f) - 1);
                                     PageWrite (length (DbFile.pages f) - 1)]) \/
     (0 < length (DbFile.pages f) /\
      (exists new_page, DbFile.pages f' = DbFile.pages f ++ [new_page]) /\
      DbFile.io f' = DbFile.io f ++ [PageRead (length (DbFile.pages f) - 1);
                                     PageWrite (length (DbFile.pages f))]) \/
     (DbFile.pages f = [] /\
      (exists new_page, DbFile.pages f' = [new_page]) /\
      DbFile.io f' = DbFile.io f ++ [PageWrite 0])).
Proof.
  intros Hc Hwff Hcomp.
  destruct (HeapPage_insertTuple_zero_page _ tu Hc Hcomp) as (ok & new_page & Hnew).
  destruct (last (DbFile.pages f)) as [pg|] eqn:Hlast.
  - pose proof Hlast as Hlk. rewrite last_lookup in Hlk.
    pose proof (lookup_lt_Some _ _ _ Hlk) as Hn.
    replace (pred (length (DbFile.pages f))) with (length (DbFile.pages f) - 1) in Hlk by lia.
    destruct (free_or_full (DbFile.td f) pg) as [Hfree|Hfull].
    + assert (Hlen : length pg = DEFAULT_PAGE_SIZE)
        by exact (proj1 (Forall_lookup _ _) Hwff _ _ Hlk).
      destruct (HeapPage_insertTuple_Ok _ tu pg Hc Hcomp Hlen Hfree) as [pg' Hins].
      eexists. split; [exact (HeapFile_insertTuple_last f tu pg pg' Hcomp Hlast Hins)|].
      cbn [DbFile.td DbFile.pages DbFile.io]. split; [reflexivity|]. split.
      * intros i Hi. apply list_lookup_insert_ne. lia.
      * left. split; [lia|]. split; [apply length_insert | reflexivity].
    + unfold HeapFile.insertTuple, pbind at 1, DbFile.getTupleDesc.
      unfold pbind at 1, plift. rewrite Hcomp. cbn [negb].
      unfold pbind at 1, DbFile.getNumPages.
      destruct (Nat.ltb_spec 0 (length (DbFile.pages f))); [|lia].
      unfold pbind at 1. unfold pbind at 1. rewrite (readPage_Ok _ _ _ Hlk).
      unfold pbind at 1, HeapFile.on_page. rewrite (insertTuple_full _ tu pg Hfull).
      unfold pret. unfold pbind at 1. cbn [logged DbFile.td]. rewrite Hnew.
      pose proof (writePage_append (logged (PageRead (length (DbFile.pages f) - 1)) f) new_page)
        as Hw.
      cbn [logged DbFile.td DbFile.pages DbFile.io] in Hw. rewrite Hw.
      eexists. split; [reflexivity|].
      cbn [DbFile.td DbFile.pages DbFile.io]. split; [reflexivity|]. split.
      * intros i Hi. apply lookup_app_l. lia.
      * right. left. split; [lia|]. split; [eauto|]. by rewrite <- app_assoc.
  - apply last_None in Hlast.
    unfold HeapFile.insertTuple, pbind at 1, DbFile.getTupleDesc.
    unfold pbind at 1, plift. rewrite Hcomp. cbn [negb].
    unfold pbind at 1, DbFile.getNumPages.
    rewrite Hlast. cbn [length Nat.ltb Nat.leb]. unfold pbind at 1, pret.
    unfold pbind at 1, HeapFile.on_page. rewrite Hnew.
    pose proof (writePage_append f new_page) as Hw. rewrite Hlast in Hw.
    cbn [length] in Hw. rewrite Hw. eexists. split; [reflexivity|].
    cbn [DbFile.td DbFile.pages DbFile.io]. split; [reflexivity|]. split.
    + intros i Hi. lia.
    + right. right. split; [reflexivity|]. split; [eauto | reflexivity].
Qed.

(** The file of three pages: its last page has a dead slot. *)
Lemma X15_insertTuple_footprint_witness :
  exists f',
    HeapFile.insertTuple example_tuple example_scan_file = (Ok tt, f') /\
    forall i, i + 1 < 3 -> DbFile.pages f' !! i = DbFile.pages example_scan_file !! i.
Proof.
  destruct (X15_insertTuple_footprint example_scan_file example_tuple)
    as (f' & Hins & _ & Hpages & _).
  - exact example_td_constructed.
  - exact example_scan_file_wf.
  - vm_compute. reflexivity.
  - exists f'. split; [exact Hins | exact Hpages].
Defined.
